(** * RDM GitHub dashboard: freshness cache and language aggregator

    A shallow embedding of the logic of the dashboard:
    - [App.tsx] ([fetchData], [languageStats], [filteredRepos] and the
      summary line),
    - [components/RepositoryCard.tsx] ([languageData]),
    - [components/AdminDashboard.tsx] ([fetchAllData], [deletePullRequest],
      [filteredPRs]),
    - [components/AdminLogin.tsx] ([handleLogin]),
    - [utils/github.ts] ([fetchOrganizationRepos] and its helpers).

    Conventions of the embedding.
    - A JavaScript [number] that takes part in an addition of byte counts
      or in a division is an IEEE 754 binary64 value, modelled by
      [spec_float] with precision 53 and exponent bound 1024; [+], [/] and
      [*] are [SFadd], [SFdiv] and [SFmul], which round to nearest, ties to
      even, as the language prescribes.
    - Byte counts as the provider lists them, pull-request numbers and
      millisecond timestamps are non-negative integers, modelled by [N] or
      [Z]; a byte count becomes a binary64 value ([N2SF]) where the program
      adds or divides it.  Timestamps are subtracted as integers, which is
      what JavaScript computes below 2^53.
    - An object used as a dictionary is the list of its own properties in
      the order in which the language enumerates them.  A lookup that finds
      no own property continues in [Object.prototype], and an assignment to
      [__proto__] creates no property.
    - [try]/[catch] is an error monad over the mutable world (component
      state and [localStorage]); an effect performed before a [throw]
      persists.
    - The network, [JSON], [Number] and the refusal of a write by
      [localStorage] are parameters of the development. *)

From Stdlib Require Import ZArith NArith List Ascii String Lia Reals Lra.
From Stdlib Require Import DecimalString DecimalZ.
From Stdlib Require Import Floats.SpecFloat.
From stdpp Require Import gmap strings list.

Open Scope Z_scope.

(** ** Numbers *)

Module Num.

Definition prec : Z := 53.
Definition emax : Z := 1024.

Definition number := spec_float.

(** The binary64 value of an integer literal or integer-valued variable. *)
Definition Z2SF (z : Z) : number := binary_normalize prec emax z 0 false.
Definition N2SF (n : N) : number := Z2SF (Z.of_N n).

Definition add : number → number → number := SFadd prec emax.
Definition div : number → number → number := SFdiv prec emax.
Definition mul : number → number → number := SFmul prec emax.

(** [x || 0] for a number [x]: the zeros and NaN are falsy. *)
Definition or_zero (x : number) : number :=
  match x with
  | S754_zero _ | S754_nan => Z2SF 0
  | _ => x
  end.

Definition is_nan (x : number) : bool :=
  match x with S754_nan => true | _ => false end.

(** The integer [floor (x + 1/2)] for the finite [x] of sign [s], mantissa
    [m] and exponent [e]. *)
Definition round_half_up (s : bool) (m : positive) (e : Z) : Z :=
  let n := cond_Zopp s (Zpos m) in
  if 0 <=? e then n * 2 ^ e else (n + 2 ^ (- e - 1)) `div` 2 ^ (- e).

(** [Math.round]: the integer nearest to [x], a tie going towards plus
    infinity; NaN, the infinities and the zeros are returned unchanged, and
    a negative [x] that rounds to zero gives the negative zero. *)
Definition Math_round (x : number) : number :=
  match x with
  | S754_finite s m e =>
      let z := round_half_up s m e in
      if z =? 0 then S754_zero s else Z2SF z
  | _ => x
  end.

End Num.

Export Num.

(** ** Objects used as dictionaries *)

Module JsObject.

(** The own enumerable properties of an object, in enumeration order: the
    keys that are array indices first, in ascending numeric order, then the
    other keys in the order of their creation. *)
Definition jsobj (V : Type) := list (string * V).

(** The names of the members of [Object.prototype], which an object created
    by a literal inherits: functions, and the accessor [__proto__]. *)
Definition Object_prototype : list string :=
  [ "constructor"; "hasOwnProperty"; "isPrototypeOf"; "propertyIsEnumerable";
    "toLocaleString"; "toString"; "valueOf"; "__proto__";
    "__defineGetter__"; "__defineSetter__"; "__lookupGetter__"; "__lookupSetter__" ].

Definition inherited (k : string) : bool := bool_decide (k ∈ Object_prototype).

Definition digit_of (c : ascii) : option N :=
  let n := N_of_ascii c in
  if ((48 <=? n) && (n <=? 57))%N then Some (n - 48)%N else None.

Fixpoint digits_value (acc : N) (s : string) : option N :=
  match s with
  | EmptyString => Some acc
  | String c s' =>
      match digit_of c with
      | Some d => digits_value (10 * acc + d)%N s'
      | None => None
      end
  end.

(** [array_index k] is [Some n] when [k] is the canonical decimal numeral
    of an integer [n] with [0 <= n < 2^32 - 1]. *)
Definition array_index (k : string) : option N :=
  match k with
  | EmptyString => None
  | String c rest =>
      if bool_decide (c = "0"%char) && negb (bool_decide (rest = EmptyString))
      then None
      else if (10 <? String.length k)%nat then None
      else match digits_value 0 k with
           | Some n => if (n <? 4294967295)%N then Some n else None
           | None => None
           end
  end.

(** The own property [k] of [o]; [None] when [o] has none. *)
Fixpoint obj_get {V} (k : string) (o : jsobj V) : option V :=
  match o with
  | [] => None
  | (k', v) :: o' => if decide (k = k') then Some v else obj_get k o'
  end.

Fixpoint obj_update {V} (k : string) (v : V) (o : jsobj V) : jsobj V :=
  match o with
  | [] => []
  | (k', v') :: o' =>
      if decide (k = k') then (k', v) :: o' else (k', v') :: obj_update k v o'
  end.

(** Does the existing key [k'] stay in front of the new key [k]? *)
Definition stays_before (k k' : string) : bool :=
  match array_index k, array_index k' with
  | Some n, Some n' => (n' <? n)%N
  | Some _, None => false
  | None, _ => true
  end.

Fixpoint obj_create {V} (k : string) (v : V) (o : jsobj V) : jsobj V :=
  match o with
  | [] => [(k, v)]
  | (k', v') :: o' =>
      if stays_before k k' then (k', v') :: obj_create k v o'
      else (k, v) :: (k', v') :: o'
  end.

(** [o[k] = v] for a key other than [__proto__]: the own property is
    updated, or created. *)
Definition obj_set {V} (k : string) (v : V) (o : jsobj V) : jsobj V :=
  match obj_get k o with
  | Some _ => obj_update k v o
  | None => obj_create k v o
  end.

Definition Object_entries {V} (o : jsobj V) : list (string * V) := o.
Definition Object_values {V} (o : jsobj V) : list V := o.*2.
Definition Object_keys {V} (o : jsobj V) : list string := o.*1.

End JsObject.

Export JsObject.

(** ** Data model ([types.ts]) *)

Record Commit := {
  commit_message : string;
  commit_author : string;
  commit_date : string;
  commit_sha : string;
  commit_url : string
}.

Record Repository := {
  repo_name : string;
  repo_url : string;
  readmeUrl : string;
  description : string;
  languages : jsobj N;
  lastCommit : option Commit;
  readmeContent : option string
}.

(** An entry of a chart; its colour is a string in [LanguageStats]. *)
Record LanguageEntry (C : Type) := {
  name : string;
  value : number;
  color : C
}.
Arguments name {C} _.
Arguments value {C} _.
Arguments color {C} _.

Definition LanguageStats := LanguageEntry string.

(** ** The aggregator ([App.tsx], [languageStats]) *)

Module Aggregator.

(** What a property of the accumulator holds: a number, or the string that
    [+] builds as soon as one of its operands is not a number (the text of a
    function or of an object, with digits around it: never a numeral, never
    empty). *)
Inductive slot :=
| Num (x : number)
| Str.

(** The value of [stats[lang]]: an own property, else the member of
    [Object.prototype] of that name (a function, or for [__proto__] an
    object), else [undefined]. *)
Inductive lookup :=
| Own (v : slot)
| Member
| Undefined.

Definition stats_get (lang : string) (stats : jsobj slot) : lookup :=
  match obj_get lang stats with
  | Some v => Own v
  | None => if inherited lang then Member else Undefined
  end.

(** [(current || 0) + value]: a function, an object and a string are truthy
    and make the sum a string. *)
Definition increment (current : lookup) (value : number) : slot :=
  match current with
  | Own (Num x) => Num (add (or_zero x) value)
  | Own Str => Str
  | Member => Str
  | Undefined => Num (add (Z2SF 0) value)
  end.

(** [stats[lang] = v]: the setter of [__proto__] ignores a value that is
    not an object. *)
Definition stats_set (lang : string) (v : slot) (stats : jsobj slot) : jsobj slot :=
  if decide (lang = "__proto__") then stats else obj_set lang v stats.

(** [stats[lang] = (stats[lang] || 0) + value], the byte count [value]
    being the binary64 value of the integer of the listing. *)
Definition add_language (stats : jsobj slot) (entry : string * N) : jsobj slot :=
  let '(lang, v) := entry in
  stats_set lang (increment (stats_get lang stats) (N2SF v)) stats.

Definition add_repo (stats : jsobj slot) (repo : Repository) : jsobj slot :=
  fold_left add_language (Object_entries (languages repo)) stats.

Definition accumulate (repositories : list Repository) : jsobj slot :=
  fold_left add_repo repositories [].

(** [a + b] *)
Definition plus (a b : slot) : slot :=
  match a, b with
  | Num x, Num y => Num (add x y)
  | _, _ => Str
  end.

(** [Object.values(stats).reduce((a, b) => a + b, 0)] *)
Definition grand_total (stats : jsobj slot) : slot :=
  fold_left plus (Object_values stats) (Num (Z2SF 0)).

(** The number a value is converted to by [/]. *)
Definition to_number (v : slot) : number :=
  match v with
  | Num x => x
  | Str => S754_nan
  end.

(** [Math.round((value / total) * 100)] *)
Definition percentage (v total : slot) : number :=
  Math_round (mul (div (to_number v) (to_number total)) (Z2SF 100)).

Definition color_of (name : string) : string :=
  if decide (name = "TypeScript") then "#3178c6"
  else if decide (name = "JavaScript") then "#f7df1e"
  else if decide (name = "Python") then "#3776ab"
  else if decide (name = "Java") then "#b07219"
  else if decide (name = "Ruby") then "#701516"
  else if decide (name = "Go") then "#00ADD8"
  else "#6e7681".

Definition languageStats (repositories : list Repository) : list LanguageStats :=
  let stats := accumulate repositories in
  let total := grand_total stats in
  map (λ '(name, v),
        {| name := name; value := percentage v total; color := color_of name |})
      (Object_entries stats).

End Aggregator.

Export Aggregator.

(** ** The per-card breakdown ([RepositoryCard.tsx], [languageData]) *)

Module Card.

Definition languageColors : jsobj string :=
  [ ("JavaScript", "#f7df1e"); ("TypeScript", "#3178c6"); ("Python", "#3776ab");
    ("Java", "#b07219"); ("Ruby", "#701516"); ("Go", "#00ADD8");
    ("Rust", "#dea584"); ("HTML", "#e34c26"); ("CSS", "#563d7c");
    ("SCSS", "#c6538c"); ("C", "#555555"); ("C++", "#f34b7d");
    ("C#", "#178600"); ("PHP", "#4F5D95"); ("Swift", "#ffac45");
    ("Kotlin", "#F18E33"); ("Dart", "#00B4AB"); ("Shell", "#89e051");
    ("PowerShell", "#012456"); ("Vue", "#41b883"); ("Svelte", "#ff3e00");
    ("Lua", "#000080"); ("Perl", "#0298c3"); ("R", "#198CE7");
    ("Julia", "#a270ba"); ("Haskell", "#5e5086"); ("Elixir", "#6e4a7e");
    ("Assembly", "#6E4C13"); ("MATLAB", "#e16737"); ("Groovy", "#4298b8");
    ("Scala", "#c22d40"); ("Objective-C", "#438eff"); ("CoffeeScript", "#244776");
    ("Clojure", "#db5855"); ("Erlang", "#B83998"); ("OCaml", "#3be133");
    ("Fortran", "#4d41b1") ].

(** What the [color] of an entry of a card holds: a string, or the member
    of [Object.prototype] that the lookup in the table found. *)
Inductive colour :=
| Colour (text : string)
| NotAColour (member : string).

(** [languageColors[name] || '#6e7681']: every colour of the table is a
    non-empty string, hence truthy, and so is a member of
    [Object.prototype]. *)
Definition card_color (name : string) : colour :=
  match obj_get name languageColors with
  | Some c => Colour c
  | None => if inherited name then NotAColour name else Colour "#6e7681"
  end.

(** The byte counts of a card are own properties of an object read from
    JSON; they are added in binary64. *)
Definition languageData (languages : jsobj N) : list (LanguageEntry colour) :=
  let total := fold_left add (map N2SF (Object_values languages)) (Z2SF 0) in
  map (λ '(name, v),
        {| name := name;
           value := Math_round (mul (div (N2SF v) total) (Z2SF 100));
           color := card_color name |})
      (Object_entries languages).

End Card.

Export Card.

(** ** Exceptions and the mutable world *)

Module Effects.

(** A thrown value: an [Error] with its message, or anything else. *)
Inductive exn :=
| JsError (message : string)
| NonError.

Inductive outcome (A : Type) :=
| Returns (a : A)
| Throws (e : exn).
Arguments Returns {A} a.
Arguments Throws {A} e.

(** [err instanceof Error ? err.message : fallback] *)
Definition message_or (fallback : string) (e : exn) : string :=
  match e with
  | JsError m => m
  | NonError => fallback
  end.

(** Truthiness of a string, and of a value that may be [null]. *)
Definition truthy (s : string) : bool := negb (bool_decide (s = EmptyString)).

Definition truthy_opt (o : option string) : bool :=
  match o with
  | Some s => truthy s
  | None => false
  end.

(** [s || fallback] *)
Definition or_else (o : option string) (fallback : string) : string :=
  match o with
  | Some s => if truthy s then s else fallback
  | None => fallback
  end.

(** A request sent to the provider. *)
Inductive request :=
| ReqOrgRepos (org : string)
| ReqAdminRepos
| ReqPulls (repo : string)
| ReqClosePull (repo : string) (number : N).

(** The world a handler runs in: the state of its component, the browser
    store, the requests sent so far and the messages appended to the page. *)
Record World (S : Type) := mkWorld {
  ui : S;
  localStorage : gmap string string;
  requests : list request;
  toasts : list string
}.
Arguments mkWorld {S} _ _ _ _.
Arguments ui {S} _.
Arguments localStorage {S} _.
Arguments requests {S} _.
Arguments toasts {S} _.

(** A computation that may throw and that changes the world as it goes. *)
Definition M (S A : Type) : Type := World S → outcome A * World S.

#[export] Instance M_ret {S} : MRet (M S) := λ A a w, (Returns a, w).

#[export] Instance M_bind {S} : MBind (M S) :=
  λ A B k c w, match c w with
               | (Returns a, w') => k a w'
               | (Throws e, w') => (Throws e, w')
               end.

Definition throw {S A} (e : exn) : M S A := λ w, (Throws e, w).

(** [await p] for a promise that is already decided by the environment. *)
Definition await {S A} (o : outcome A) : M S A := λ w, (o, w).

Definition try_catch {S A} (body : M S A) (handler : exn → M S A) : M S A :=
  λ w, match body w with
       | (Returns a, w') => (Returns a, w')
       | (Throws e, w') => handler e w'
       end.

Definition finally {S A} (body : M S A) (cleanup : M S unit) : M S A :=
  λ w, match body w with
       | (r, w') =>
           match cleanup w' with
           | (Returns _, w'') => (r, w'')
           | (Throws e, w'') => (Throws e, w'')
           end
       end.

Definition modify_ui {S} (f : S → S) : M S unit :=
  λ w, (Returns tt, mkWorld (f (ui w)) (localStorage w) (requests w) (toasts w)).

Definition read_ui {S A} (f : S → A) : M S A := λ w, (Returns (f (ui w)), w).

(** [localStorage.getItem(key)]: [None] is [null]. *)
Definition getItem {S} (key : string) : M S (option string) :=
  λ w, (Returns (localStorage w !! key), w).

(** Whether the browser refuses to write [value] under [key] into a store
    (its quota is exceeded, or the storage is disabled), and the exception
    it then throws: a parameter of the development. *)
Class Storage := {
  refusal : gmap string string → string → string → option exn
}.

(** [localStorage.setItem(key, value)]: it throws when the browser refuses
    the write, and then leaves the store as it was. *)
Definition setItem `{ST : Storage} {S} (key value : string) : M S unit :=
  λ w, match refusal (localStorage w) key value with
       | Some e => (Throws e, w)
       | None =>
           (Returns tt,
            mkWorld (ui w) (<[key := value]> (localStorage w)) (requests w) (toasts w))
       end.

(** Sending a request whose answer the environment has decided. *)
Definition send {S A} (r : request) (answer : outcome A) : M S A :=
  λ w, (answer, mkWorld (ui w) (localStorage w) (requests w ++ [r]) (toasts w)).

Definition show_toast {S} (text : string) : M S unit :=
  λ w, (Returns tt, mkWorld (ui w) (localStorage w) (requests w) (toasts w ++ [text])).

(** The world left by a handler whose own [try]/[catch] lets nothing out. *)
Definition run {S A} (c : M S A) (w : World S) : World S := (c w).2.

End Effects.

Export Effects.

(** ** Built-in conversions, parameters of the development *)

(** [JSON.parse] (which throws on a malformed text) and [JSON.stringify],
    at the type of the value the program stores. *)
Class JSON (A : Type) := {
  JSON_parse : string → outcome A;
  JSON_stringify : A → string
}.

(** [Number(s)] for the text of a timestamp slot: an integer number of
    milliseconds, or [None] for NaN; and [n.toString()]. *)
Class Timestamps := {
  Number_ : string → option Z;
  toString : Z → string
}.

(** ** The freshness test shared by the two caches *)

(** [now - capturedAt < ttl] *)
Definition isFresh (capturedAt now ttl : Z) : bool := now - capturedAt <? ttl.

(** [Date.now() - Number(lastFetchTime) < ttl]; a comparison with NaN is
    false. *)
Definition timeSinceLastFetch_below `{TS : Timestamps} (now : Z) (lastFetchTime : string) (ttl : Z) : bool :=
  match Number_ lastFetchTime with
  | Some capturedAt => isFresh capturedAt now ttl
  | None => false
  end.

(** ** The provider client ([utils/github.ts]) *)

Module Github.

Record GitHubError := { gh_message : option string }.

(** An HTTP response: [Ok] when [response.ok] holds, with the outcome of
    reading its body; [NotOk] with the status and the outcome of reading the
    body as an error object. *)
Inductive Response (A : Type) :=
| Ok (body : outcome A)
| NotOk (status : N) (body : outcome GitHubError).
Arguments Ok {A} body.
Arguments NotOk {A} status body.

(** The fields the client reads of a repository of the listing. *)
Record RawRepo := {
  raw_name : string;
  raw_full_name : string;
  raw_html_url : string;
  raw_description : option string
}.

Record RawAuthor := { author_name : string; author_date : string }.

Record RawCommitInfo := { info_message : string; info_author : option RawAuthor }.

(** An element of the commit listing; reading a field of an absent
    sub-object throws. *)
Record RawCommit := {
  raw_commit : option RawCommitInfo;
  raw_sha : string;
  raw_commit_url : string
}.

(** What [fetch] gives for each endpoint: it rejects ([Throws]) or resolves
    with a response. *)
Record Network := {
  get_org_repos : string → outcome (Response (list RawRepo));
  get_languages : string → outcome (Response (jsobj N));
  get_commits : string → outcome (Response (option (list RawCommit)));
  get_readme : string → outcome (Response string)
}.

Definition newline : ascii := "010"%char.

(** [s.split('\n')] *)
Fixpoint split_lines (s : string) : list string :=
  match s with
  | EmptyString => [EmptyString]
  | String c s' =>
      if decide (c = newline) then EmptyString :: split_lines s'
      else match split_lines s' with
           | [] => [String c EmptyString]
           | l :: ls => String c l :: ls
           end
  end.

(** [lines.join('\n')] *)
Fixpoint join_lines (lines : list string) : string :=
  match lines with
  | [] => EmptyString
  | [l] => l
  | l :: ls => l +:+ String newline (join_lines ls)
  end.

Definition fetchReadmeContent (net : Network) (repoFullName : string) : option string :=
  match get_readme net repoFullName with
  | Returns (Ok (Returns content)) => Some (join_lines (take 4 (split_lines content)))
  | Returns (Ok (Throws _)) => None
  | Returns (NotOk _ _) => None
  | Throws _ => None
  end.

Definition fetchRepoLanguages (net : Network) (repoFullName : string) : jsobj N :=
  match get_languages net repoFullName with
  | Returns (Ok (Returns langs)) => langs
  | Returns (Ok (Throws _)) => []
  | Returns (NotOk _ _) => []
  | Throws _ => []
  end.

Definition commit_of_raw (c : RawCommit) : option Commit :=
  match raw_commit c with
  | Some info =>
      match info_author info with
      | Some a =>
          Some {| commit_message := info_message info;
                  commit_author := author_name a;
                  commit_date := author_date a;
                  commit_sha := raw_sha c;
                  commit_url := raw_commit_url c |}
      | None => None
      end
  | None => None
  end.

Definition fetchLastCommit (net : Network) (repoFullName : string) : option Commit :=
  match get_commits net repoFullName with
  | Returns (Ok (Returns (Some (c :: _)))) => commit_of_raw c
  | Returns (Ok (Returns (Some []))) => None
  | Returns (Ok (Returns None)) => None
  | Returns (Ok (Throws _)) => None
  | Returns (NotOk _ _) => None
  | Throws _ => None
  end.

Definition dquote : string := String "034"%char EmptyString.

Definition build_repo (net : Network) (repo : RawRepo) : Repository :=
  {| repo_name := raw_name repo;
     repo_url := raw_html_url repo;
     readmeUrl := raw_html_url repo +:+ "#readme";
     description := or_else (raw_description repo) "No description provided";
     languages := fetchRepoLanguages net (raw_full_name repo);
     lastCommit := fetchLastCommit net (raw_full_name repo);
     readmeContent := fetchReadmeContent net (raw_full_name repo) |}.

Definition fetchOrganizationRepos (net : Network) (orgName : string) : outcome (list Repository) :=
  match get_org_repos net orgName with
  | Throws e => Throws e
  | Returns (NotOk status body) =>
      if (status =? 404)%N then
        Throws (JsError ("Organization " +:+ dquote +:+ orgName +:+ dquote +:+ " not found"))
      else if (status =? 403)%N then
        Throws (JsError "GitHub API rate limit exceeded. Please try again later.")
      else if (status =? 401)%N then
        Throws (JsError "Invalid GitHub token. Please check your authentication settings.")
      else match body with
           | Returns error =>
               Throws (JsError (or_else (gh_message error) "Failed to fetch repositories"))
           | Throws e => Throws e
           end
  | Returns (Ok (Throws e)) => Throws e
  | Returns (Ok (Returns repos)) => Returns (map (build_repo net) repos)
  end.

End Github.

Export Github.

(** ** The public dashboard ([App.tsx], [fetchData]) *)

Module App.

Definition ORGANIZATION_NAME : string := "G2HackFest".
Definition REFRESH_INTERVAL : Z := 30 * 60 * 1000.
Definition CACHE_DURATION : Z := 25 * 60 * 1000.

Record AppState := {
  repositories : list Repository;
  error : option string;
  loading : bool
}.

Definition setRepositories (repos : list Repository) : M AppState unit :=
  modify_ui (λ st, {| repositories := repos; error := error st; loading := loading st |}).

Definition setError (e : option string) : M AppState unit :=
  modify_ui (λ st, {| repositories := repositories st; error := e; loading := loading st |}).

Definition setLoading (b : bool) : M AppState unit :=
  modify_ui (λ st, {| repositories := repositories st; error := error st; loading := b |}).

Section fetchData.
Context `{JR : JSON (list Repository)} `{TS : Timestamps} `{ST : Storage}.
Variable net : Network.
(** The clock when the cache is examined and when it is rewritten. *)
Variables now now' : Z.

(** The part of the handler after the cache test. *)
Definition refresh : M AppState unit :=
  repos ← send (ReqOrgRepos ORGANIZATION_NAME) (fetchOrganizationRepos net ORGANIZATION_NAME);
  setRepositories repos;;
  setItem "repoData" (JSON_stringify repos);;
  setItem "lastFetchTime" (toString now').

Definition fetchData_body : M AppState unit :=
  setError None;;
  cachedData ← getItem "repoData";
  lastFetchTime ← getItem "lastFetchTime";
  match cachedData, lastFetchTime with
  | Some data, Some time =>
      if truthy data && truthy time then
        if timeSinceLastFetch_below now time CACHE_DURATION then
          repos ← await (JSON_parse data);
          setRepositories repos;;
          setLoading false
        else refresh
      else refresh
  | _, _ => refresh
  end.

(** The call of the handler: what it returns or throws, and the world it
    leaves. *)
Definition fetchData_call : M AppState unit :=
  finally
    (try_catch fetchData_body
       (λ err, setError (Some (message_or "Failed to fetch repositories" err))))
    (setLoading false).

Definition fetchData : World AppState → World AppState := run fetchData_call.

End fetchData.

End App.

Export App.

(** ** The admin view ([components/AdminDashboard.tsx]) *)

Module Admin.

Record User := { login : string }.

Record RepoRef := { ref_name : string; ref_html_url : string }.

(** A pull request as the provider lists it. *)
Record RawPullRequest := {
  raw_id : N;
  raw_number : N;
  raw_title : string;
  raw_user : User;
  raw_created_at : string;
  raw_pr_url : string;
  raw_state : string;
  raw_body : string
}.

Record PullRequest := {
  pr_id : N;
  pr_number : N;
  pr_title : string;
  pr_user : User;
  pr_created_at : string;
  pr_html_url : string;
  pr_state : string;
  pr_body : string;
  pr_repository : RepoRef
}.

Record AdminRepository := {
  ar_id : N;
  ar_name : string;
  ar_html_url : string
}.

(** The object kept in the slot [allPullRequestsData]; a field may be
    missing. *)
Record PrCache := {
  cache_pullRequests : option (list PullRequest);
  cache_repositories : option (list AdminRepository)
}.

(** The state of the component; [None] is [undefined], which a list read
    from a cached object without that field is. *)
Record AdminState := {
  pullRequests : option (list PullRequest);
  admin_repositories : option (list AdminRepository);
  admin_loading : bool;
  admin_error : option string;
  deletingPR : option N;
  selectedRepo : string
}.

Definition setPullRequests (prs : option (list PullRequest)) : M AdminState unit :=
  modify_ui (λ st,
    {| pullRequests := prs; admin_repositories := admin_repositories st;
       admin_loading := admin_loading st; admin_error := admin_error st;
       deletingPR := deletingPR st; selectedRepo := selectedRepo st |}).

Definition setAdminRepositories (repos : option (list AdminRepository)) : M AdminState unit :=
  modify_ui (λ st,
    {| pullRequests := pullRequests st; admin_repositories := repos;
       admin_loading := admin_loading st; admin_error := admin_error st;
       deletingPR := deletingPR st; selectedRepo := selectedRepo st |}).

Definition setAdminLoading (b : bool) : M AdminState unit :=
  modify_ui (λ st,
    {| pullRequests := pullRequests st; admin_repositories := admin_repositories st;
       admin_loading := b; admin_error := admin_error st;
       deletingPR := deletingPR st; selectedRepo := selectedRepo st |}).

Definition setAdminError (e : option string) : M AdminState unit :=
  modify_ui (λ st,
    {| pullRequests := pullRequests st; admin_repositories := admin_repositories st;
       admin_loading := admin_loading st; admin_error := e;
       deletingPR := deletingPR st; selectedRepo := selectedRepo st |}).

Definition setDeletingPR (n : option N) : M AdminState unit :=
  modify_ui (λ st,
    {| pullRequests := pullRequests st; admin_repositories := admin_repositories st;
       admin_loading := admin_loading st; admin_error := admin_error st;
       deletingPR := n; selectedRepo := selectedRepo st |}).

(** [import.meta.env]: [None] is an undefined variable. *)
Record Env := {
  VITE_GITHUB_ORG : option string;
  VITE_GITHUB_TOKEN : option string
}.

(** What [fetch] gives for the endpoints of the admin view. *)
Record AdminNetwork := {
  list_repos : outcome (Response (list AdminRepository));
  list_pulls : string → outcome (Response (list RawPullRequest));
  patch_pull : string → N → outcome (Response unit)
}.

Definition PR_CACHE_DURATION : Z := 5 * 60 * 1000.

(** [{ ...pr, repository: { name, html_url } }] *)
Definition attach_repository (repo : AdminRepository) (pr : RawPullRequest) : PullRequest :=
  {| pr_id := raw_id pr; pr_number := raw_number pr; pr_title := raw_title pr;
     pr_user := raw_user pr; pr_created_at := raw_created_at pr;
     pr_html_url := raw_pr_url pr; pr_state := raw_state pr; pr_body := raw_body pr;
     pr_repository := {| ref_name := ar_name repo; ref_html_url := ar_html_url repo |} |}.

(** [{ ...pr, state: 'closed' }] *)
Definition with_state_closed (pr : PullRequest) : PullRequest :=
  {| pr_id := pr_id pr; pr_number := pr_number pr; pr_title := pr_title pr;
     pr_user := pr_user pr; pr_created_at := pr_created_at pr;
     pr_html_url := pr_html_url pr; pr_state := "closed"; pr_body := pr_body pr;
     pr_repository := pr_repository pr |}.

Definition matches (prNumber : N) (repoName : string) (pr : PullRequest) : bool :=
  (pr_number pr =? prNumber)%N && bool_decide (ref_name (pr_repository pr) = repoName).

(** The local update of [deletePullRequest]. *)
Definition close_update (prNumber : N) (repoName : string) (prs : list PullRequest) : list PullRequest :=
  map (λ pr, if matches prNumber repoName pr then with_state_closed pr else pr) prs.

Section handlers.
Context `{JP : JSON PrCache} `{TS : Timestamps} `{ST : Storage}.
Variable env : Env.
Variable net : AdminNetwork.

Definition validateEnvironmentVariables : M AdminState unit :=
  if truthy_opt (VITE_GITHUB_ORG env) && truthy_opt (VITE_GITHUB_TOKEN env) then mret tt
  else throw (JsError "Missing required environment variables. Please check your .env file.").

Definition fetchRepositories : M AdminState (list AdminRepository) :=
  response ← send ReqAdminRepos (list_repos net);
  match response with
  | NotOk _ _ => throw (JsError "Failed to fetch repositories")
  | Ok body =>
      data ← await body;
      setAdminRepositories (Some data);;
      mret data
  end.

Definition fetchPullRequestsForRepo (repo : AdminRepository) : M AdminState (list PullRequest) :=
  response ← send (ReqPulls (ar_name repo)) (list_pulls net (ar_name repo));
  match response with
  | NotOk _ _ => mret []
  | Ok body =>
      prs ← await body;
      mret (map (attach_repository repo) prs)
  end.

(** [Promise.all(repos.map(fetchPullRequestsForRepo))]: every request is
    sent; the result is the list of the results, or the rejection of a
    request that failed (here the first one in the order of the list). *)
Fixpoint fetch_all_pulls (repos : list AdminRepository) : M AdminState (list (list PullRequest)) :=
  match repos with
  | [] => mret []
  | repo :: rest =>
      λ w, match fetchPullRequestsForRepo repo w with
           | (Returns prs, w') =>
               match fetch_all_pulls rest w' with
               | (Returns others, w'') => (Returns (prs :: others), w'')
               | (Throws e, w'') => (Throws e, w'')
               end
           | (Throws e, w') => (Throws e, (fetch_all_pulls rest w').2)
           end
  end.

Section fetchAllData.
Variables now now' : Z.

Definition refresh_all : M AdminState unit :=
  repos ← fetchRepositories;
  allPRs ← fetch_all_pulls repos;
  let flattenedPRs := concat allPRs in
  setPullRequests (Some flattenedPRs);;
  setItem "allPullRequestsData"
    (JSON_stringify {| cache_pullRequests := Some flattenedPRs;
                       cache_repositories := Some repos |});;
  setItem "prLastFetchTime" (toString now').

Definition fetchAllData_body : M AdminState unit :=
  setAdminError None;;
  validateEnvironmentVariables;;
  cachedData ← getItem "allPullRequestsData";
  lastFetchTime ← getItem "prLastFetchTime";
  match cachedData, lastFetchTime with
  | Some data, Some time =>
      if truthy data && truthy time then
        if timeSinceLastFetch_below now time PR_CACHE_DURATION then
          data ← await (JSON_parse data);
          setPullRequests (cache_pullRequests data);;
          setAdminRepositories (cache_repositories data);;
          setAdminLoading false
        else refresh_all
      else refresh_all
  | _, _ => refresh_all
  end.

Definition fetchAllData_call : M AdminState unit :=
  finally
    (try_catch fetchAllData_body
       (λ err, setAdminError (Some (message_or "Failed to fetch data" err))))
    (setAdminLoading false).

Definition fetchAllData : World AdminState → World AdminState := run fetchAllData_call.

End fetchAllData.

(** [JSON.parse(localStorage.getItem('allPullRequestsData') || '{}')] *)
Definition load_cached_object : M AdminState PrCache :=
  cached ← getItem "allPullRequestsData";
  match cached with
  | Some text =>
      if truthy text then await (JSON_parse text)
      else mret {| cache_pullRequests := None; cache_repositories := None |}
  | None => mret {| cache_pullRequests := None; cache_repositories := None |}
  end.

Definition deletePullRequest_body (prNumber : N) (repoName : string) : M AdminState unit :=
  setDeletingPR (Some prNumber);;
  response ← send (ReqClosePull repoName prNumber) (patch_pull net repoName prNumber);
  match response with
  | NotOk _ body =>
      errorData ← await body;
      throw (JsError (or_else (gh_message errorData) "Failed to delete pull request"))
  | Ok _ =>
      current ← read_ui pullRequests;
      match current with
      | None => throw (JsError "Cannot read properties of undefined (reading 'map')")
      | Some prs =>
          let updatedPRs := close_update prNumber repoName prs in
          setPullRequests (Some updatedPRs);;
          cachedData ← load_cached_object;
          setItem "allPullRequestsData"
            (JSON_stringify {| cache_pullRequests := Some updatedPRs;
                               cache_repositories := cache_repositories cachedData |});;
          show_toast "Pull request closed successfully"
      end
  end.

Definition deletePullRequest_call (prNumber : N) (repoName : string) : M AdminState unit :=
  finally
    (try_catch (deletePullRequest_body prNumber repoName)
       (λ err, setAdminError (Some (message_or "Failed to delete pull request" err))))
    (setDeletingPR None).

Definition deletePullRequest (prNumber : N) (repoName : string) : World AdminState → World AdminState :=
  run (deletePullRequest_call prNumber repoName).

End handlers.

End Admin.

Export Admin.

(** ** What the views compute from their state *)

(** [String.prototype.toLowerCase], a parameter of the development. *)
Class CaseFolding := {
  toLowerCase : string → string
}.

Module Views.

(** [s.includes(q)]: the text [q] occurs in [s]. *)
Fixpoint includes (s q : string) : bool :=
  String.prefix q s ||
  match s with
  | EmptyString => false
  | String _ s' => includes s' q
  end.

(** [App.tsx], [filteredRepos]:
    [repositories.filter(repo => repo.name.toLowerCase().includes(searchQuery.toLowerCase()))] *)
Definition filteredRepos `{CF : CaseFolding} (searchQuery : string) (repos : list Repository) : list Repository :=
  List.filter (λ repo, includes (toLowerCase (repo_name repo)) (toLowerCase searchQuery)) repos.

(** [parts.join(sep)] *)
Fixpoint Array_join (sep : string) (parts : list string) : string :=
  match parts with
  | [] => EmptyString
  | [p] => p
  | p :: ps => p +:+ sep +:+ Array_join sep ps
  end.

(** [App.tsx], the summary line:
    [languageStats.slice(0, 2).map(l => l.name).join(', ')] *)
Definition mostUsed (stats : list LanguageStats) : string :=
  Array_join ", " (map name (take 2 stats)).

(** [AdminDashboard.tsx], [filteredPRs]:
    [selectedRepo === 'all' ? pullRequests
       : pullRequests.filter(pr => pr.repository.name === selectedRepo)] *)
Definition filteredPRs (selected : string) (prs : list PullRequest) : list PullRequest :=
  if decide (selected = "all") then prs
  else List.filter (λ pr, bool_decide (ref_name (pr_repository pr) = selected)) prs.

(** The button that closes a pull request is rendered for
    [pr.state === 'open']. *)
Definition close_offered (pr : PullRequest) : bool := bool_decide (pr_state pr = "open").


End Views.

Export Views.

(** ** The admin login ([components/AdminLogin.tsx]) *)

Module Login.

Record LoginForm := {
  isOpen : bool;
  username : string;
  password : string;
  login_error : string
}.

(** The state of the component together with the flag [isAdmin] of [App],
    which the callback [onLogin] sets. *)
Record Session := {
  isAdmin : bool;
  form : LoginForm
}.

Definition initial_session : Session :=
  {| isAdmin := false;
     form := {| isOpen := false; username := EmptyString; password := EmptyString;
                login_error := EmptyString |} |}.

Definition handleLogin (s : Session) : Session :=
  if bool_decide (username (form s) = "RDMadmin")
     && bool_decide (password (form s) = "Admin@12345")
  then {| isAdmin := true;
          form := {| isOpen := false; username := username (form s);
                     password := password (form s); login_error := EmptyString |} |}
  else {| isAdmin := isAdmin s;
          form := {| isOpen := isOpen (form s); username := username (form s);
                     password := password (form s);
                     login_error := "Invalid credentials" |} |}.

(** What a user can do with the component. *)
Inductive action :=
| ClickOpen
| ClickClose
| TypeUsername (text : string)
| TypePassword (text : string)
| ClickLogin.

(** The dialog, with its fields and its two buttons, is rendered only while
    [isOpen] holds. *)
Definition enabled (s : Session) (a : action) : bool :=
  match a with
  | ClickOpen => true
  | _ => isOpen (form s)
  end.

Definition set_form (s : Session) (f : LoginForm) : Session :=
  {| isAdmin := isAdmin s; form := f |}.

Definition act (s : Session) (a : action) : Session :=
  if enabled s a then
    match a with
    | ClickOpen =>
        set_form s {| isOpen := true; username := username (form s);
                      password := password (form s); login_error := login_error (form s) |}
    | ClickClose =>
        set_form s {| isOpen := false; username := username (form s);
                      password := password (form s); login_error := login_error (form s) |}
    | TypeUsername text =>
        set_form s {| isOpen := isOpen (form s); username := text;
                      password := password (form s); login_error := login_error (form s) |}
    | TypePassword text =>
        set_form s {| isOpen := isOpen (form s); username := username (form s);
                      password := text; login_error := login_error (form s) |}
    | ClickLogin => handleLogin s
    end
  else s.

Definition session_after (actions : list action) : Session :=
  fold_left act actions initial_session.

End Login.

Export Login.

(** ** Vocabulary of the statements *)

(** The test that guards the cached branch of a handler: both slots hold a
    non-empty text and the age of the entry is below [ttl]. *)
Definition cache_usable `{TS : Timestamps} {S} (payload_key time_key : string) (ttl now : Z)
    (w : World S) : bool :=
  match localStorage w !! payload_key, localStorage w !! time_key with
  | Some data, Some time => truthy data && truthy time && timeSinceLastFetch_below now time ttl
  | _, _ => false
  end.

(** A request that did not deliver its payload: [fetch] rejected, the
    response was not ok, or its body could not be read. *)
Definition failed {A} (r : outcome (Response A)) : Prop :=
  match r with
  | Returns (Ok (Returns _)) => False
  | _ => True
  end.

(** What the listing of the pull requests of one repository amounts to, and
    of all of them, as values. *)
Definition pulls_of (net : AdminNetwork) (repo : AdminRepository) : outcome (list PullRequest) :=
  match list_pulls net (ar_name repo) with
  | Throws e => Throws e
  | Returns (NotOk _ _) => Returns []
  | Returns (Ok (Throws e)) => Throws e
  | Returns (Ok (Returns prs)) => Returns (map (attach_repository repo) prs)
  end.

Fixpoint all_pulls (net : AdminNetwork) (repos : list AdminRepository) : outcome (list (list PullRequest)) :=
  match repos with
  | [] => Returns []
  | repo :: rest =>
      match pulls_of net repo, all_pulls net rest with
      | Returns prs, Returns others => Returns (prs :: others)
      | Returns _, Throws e => Throws e
      | Throws e, _ => Throws e
      end
  end.

(** The listing of the pull requests of a repository is rejected: [fetch]
    rejects or the body of an ok response cannot be read. *)
Definition rejected {A} (r : outcome (Response A)) : Prop :=
  match r with
  | Throws _ => True
  | Returns (Ok (Throws _)) => True
  | _ => False
  end.

Definition env_valid (env : Env) : bool :=
  truthy_opt (VITE_GITHUB_ORG env) && truthy_opt (VITE_GITHUB_TOKEN env).

(** The byte count a language map records for [lang], the byte count of
    [lang] over all repositories, and the byte count of all languages. *)
Definition bytes_of (lang : string) (entries : list (string * N)) : N :=
  foldr (λ entry acc, if decide (entry.1 = lang) then (entry.2 + acc)%N else acc) 0%N entries.

Definition language_total (lang : string) (repos : list Repository) : N :=
  foldr (λ repo acc, (bytes_of lang (languages repo) + acc)%N) 0%N repos.

Definition sumN (l : list N) : N := foldr N.add 0%N l.

Definition all_bytes (repos : list Repository) : N :=
  foldr (λ repo acc, (sumN (languages repo).*2 + acc)%N) 0%N repos.

(** The colours [languageStats] knows, as a table. *)
Definition stats_colors : jsobj string :=
  [ ("TypeScript", "#3178c6"); ("JavaScript", "#f7df1e"); ("Python", "#3776ab");
    ("Java", "#b07219"); ("Ruby", "#701516"); ("Go", "#00ADD8") ].

(** The value [m * 2^e] of a mantissa and an exponent, and the position of a
    real [x] in the interval from [m * u] to [(m + 1) * u] that a rounding
    location describes. *)
Definition bpow (e : Z) : R := powerRZ 2 e.

Definition F2R (m e : Z) : R := (IZR m * bpow e)%R.

Definition inb (x u : R) (m : Z) (l : location) : Prop :=
  match l with
  | loc_Exact => x = (IZR m * u)%R
  | loc_Inexact Lt => (IZR m * u < x < (IZR m + / 2) * u)%R
  | loc_Inexact Eq => x = ((IZR m + / 2) * u)%R
  | loc_Inexact Gt => ((IZR m + / 2) * u < x < (IZR m + 1) * u)%R
  end.

(** The exact share [100 s / T] of a byte count in a total, as a real. *)
Definition exact_share (s T : N) : R := (100 * IZR (Z.of_N s) / IZR (Z.of_N T))%R.

Definition sumR (l : list R) : R := foldr Rplus 0%R l.

Definition sumZ (l : list Z) : Z := foldr Z.add 0 l.

(** The share lies exactly halfway between two integers. *)
Definition is_tie (s T : N) : Prop :=
  2 * ((100 * Z.of_N s) `mod` Z.of_N T) = Z.of_N T.

(** The integer nearest to [100 s / T] in exact arithmetic, a tie being
    resolved upwards, downwards, to the even or to the odd neighbour. *)
Inductive tie_rule := TieUp | TieDown | TieEven | TieOdd.

Definition round_exact (tie : tie_rule) (s T : N) : Z :=
  let q := (100 * Z.of_N s) `div` Z.of_N T in
  let r := (100 * Z.of_N s) `mod` Z.of_N T in
  match 2 * r ?= Z.of_N T with
  | Lt => q
  | Gt => q + 1
  | Eq =>
      match tie with
      | TieUp => q + 1
      | TieDown => q
      | TieEven => if Z.even q then q else q + 1
      | TieOdd => if Z.odd q then q else q + 1
      end
  end.

(** The outcome of two successive writes to a store, and the store they
    leave: a refused write leaves the store as it found it and ends the
    sequence. *)
Definition write2 `{ST : Storage} (key1 value1 key2 value2 : string)
    (store : gmap string string) : outcome unit * gmap string string :=
  match refusal store key1 value1 with
  | Some e => (Throws e, store)
  | None =>
      match refusal (<[key1 := value1]> store) key2 value2 with
      | Some e => (Throws e, <[key1 := value1]> store)
      | None => (Returns tt, <[key2 := value2]> (<[key1 := value1]> store))
      end
  end.

(** The message a handler shows for the outcome of its last steps. *)
Definition failure_message (fallback : string) (o : outcome unit) : option string :=
  match o with
  | Returns _ => None
  | Throws e => Some (message_or fallback e)
  end.

(** The world after a refresh that asks the provider. *)
Definition after_refresh `{JP : JSON PrCache} `{TS : Timestamps} `{ST : Storage}
    (net : AdminNetwork) (now' : Z) (w : World AdminState) : World AdminState :=
  let asked := requests w ++ [ReqAdminRepos] in
  let report e repos rs :=
    mkWorld {| pullRequests := pullRequests (ui w); admin_repositories := repos;
               admin_loading := false;
               admin_error := Some (message_or "Failed to fetch data" e);
               deletingPR := deletingPR (ui w); selectedRepo := selectedRepo (ui w) |}
            (localStorage w) rs (toasts w) in
  match list_repos net with
  | Throws e => report e (admin_repositories (ui w)) asked
  | Returns (NotOk _ _) =>
      report (JsError "Failed to fetch repositories") (admin_repositories (ui w)) asked
  | Returns (Ok (Throws e)) => report e (admin_repositories (ui w)) asked
  | Returns (Ok (Returns repos)) =>
      let asked' := asked ++ map (λ repo, ReqPulls (ar_name repo)) repos in
      match all_pulls net repos with
      | Throws e => report e (Some repos) asked'
      | Returns allPRs =>
          let written :=
            write2 "allPullRequestsData"
              (JSON_stringify {| cache_pullRequests := Some (concat allPRs);
                                 cache_repositories := Some repos |})
              "prLastFetchTime" (toString now') (localStorage w) in
          mkWorld {| pullRequests := Some (concat allPRs); admin_repositories := Some repos;
                     admin_loading := false;
                     admin_error := failure_message "Failed to fetch data" written.1;
                     deletingPR := deletingPR (ui w); selectedRepo := selectedRepo (ui w) |}
                  written.2 asked' (toasts w)
      end
  end.

(** The state of the admin view after a call of [deletePullRequest] that
    reached the local update, with the error message [err]. *)
Definition updated (n : N) (r : string) (prs : list PullRequest) (err : option string)
    (st : AdminState) : AdminState :=
  {| pullRequests := Some (close_update n r prs);
     admin_repositories := admin_repositories st;
     admin_loading := admin_loading st;
     admin_error := err;
     deletingPR := None;
     selectedRepo := selectedRepo st |}.

(** The accumulation in exact arithmetic, over names that are own
    properties only: what [accumulate] computes as long as no name is a
    member of [Object.prototype] and every sum is below [2^53]. *)
Definition tally_language (stats : jsobj N) (entry : string * N) : jsobj N :=
  let '(lang, v) := entry in
  obj_set lang (default 0%N (obj_get lang stats) + v)%N stats.

Definition tally_repo (stats : jsobj N) (repo : Repository) : jsobj N :=
  fold_left tally_language (languages repo) stats.

Definition tally (repos : list Repository) : jsobj N :=
  fold_left tally_repo repos [].

(** [Math.round((v / T) * 100)] for two byte counts. *)
Definition rounded_share (v T : N) : number :=
  Math_round (mul (div (N2SF v) (N2SF T)) (Z2SF 100)).

(** An accumulator whose properties hold the binary64 values of the byte
    counts of [o]. *)
Definition as_numbers (o : jsobj N) : jsobj slot :=
  map (λ '(k, v), (k, Num (N2SF v))) o.

(** The byte count an accumulator holds for a language, [0] when it holds
    none. *)
Definition amount (lang : string) (stats : jsobj N) : N := default 0%N (obj_get lang stats).

(** The fields of a pull request other than its state. *)
Definition same_but_state (old new : PullRequest) : Prop :=
  pr_id new = pr_id old ∧ pr_number new = pr_number old
  ∧ pr_title new = pr_title old ∧ pr_user new = pr_user old
  ∧ pr_created_at new = pr_created_at old ∧ pr_html_url new = pr_html_url old
  ∧ pr_body new = pr_body old ∧ pr_repository new = pr_repository old.

(** *** Vocabulary of the further properties *)

(** The number of newline characters of a text. *)
Fixpoint count_newlines (s : string) : nat :=
  match s with
  | EmptyString => 0%nat
  | String c s' => ((if decide (c = newline) then 1 else 0) + count_newlines s')%nat
  end.

(** The message [fetchOrganizationRepos] throws for a response that is not
    ok, by status. *)
Definition not_found_message (org : string) : string :=
  "Organization " +:+ dquote +:+ org +:+ dquote +:+ " not found".

(** The distinct elements of a list, each at the place of its first
    occurrence. *)
Definition first_occurrences (keys : list string) : list string :=
  fold_left (λ seen k, if decide (k ∈ seen) then seen else seen ++ [k]) keys [].

(** The language names of the repositories, in the order in which the
    aggregation meets them. *)
Definition language_names (repos : list Repository) : list string :=
  concat (map (λ repo, Object_keys (languages repo)) repos).

(** No language of the repositories is named like a member of
    [Object.prototype]. *)
Definition own_names (repos : list Repository) : Prop :=
  Forall (λ lang, inherited lang = false) (language_names repos).

(** The entry of the aggregation for a language, in exact terms. *)
Definition stats_entry (repos : list Repository) (lang : string) : LanguageStats :=
  {| name := lang;
     value := rounded_share (language_total lang repos) (all_bytes repos);
     color := color_of lang |}.

(** The text [q] occurs in the text [s]. *)
Definition occurs_in (q s : string) : Prop := ∃ a b, s = a +:+ q +:+ b.

(** Every displayed pull request belongs to a repository that the selector
    of the admin view offers. *)
Definition selector_complete (st : AdminState) : Prop :=
  ∀ prs pr,
    pullRequests st = Some prs → pr ∈ prs →
    ∃ repos repo,
      admin_repositories st = Some repos ∧ repo ∈ repos
      ∧ pr_repository pr = {| ref_name := ar_name repo; ref_html_url := ar_html_url repo |}.

(** The pull requests the provider lists for a repository, each with that
    repository attached; none when the listing is not delivered. *)
Definition listed_pulls (net : AdminNetwork) (repo : AdminRepository) : list PullRequest :=
  match list_pulls net (ar_name repo) with
  | Returns (Ok (Returns raws)) =>
      map (λ raw, {| pr_id := raw_id raw; pr_number := raw_number raw;
                     pr_title := raw_title raw; pr_user := raw_user raw;
                     pr_created_at := raw_created_at raw; pr_html_url := raw_pr_url raw;
                     pr_state := raw_state raw; pr_body := raw_body raw;
                     pr_repository := {| ref_name := ar_name repo;
                                         ref_html_url := ar_html_url repo |} |}) raws
  | _ => []
  end.

(** A slot of the store holds no usable text. *)
Definition slot_empty {S} (key : string) (w : World S) : Prop :=
  localStorage w !! key = None ∨ localStorage w !! key = Some EmptyString.

(** ** Sample data *)

Module Samples.

(** A browser that accepts every write, and one that refuses every
    write. *)
Definition roomy_storage : Storage := {| refusal _ _ _ := None |}.

Definition full_storage : Storage :=
  {| refusal _ _ _ := Some (JsError "The quota has been exceeded.") |}.

Definition mkRepo (n : string) (langs : jsobj N) : Repository :=
  {| repo_name := n; repo_url := EmptyString; readmeUrl := EmptyString;
     description := EmptyString;
     languages := langs; lastCommit := None; readmeContent := None |}.

(** A reader of the texts listed in [table] that rejects every other text,
    with the writer [render]: enough of [JSON] to run the handlers on the
    sample worlds below. *)
Definition JSON_of_table {A} (table : list (string * A)) (render : A → string) : JSON A :=
  {| JSON_parse s :=
       match obj_get s table with
       | Some a => Returns a
       | None => Throws (JsError "Unexpected token in JSON")
       end;
     JSON_stringify := render |}.

(** Timestamps written in decimal. *)
Definition decimal_timestamps : Timestamps :=
  {| Number_ s := Z.of_int <$> NilEmpty.int_of_string s;
     toString n := NilEmpty.string_of_int (Z.to_int n) |}.

Definition web_ref : RepoRef := {| ref_name := "web"; ref_html_url := "https://example.org/web" |}.

Definition pr7 : PullRequest :=
  {| pr_id := 1007; pr_number := 7; pr_title := "Fix header";
     pr_user := {| login := "ada" |}; pr_created_at := "2024-01-01T00:00:00Z";
     pr_html_url := "https://example.org/web/pull/7"; pr_state := "open";
     pr_body := "text"; pr_repository := web_ref |}.

Definition pr8 : PullRequest :=
  {| pr_id := 1008; pr_number := 8; pr_title := "Add footer";
     pr_user := {| login := "bob" |}; pr_created_at := "2024-01-02T00:00:00Z";
     pr_html_url := "https://example.org/web/pull/8"; pr_state := "open";
     pr_body := "text"; pr_repository := web_ref |}.

Definition web_repo : AdminRepository :=
  {| ar_id := 1; ar_name := "web"; ar_html_url := "https://example.org/web" |}.

Definition admin_state0 : AdminState :=
  {| pullRequests := Some [pr7; pr8]; admin_repositories := Some [web_repo];
     admin_loading := false; admin_error := None; deletingPR := None;
     selectedRepo := "all" |}.

Definition admin_world0 : World AdminState := mkWorld admin_state0 ∅ [] [].

Definition closed_cache : PrCache :=
  {| cache_pullRequests := Some (close_update 7 "web" [pr7; pr8]);
     cache_repositories := None |}.

Definition admin_json : JSON PrCache :=
  JSON_of_table [("<cache>", closed_cache)]
    (λ d, match cache_pullRequests d with
          | Some [] => "<none>"
          | _ => "<cache>"
          end).

(** A provider that closes every pull request it is asked to close. *)
Definition closing_net : AdminNetwork :=
  {| list_repos := Returns (Ok (Returns [web_repo]));
     list_pulls := λ _, Returns (Ok (Returns []));
     patch_pull := λ _ _, Returns (Ok (Returns tt)) |}.

Definition repos_json : JSON (list Repository) :=
  JSON_of_table [("[]", [])]
    (λ repos, match repos with
              | [] => "[]"
              | _ => "[...]"
              end).

Definition app_state0 : AppState :=
  {| repositories := [mkRepo "old" [("Go", 10%N)]]; error := None; loading := true |}.

(** A store whose entry was captured at 1000000 ms. *)
Definition app_world0 : World AppState :=
  mkWorld app_state0 (<["lastFetchTime" := "1000000"]> (<["repoData" := "[]"]> ∅)) [] [].

(** The same store with a payload that is not JSON. *)
Definition app_world_corrupt : World AppState :=
  mkWorld app_state0 (<["lastFetchTime" := "1000000"]> (<["repoData" := "{oops"]> ∅)) [] [].

(** A provider that is unreachable. *)
Definition unreachable_net : Network :=
  {| get_org_repos := λ _, Throws (JsError "Failed to fetch");
     get_languages := λ _, Throws (JsError "Failed to fetch");
     get_commits := λ _, Throws (JsError "Failed to fetch");
     get_readme := λ _, Throws (JsError "Failed to fetch") |}.

Definition valid_env : Env :=
  {| VITE_GITHUB_ORG := Some "G2HackFest"; VITE_GITHUB_TOKEN := Some "token" |}.

Definition web_raw : RawRepo :=
  {| raw_name := "web"; raw_full_name := "G2HackFest/web";
     raw_html_url := "https://example.org/web"; raw_description := None |}.

(** A provider that lists one repository, whose languages it refuses, whose
    commits it cannot be asked for and whose README has five lines. *)
Definition degraded_net : Network :=
  {| get_org_repos := λ _, Returns (Ok (Returns [web_raw]));
     get_languages := λ _, Returns (NotOk 500 (Returns {| gh_message := None |}));
     get_commits := λ _, Throws (JsError "Failed to fetch");
     get_readme := λ _,
       Returns (Ok (Returns
         ("one" +:+ String newline ("two" +:+ String newline ("three" +:+ String newline
           ("four" +:+ String newline "five")))))) |}.

(** The store of [app_world0] without its payload. *)
Definition app_world_miss : World AppState :=
  mkWorld app_state0 (<["lastFetchTime" := "1000000"]> ∅) [] [].

(** A provider that lists the repository [web] and refuses to list its pull
    requests. *)
Definition refusing_net : AdminNetwork :=
  {| list_repos := Returns (Ok (Returns [web_repo]));
     list_pulls := λ _, Returns (NotOk 500 (Returns {| gh_message := Some "Server Error" |}));
     patch_pull := λ _ _, Returns (Ok (Returns tt)) |}.

(** An admin view that shows two pull requests, over a store captured at
    1000000 ms. *)
Definition admin_world_stored : World AdminState :=
  mkWorld admin_state0
    (<["prLastFetchTime" := "1000000"]> (<["allPullRequestsData" := "<cache>"]> ∅)) [] [].

(** One repository whose three languages have the shares 14.5, 0.5 and 85. *)
Definition tie_repos : list Repository :=
  [mkRepo "r" [("A", 29%N); ("B", 1%N); ("C", 170%N)]].

(** One repository of 65630404565627 bytes, 53488779720986 of them in the
    language [A]. *)
Definition huge_repos : list Repository :=
  [mkRepo "r" [("A", 53488779720986%N); ("B", 12141624844641%N)]].

(** Three languages of one byte each. *)
Definition thirds_repos : list Repository :=
  [mkRepo "r" [("A", 1%N); ("B", 1%N); ("C", 1%N)]].

(** A provider that does not know the organisation. *)
Definition missing_org_net : Network :=
  {| get_org_repos := λ _, Returns (NotOk 404 (Returns {| gh_message := Some "Not Found" |}));
     get_languages := λ _, Throws (JsError "Failed to fetch");
     get_commits := λ _, Throws (JsError "Failed to fetch");
     get_readme := λ _, Throws (JsError "Failed to fetch") |}.

(** Two repositories that share a language; the largest language, [C], is
    met last. *)
Definition mixed_repos : list Repository :=
  [mkRepo "a" [("Go", 1%N); ("Rust", 5%N)]; mkRepo "b" [("Rust", 1%N); ("C", 100%N)]].

(** The case folding of the letters [A] to [Z]. *)
Definition lower_ascii (c : ascii) : ascii :=
  let n := N_of_ascii c in
  if ((65 <=? n) && (n <=? 90))%N then ascii_of_N (n + 32) else c.

Fixpoint lower_string (s : string) : string :=
  match s with
  | EmptyString => EmptyString
  | String c s' => String (lower_ascii c) (lower_string s')
  end.

Definition ascii_folding : CaseFolding := {| toLowerCase := lower_string |}.

(** A provider that refuses to close pull requests. *)
Definition forbidding_net : AdminNetwork :=
  {| list_repos := Returns (Ok (Returns [web_repo]));
     list_pulls := λ _, Returns (Ok (Returns []));
     patch_pull := λ _ _, Returns (NotOk 403 (Returns {| gh_message := Some "Forbidden" |})) |}.

(** An environment without a token. *)
Definition tokenless_env : Env :=
  {| VITE_GITHUB_ORG := Some "G2HackFest"; VITE_GITHUB_TOKEN := None |}.

(** A provider without repositories. *)
Definition empty_net : Network :=
  {| get_org_repos := λ _, Returns (Ok (Returns []));
     get_languages := λ _, Throws (JsError "Failed to fetch");
     get_commits := λ _, Throws (JsError "Failed to fetch");
     get_readme := λ _, Throws (JsError "Failed to fetch") |}.

(** A pull request of [web] as the provider lists it, and a provider that
    lists it. *)
Definition raw9 : RawPullRequest :=
  {| raw_id := 1009; raw_number := 9; raw_title := "Update README";
     raw_user := {| login := "eve" |}; raw_created_at := "2024-01-03T00:00:00Z";
     raw_pr_url := "https://example.org/web/pull/9"; raw_state := "open";
     raw_body := "text" |}.

Definition listing_net : AdminNetwork :=
  {| list_repos := Returns (Ok (Returns [web_repo]));
     list_pulls := λ _, Returns (Ok (Returns [raw9]));
     patch_pull := λ _ _, Returns (Ok (Returns tt)) |}.

(** An admin view over an empty store. *)
Definition admin_world_empty : World AdminState := mkWorld admin_state0 ∅ [] [].

End Samples.

Export Samples.

(** * Properties *)

(** ** The embedding at work *)

(** Keys are enumerated as the language does: array indices in ascending
    order, then the other keys in the order of their creation. *)
Example enumeration_order :
  Object_keys (obj_set "1" 4%N (obj_set "b" 3%N (obj_set "10" 2%N (obj_set "2" 1%N
                 (obj_set "a" 0%N [])))))
  = ["1"; "2"; "10"; "a"; "b"].
Proof. reflexivity. Qed.

(** Two repositories with 100 bytes each of [A] and of [B] give [A: 50] and
    [B: 50]; one repository with 50 bytes of each gives the same. *)
Example two_halves :
  let expected := [ {| name := "A"; value := Z2SF 50; color := "#6e7681" |};
                    {| name := "B"; value := Z2SF 50; color := "#6e7681" |} ] in
  languageStats [mkRepo "a" [("A", 100%N)]; mkRepo "b" [("B", 100%N)]] = expected
  ∧ languageStats [mkRepo "a" [("A", 50%N); ("B", 50%N)]] = expected.
Proof. split; reflexivity. Qed.

(** The byte counts of a language are added over the repositories. *)
Example shared_language :
  languageStats [mkRepo "a" [("Go", 30%N); ("C", 10%N)]; mkRepo "b" [("Go", 60%N)]]
  = [ {| name := "Go"; value := Z2SF 90; color := "#00ADD8" |};
      {| name := "C"; value := Z2SF 10; color := "#6e7681" |} ].
Proof. reflexivity. Qed.

(** A language named like a function of [Object.prototype] turns its sum
    and the total into strings, so that every percentage is NaN; a language
    named [__proto__] is not listed, and its bytes are not counted. *)
Example prototype_names :
  languageStats [mkRepo "a" [("constructor", 5%N); ("Go", 5%N)]]
  = [ {| name := "constructor"; value := S754_nan; color := "#6e7681" |};
      {| name := "Go"; value := S754_nan; color := "#00ADD8" |} ]
  ∧ languageStats [mkRepo "a" [("__proto__", 5%N); ("Go", 5%N)]]
    = [ {| name := "Go"; value := Z2SF 100; color := "#00ADD8" |} ]
  ∧ color <$> languageData [("constructor", 5%N); ("Go", 5%N)]
    = [NotAColour "constructor"; Colour "#00ADD8"].
Proof. repeat split; reflexivity. Qed.

(** The excerpt of a README is its first four lines. *)
Example readme_excerpt :
  fetchReadmeContent degraded_net "G2HackFest/web"
  = Some ("one" +:+ String newline ("two" +:+ String newline ("three" +:+ String newline "four"))).
Proof. reflexivity. Qed.

(** A first load with an empty store asks the provider, shows its answer and
    fills both slots. *)
Example first_load :
  let w := fetchData (JR := repos_json) (TS := decimal_timestamps) (ST := roomy_storage)
             degraded_net 1000 1250
             (mkWorld {| repositories := []; error := None; loading := true |} ∅ [] []) in
  repo_name <$> repositories (ui w) = ["web"]
  ∧ error (ui w) = None ∧ loading (ui w) = false
  ∧ requests w = [ReqOrgRepos "G2HackFest"]
  ∧ localStorage w !! "repoData" = Some "[...]"
  ∧ localStorage w !! "lastFetchTime" = Some "1250".
Proof. repeat split; reflexivity. Qed.

(** The same load in a browser that refuses the writes shows the answer of
    the provider together with an error, and stores nothing. *)
Example first_load_refused :
  let w := fetchData (JR := repos_json) (TS := decimal_timestamps) (ST := full_storage)
             degraded_net 1000 1250
             (mkWorld {| repositories := []; error := None; loading := true |} ∅ [] []) in
  repo_name <$> repositories (ui w) = ["web"]
  ∧ error (ui w) = Some "The quota has been exceeded."
  ∧ loading (ui w) = false
  ∧ localStorage w = ∅.
Proof. repeat split; reflexivity. Qed.

(** ** Objects as dictionaries *)

Section jsobj_facts.
Context {V : Type}.
Implicit Types (o : jsobj V) (k : string) (v : V).

Lemma obj_get_None k o : obj_get k o = None ↔ k ∉ o.*1.
Proof.
  induction o as [|[k' v'] o IH]; simpl.
  - split; [intros _; apply not_elem_of_nil|reflexivity].
  - rewrite not_elem_of_cons. destruct (decide (k = k')) as [->|Hne].
    + split; [discriminate|intros [Hc _]; congruence].
    + rewrite IH. tauto.
Qed.

Lemma obj_get_update k k' v o :
  obj_get k (obj_update k' v o) =
    if decide (k = k') then (λ _, v) <$> obj_get k' o else obj_get k o.
Proof.
  induction o as [|[k1 v1] o IH]; simpl.
  - destruct (decide (k = k')); reflexivity.
  - destruct (decide (k' = k1)) as [->|Hne]; simpl.
    + destruct (decide (k = k1)) as [->|Hne']; reflexivity.
    + destruct (decide (k = k1)) as [->|Hne'].
      * destruct (decide (k1 = k')); [congruence|reflexivity].
      * exact IH.
Qed.

Lemma obj_get_create k k' v o :
  obj_get k' o = None →
  obj_get k (obj_create k' v o) = if decide (k = k') then Some v else obj_get k o.
Proof.
  induction o as [|[k1 v1] o IH]; simpl; intros Hn.
  - destruct (decide (k = k')); reflexivity.
  - destruct (decide (k' = k1)) as [->|Hne]; [discriminate|].
    destruct (stays_before k' k1); simpl.
    + destruct (decide (k = k1)) as [->|Hne'].
      * destruct (decide (k1 = k')); [congruence|reflexivity].
      * apply IH, Hn.
    + destruct (decide (k = k')) as [->|Hne']; reflexivity.
Qed.

Lemma obj_get_set k k' v o :
  obj_get k (obj_set k' v o) = if decide (k = k') then Some v else obj_get k o.
Proof.
  unfold obj_set. destruct (obj_get k' o) as [x|] eqn:E.
  - rewrite obj_get_update, E. reflexivity.
  - apply obj_get_create, E.
Qed.

Lemma keys_update k v o : (obj_update k v o).*1 = o.*1.
Proof.
  induction o as [|[k1 v1] o IH]; simpl; [reflexivity|].
  destruct (decide (k = k1)); simpl; [reflexivity|]. f_equal. exact IH.
Qed.

Lemma keys_create k v o : (obj_create k v o).*1 ≡ₚ k :: o.*1.
Proof.
  induction o as [|[k1 v1] o IH]; simpl; [reflexivity|].
  destruct (stays_before k k1); simpl; [|reflexivity].
  rewrite IH. apply Permutation_swap.
Qed.

Lemma keys_set k v o :
  (obj_set k v o).*1 ≡ₚ if decide (k ∈ o.*1) then o.*1 else k :: o.*1.
Proof.
  unfold obj_set. destruct (obj_get k o) as [x|] eqn:E.
  - rewrite keys_update. destruct (decide (k ∈ o.*1)) as [|Hn]; [reflexivity|].
    apply obj_get_None in Hn. congruence.
  - rewrite keys_create. apply obj_get_None in E.
    destruct (decide (k ∈ o.*1)); [contradiction|reflexivity].
Qed.

Lemma elem_of_keys_set k k' v o : k ∈ (obj_set k' v o).*1 ↔ k = k' ∨ k ∈ o.*1.
Proof.
  rewrite keys_set. destruct (decide (k' ∈ o.*1)) as [Hin|Hn].
  - split; [tauto|]. intros [->|?]; assumption.
  - apply elem_of_cons.
Qed.

Lemma NoDup_keys_set k v o : NoDup o.*1 → NoDup (obj_set k v o).*1.
Proof.
  intros Hnd. rewrite keys_set. destruct (decide (k ∈ o.*1)); [assumption|].
  apply NoDup_cons. split; assumption.
Qed.

End jsobj_facts.

Section jsobj_N_facts.
Implicit Types (o : jsobj N) (k : string).

Lemma obj_get_elem_of {V} k (v : V) (o : jsobj V) :
  NoDup o.*1 → (k, v) ∈ o → obj_get k o = Some v.
Proof.
  induction o as [|[k1 v1] o IH]; simpl; intros Hnd Hin; [inversion Hin|].
  apply NoDup_cons in Hnd as [Hk1 Hnd].
  apply elem_of_cons in Hin as [E|Hin].
  - inversion E; subst. destruct (decide (k1 = k1)); [reflexivity|congruence].
  - destruct (decide (k = k1)) as [->|Hne]; [|apply IH; assumption].
    exfalso. apply Hk1. apply list_elem_of_fmap. exists (k1, v). split; [reflexivity|exact Hin].
Qed.

Lemma sumN_update k x y o :
  obj_get k o = Some x → (sumN (obj_update k y o).*2 + x = sumN o.*2 + y)%N.
Proof.
  unfold sumN. induction o as [|[k1 v1] o IH]; simpl; [discriminate|].
  destruct (decide (k = k1)) as [->|Hne]; simpl.
  - intros [= ->]. lia.
  - intros Hg. specialize (IH Hg). unfold fmap in IH. lia.
Qed.

Lemma sumN_create k y o : sumN (obj_create k y o).*2 = (sumN o.*2 + y)%N.
Proof.
  unfold sumN. induction o as [|[k1 v1] o IH]; simpl; [lia|].
  destruct (stays_before k k1); simpl; [|lia].
  unfold fmap in IH. rewrite IH. lia.
Qed.

Lemma fold_left_sumN (l : list N) (a : N) : fold_left N.add l a = (a + sumN l)%N.
Proof.
  unfold sumN. revert a. induction l as [|x l IH]; intros a; simpl; [lia|].
  rewrite IH. lia.
Qed.

End jsobj_N_facts.

(** ** The accumulation of the byte counts *)

Section tally_facts.
Implicit Types (stats : jsobj N) (lang : string) (repos : list Repository).

Lemma amount_tally_language lang stats entry :
  amount lang (tally_language stats entry)
  = (amount lang stats + if decide (entry.1 = lang) then entry.2 else 0)%N.
Proof.
  destruct entry as [k v]. unfold amount, tally_language. simpl.
  rewrite obj_get_set.
  destruct (decide (lang = k)) as [->|Hne].
  - destruct (decide (k = k)); [reflexivity|congruence].
  - destruct (decide (k = lang)); [congruence|]. lia.
Qed.

Lemma sumN_tally_language stats entry :
  sumN (tally_language stats entry).*2 = (sumN stats.*2 + entry.2)%N.
Proof.
  destruct entry as [k v]. unfold tally_language, obj_set. simpl.
  destruct (obj_get k stats) as [x|] eqn:E; simpl.
  - pose proof (sumN_update k x (x + v) stats E). lia.
  - apply sumN_create.
Qed.

Lemma keys_tally_language lang stats entry :
  lang ∈ (tally_language stats entry).*1 ↔ lang = entry.1 ∨ lang ∈ stats.*1.
Proof. destruct entry as [k v]. apply elem_of_keys_set. Qed.

Lemma NoDup_tally_language stats entry :
  NoDup stats.*1 → NoDup (tally_language stats entry).*1.
Proof. destruct entry as [k v]. apply NoDup_keys_set. Qed.

Lemma sumN_cons x (l : list N) : sumN (x :: l) = (x + sumN l)%N.
Proof. reflexivity. Qed.

Lemma tally_repo_spec repo stats :
  let stats' := tally_repo stats repo in
  (∀ lang, amount lang stats' = (amount lang stats + bytes_of lang (languages repo))%N)
  ∧ sumN stats'.*2 = (sumN stats.*2 + sumN (languages repo).*2)%N
  ∧ (∀ lang, lang ∈ stats'.*1 ↔ lang ∈ stats.*1 ∨ lang ∈ (languages repo).*1)
  ∧ (NoDup stats.*1 → NoDup stats'.*1).
Proof.
  unfold tally_repo. generalize (languages repo) as entries.
  intros entries. revert stats.
  induction entries as [|entry entries IH]; intros stats; cbn [fold_left].
  - repeat split; try (intros; cbn; lia); try tauto.
    intros [?|Hin]; [assumption|inversion Hin].
  - destruct (IH (tally_language stats entry)) as (Ha & Hs & Hk & Hn).
    rewrite !fmap_cons.
    split; [|split; [|split]].
    + intros lang. rewrite Ha, amount_tally_language. cbn [bytes_of foldr].
      fold (bytes_of lang entries).
      destruct (decide (entry.1 = lang)); lia.
    + rewrite Hs, sumN_tally_language, sumN_cons. lia.
    + intros lang. rewrite Hk, keys_tally_language, elem_of_cons. tauto.
    + intros Hnd. apply Hn, NoDup_tally_language, Hnd.
Qed.

Lemma tally_from repos stats :
  let stats' := fold_left tally_repo repos stats in
  (∀ lang, amount lang stats' = (amount lang stats + language_total lang repos)%N)
  ∧ sumN stats'.*2 = (sumN stats.*2 + all_bytes repos)%N
  ∧ (∀ lang, lang ∈ stats'.*1 ↔
             lang ∈ stats.*1 ∨ ∃ repo, repo ∈ repos ∧ lang ∈ Object_keys (languages repo))
  ∧ (NoDup stats.*1 → NoDup stats'.*1).
Proof.
  revert stats. induction repos as [|repo repos IH]; intros stats; cbn [fold_left].
  - repeat split; try (intros; cbn; lia); try tauto.
    intros [?|(repo & Hin & _)]; [assumption|inversion Hin].
  - destruct (IH (tally_repo stats repo)) as (Ha & Hs & Hk & Hn).
    destruct (tally_repo_spec repo stats) as (Ha1 & Hs1 & Hk1 & Hn1).
    split; [|split; [|split]].
    + intros lang. rewrite Ha, Ha1. cbn [language_total foldr].
      fold (language_total lang repos). lia.
    + rewrite Hs, Hs1. cbn [all_bytes foldr]. fold (all_bytes repos). lia.
    + intros lang. rewrite Hk, Hk1. unfold Object_keys. split.
      * intros [[?|Hin]|(r & Hin & Hl)]; [tauto| |].
        -- right. exists repo. split; [left|exact Hin].
        -- right. exists r. split; [right; exact Hin|exact Hl].
      * intros [?|(r & Hin & Hl)]; [tauto|].
        apply elem_of_cons in Hin as [->|Hin]; [tauto|]. right. eauto.
    + intros Hnd. apply Hn, Hn1, Hnd.
Qed.

(** The exact accumulation: one key per language that occurs, holding the
    byte count of that language over all repositories. *)
Lemma tally_spec repos :
  NoDup (tally repos).*1
  ∧ (∀ lang, lang ∈ (tally repos).*1 ↔
             ∃ repo, repo ∈ repos ∧ lang ∈ Object_keys (languages repo))
  ∧ (∀ lang v, (lang, v) ∈ tally repos → v = language_total lang repos)
  ∧ sumN (tally repos).*2 = all_bytes repos.
Proof.
  destruct (tally_from repos []) as (Ha & Hs & Hk & Hn).
  fold (tally repos) in *.
  assert (Hnd : NoDup (tally repos).*1) by (apply Hn; constructor).
  split; [exact Hnd|]. split; [|split].
  - intros lang. rewrite Hk. split; [|tauto].
    intros [Hin|?]; [inversion Hin|assumption].
  - intros lang v Hin. specialize (Ha lang). unfold amount in Ha.
    rewrite (obj_get_elem_of _ _ _ Hnd Hin) in Ha. simpl in Ha. lia.
  - rewrite Hs. simpl. lia.
Qed.

Lemma color_of_table lang : color_of lang = default "#6e7681" (obj_get lang stats_colors).
Proof.
  unfold color_of, stats_colors. simpl.
  repeat (case_decide; [reflexivity|]). reflexivity.
Qed.

End tally_facts.

(** ** Binary64 arithmetic on byte counts *)

Section bpow_facts.
Local Open Scope R_scope.

Lemma bpow_pos e : 0 < bpow e.
Proof. apply powerRZ_lt. lra. Qed.

Lemma bpow_plus a b : bpow (a + b) = bpow a * bpow b.
Proof. apply powerRZ_add. lra. Qed.

Lemma bpow_succ e : bpow (e + 1) = 2 * bpow e.
Proof. rewrite bpow_plus. unfold bpow at 2. simpl. lra. Qed.

Lemma bpow_nonneg_IZR e : (0 <= e)%Z → bpow e = IZR (2 ^ e).
Proof.
  intros He. unfold bpow. rewrite <- (Z2Nat.id e He) at 1.
  rewrite <- pow_powerRZ. rewrite <- (Z2Nat.id e He) at 2.
  rewrite <- pow_IZR. reflexivity.
Qed.

Lemma bpow_opp e : bpow (- e) = / bpow e.
Proof. unfold bpow. apply powerRZ_neg'. Qed.

End bpow_facts.

Lemma digits2_pos_bounds (p : positive) :
  2 ^ (Zpos (digits2_pos p) - 1) <= Zpos p < 2 ^ Zpos (digits2_pos p).
Proof.
  induction p as [p IH|p IH|]; simpl digits2_pos.
  - rewrite Pos2Z.inj_succ. replace (Z.succ (Z.pos (digits2_pos p)) - 1) with (Z.succ (Z.pos (digits2_pos p) - 1)) by lia.
    rewrite !Z.pow_succ_r by lia. lia.
  - rewrite Pos2Z.inj_succ. replace (Z.succ (Z.pos (digits2_pos p)) - 1) with (Z.succ (Z.pos (digits2_pos p) - 1)) by lia.
    rewrite !Z.pow_succ_r by lia. lia.
  - simpl. lia.
Qed.

Lemma digits2_pos_unique (p : positive) (d : Z) :
  2 ^ (d - 1) <= Zpos p < 2 ^ d → Zpos (digits2_pos p) = d.
Proof.
  intros [Hl Hu]. pose proof (digits2_pos_bounds p) as [Hl' Hu'].
  set (d' := Zpos (digits2_pos p)) in *.
  assert (0 < d).
  { destruct d as [|q|q]; [rewrite Z.pow_0_r in Hu; lia|lia|].
    rewrite Z.pow_neg_r in Hu by lia. lia. }
  destruct (Z.lt_trichotomy d' d) as [Hlt|[?|Hgt]]; [|assumption|]; exfalso.
  - assert (2 ^ d' <= 2 ^ (d - 1)) by (apply Z.pow_le_mono_r; lia). lia.
  - assert (2 ^ d <= 2 ^ (d' - 1)) by (apply Z.pow_le_mono_r; lia). lia.
Qed.

Section shifting.
Local Open Scope R_scope.

Lemma inb_bounds x u m l : 0 < u → inb x u m l → IZR m * u <= x < (IZR m + 1) * u.
Proof.
  intros Hu. destruct l as [|[| |]]; cbn [inb]; intros Hx; lra.
Qed.

Lemma IZR_xO p : IZR (Zpos p~0) = 2 * IZR (Zpos p).
Proof. change (Zpos p~0) with (2 * Zpos p)%Z. rewrite mult_IZR. reflexivity. Qed.

Lemma IZR_xI p : IZR (Zpos p~1) = 2 * IZR (Zpos p) + 1.
Proof.
  change (Zpos p~1) with (2 * Zpos p + 1)%Z. rewrite plus_IZR, mult_IZR. reflexivity.
Qed.

Lemma shr_1_inb x u mrs :
  0 < u → (0 <= shr_m mrs)%Z →
  inb x u (shr_m mrs) (loc_of_shr_record mrs) →
  (0 <= shr_m (shr_1 mrs))%Z
  ∧ inb x (2 * u) (shr_m (shr_1 mrs)) (loc_of_shr_record (shr_1 mrs)).
Proof.
  intros Hu Hm. destruct mrs as [m r s]. cbn [shr_m] in Hm.
  destruct m as [|p|p]; [|destruct p as [p|p|]|lia];
    try pose proof (IZR_xO p) as Hp; try pose proof (IZR_xI p) as Hp';
    destruct r, s; cbn [shr_1 shr_m loc_of_shr_record inb orb];
    intros Hx; try rewrite Hp in Hx; try rewrite Hp' in Hx; (split; [lia|]); lra.
Qed.

Lemma iter_shr_inb x n : ∀ e mrs,
  (0 <= shr_m mrs)%Z →
  inb x (bpow e) (shr_m mrs) (loc_of_shr_record mrs) →
  (0 <= shr_m (SpecFloat.iter_pos shr_1 n mrs))%Z
  ∧ inb x (bpow (e + Zpos n)) (shr_m (SpecFloat.iter_pos shr_1 n mrs))
        (loc_of_shr_record (SpecFloat.iter_pos shr_1 n mrs)).
Proof.
  induction n as [n IH|n IH|]; intros e mrs Hm Hx; cbn [SpecFloat.iter_pos].
  - destruct (shr_1_inb x (bpow e) mrs (bpow_pos e) Hm Hx) as [Hm1 Hx1].
    rewrite <- bpow_succ in Hx1.
    destruct (IH _ _ Hm1 Hx1) as [Hm2 Hx2].
    destruct (IH _ _ Hm2 Hx2) as [Hm3 Hx3].
    split; [exact Hm3|]. replace (e + Z.pos n~1)%Z with (e + 1 + Z.pos n + Z.pos n)%Z by lia.
    exact Hx3.
  - destruct (IH _ _ Hm Hx) as [Hm2 Hx2].
    destruct (IH _ _ Hm2 Hx2) as [Hm3 Hx3].
    split; [exact Hm3|]. replace (e + Z.pos n~0)%Z with (e + Z.pos n + Z.pos n)%Z by lia.
    exact Hx3.
  - destruct (shr_1_inb x (bpow e) mrs (bpow_pos e) Hm Hx) as [Hm1 Hx1].
    rewrite <- bpow_succ in Hx1. split; assumption.
Qed.

End shifting.

Section rounding.
Local Open Scope R_scope.

Lemma fexp_normal z : (-1074 <= z - 53)%Z → fexp prec emax z = (z - 53)%Z.
Proof. intros Hz. unfold fexp, SpecFloat.emin, prec, emax. lia. Qed.

Lemma shr_record_of_loc_m m l : shr_m (shr_record_of_loc m l) = m.
Proof. destruct l as [|[| |]]; reflexivity. Qed.

Lemma shr_record_of_loc_loc m l : loc_of_shr_record (shr_record_of_loc m l) = l.
Proof. destruct l as [|[| |]]; reflexivity. Qed.

Lemma shr_fexp_inb x m e l :
  (0 <= m)%Z → (53 <= Zdigits2 m)%Z → (-1074 <= Zdigits2 m + e - 53)%Z →
  inb x (bpow e) m l →
  ∃ mrs, shr_fexp prec emax m e l = (mrs, Zdigits2 m + e - 53)%Z
         ∧ (0 <= shr_m mrs)%Z
         ∧ inb x (bpow (Zdigits2 m + e - 53)) (shr_m mrs) (loc_of_shr_record mrs).
Proof.
  intros Hm Hd He Hx. unfold shr_fexp. rewrite fexp_normal by exact He.
  replace (Zdigits2 m + e - 53 - e)%Z with (Zdigits2 m - 53)%Z by lia.
  unfold shr. destruct (Zdigits2 m - 53)%Z as [|n|n] eqn:En; [| |lia].
  - exists (shr_record_of_loc m l).
    replace (Zdigits2 m + e - 53)%Z with e by lia.
    rewrite shr_record_of_loc_m, shr_record_of_loc_loc. auto.
  - exists (SpecFloat.iter_pos shr_1 n (shr_record_of_loc m l)).
    replace (Zdigits2 m + e - 53)%Z with (e + Zpos n)%Z by lia.
    split; [reflexivity|]. apply iter_shr_inb.
    + rewrite shr_record_of_loc_m. exact Hm.
    + rewrite shr_record_of_loc_m, shr_record_of_loc_loc. exact Hx.
Qed.

Lemma round_nearest_even_near x u m l :
  0 < u → inb x u m l →
  let m' := round_nearest_even m l in
  (m <= m' <= m + 1)%Z ∧ Rabs (IZR m' * u - x) <= / 2 * u.
Proof.
  intros Hu Hx m'. subst m'.
  destruct l as [|[| |]]; cbn [round_nearest_even inb] in *.
  - split; [lia|]. rewrite Hx. replace (IZR m * u - IZR m * u) with 0 by ring.
    rewrite Rabs_R0. lra.
  - destruct (Z.even m); (split; [lia|]); rewrite ?plus_IZR; apply Rabs_le; lra.
  - split; [lia|]. apply Rabs_le; lra.
  - split; [lia|]. rewrite plus_IZR. apply Rabs_le; lra.
Qed.

Lemma Zdigits2_53 m : (2 ^ 52 <= m < 2 ^ 53)%Z → Zdigits2 m = 53%Z.
Proof.
  intros Hm. destruct m as [|p|p]; [lia| |lia]. cbn [Zdigits2].
  apply digits2_pos_unique. exact Hm.
Qed.

Lemma Zdigits2_bounds m : (0 < m)%Z → (2 ^ (Zdigits2 m - 1) <= m < 2 ^ Zdigits2 m)%Z.
Proof. destruct m as [|p|p]; [lia| |lia]. intros _. apply digits2_pos_bounds. Qed.

Lemma IZR_pow2 (k : Z) : (0 <= k)%Z → IZR (2 ^ k) = bpow k.
Proof. intros. symmetry. apply bpow_nonneg_IZR. assumption. Qed.

End rounding.

Section binary_round.
Local Open Scope R_scope.

Lemma bpow_53 : bpow 53 = IZR (2 ^ 53).
Proof. apply bpow_nonneg_IZR. lia. Qed.

Lemma bpow_52 : bpow 52 = IZR (2 ^ 52).
Proof. apply bpow_nonneg_IZR. lia. Qed.

(** A first shift that leaves at least [53] digits yields a mantissa of
    exactly [53] digits. *)
Lemma shifted_mantissa_bounds x m e m1 :
  (0 < m)%Z →
  IZR m * bpow e <= x < (IZR m + 1) * bpow e →
  IZR m1 * bpow (Zdigits2 m + e - 53) <= x < (IZR m1 + 1) * bpow (Zdigits2 m + e - 53) →
  (2 ^ 52 <= m1 < 2 ^ 53)%Z.
Proof.
  intros Hm [Hl Hu] [Hl1 Hu1].
  pose proof (Zdigits2_bounds m Hm) as [Hdl Hdu].
  assert (Hd : (0 < Zdigits2 m)%Z) by (destruct m; simpl; lia).
  set (d := Zdigits2 m) in *. set (e1 := (d + e - 53)%Z) in *.
  pose proof (bpow_pos e) as He. pose proof (bpow_pos e1) as He1.
  assert (Hhi : IZR (2 ^ d) * bpow e = IZR (2 ^ 53) * bpow e1).
  { rewrite !IZR_pow2 by lia. rewrite <- !bpow_plus. f_equal. unfold e1. lia. }
  assert (Hlo : IZR (2 ^ (d - 1)) * bpow e = IZR (2 ^ 52) * bpow e1).
  { rewrite !IZR_pow2 by lia. rewrite <- !bpow_plus. f_equal. unfold e1. lia. }
  apply IZR_le in Hdl. assert (Hdu' : (m + 1 <= 2 ^ d)%Z) by lia.
  apply IZR_le in Hdu'. rewrite plus_IZR in Hdu'.
  assert (H1 : IZR m1 * bpow e1 < IZR (2 ^ 53) * bpow e1).
  { rewrite <- Hhi. apply Rle_lt_trans with x; [exact Hl1|].
    apply Rlt_le_trans with ((IZR m + 1) * bpow e); [exact Hu|].
    apply Rmult_le_compat_r; lra. }
  assert (H2 : IZR (2 ^ 52) * bpow e1 < (IZR m1 + 1) * bpow e1).
  { rewrite <- Hlo. apply Rle_lt_trans with x; [|exact Hu1].
    apply Rle_trans with (IZR m * bpow e); [|exact Hl].
    apply Rmult_le_compat_r; lra. }
  apply Rmult_lt_reg_r in H1; [|exact He1].
  apply Rmult_lt_reg_r in H2; [|exact He1].
  apply lt_IZR in H1. rewrite <- plus_IZR in H2. apply lt_IZR in H2. lia.
Qed.

Lemma binary_round_aux_correct s x m e l :
  (0 < m)%Z →
  (53 <= Zdigits2 m)%Z →
  (-1074 <= Zdigits2 m + e - 53)%Z →
  (Zdigits2 m + e - 53 + 1 <= 971)%Z →
  inb x (bpow e) m l →
  ∃ m' e',
    binary_round_aux prec emax s m e l = S754_finite s m' e'
    ∧ (2 ^ 52 <= Zpos m' < 2 ^ 53)%Z
    ∧ (Zdigits2 m + e - 53 <= e' <= Zdigits2 m + e - 53 + 1)%Z
    ∧ Rabs (F2R (Zpos m') e' - x) <= / 2 * bpow e'.
Proof.
  intros Hm Hd He Ho Hx.
  destruct (shr_fexp_inb x m e l) as (mrs & E1 & Hm1 & Hx1); [lia|assumption..|].
  set (e1 := (Zdigits2 m + e - 53)%Z) in *.
  pose proof (bpow_pos e1) as Hu1.
  pose proof (shifted_mantissa_bounds x m e (shr_m mrs) Hm
                (inb_bounds _ _ _ _ (bpow_pos e) Hx)
                (inb_bounds _ _ _ _ Hu1 Hx1)) as Hb1.
  destruct (round_nearest_even_near x (bpow e1) _ _ Hu1 Hx1) as [Hm2 Hr].
  unfold binary_round_aux. rewrite E1.
  set (m2 := round_nearest_even (shr_m mrs) (loc_of_shr_record mrs)) in *.
  clearbody m2.
  destruct (Z.eq_dec m2 (2 ^ 53)%Z) as [E2|N2].
  - (* the rounding carried into a 54th digit *)
    subst m2. unfold shr_fexp.
    change (Zdigits2 (2 ^ 53)%Z) with 54%Z.
    rewrite fexp_normal by lia.
    replace (54 + e1 - 53 - e1)%Z with 1%Z by lia.
    cbn [shr shr_record_of_loc SpecFloat.iter_pos].
    change (shr_1 {| shr_m := (2 ^ 53)%Z; shr_r := false; shr_s := false |})
      with {| shr_m := Zpos (2 ^ 52)%positive; shr_r := false; shr_s := false |}.
    cbn [shr_m].
    cbv iota beta.
    replace (e1 + 1 <=? emax - prec)%Z with true
      by (symmetry; apply Z.leb_le; unfold emax, prec; lia).
    exists (2 ^ 52)%positive, (e1 + 1)%Z.
    split; [reflexivity|]. split; [lia|]. split; [lia|].
    unfold F2R. rewrite bpow_succ.
    replace (IZR (Z.pos (2 ^ 52)) * (2 * bpow e1)) with (IZR (2 ^ 53) * bpow e1)
      by (change (2 ^ 53)%Z with (2 * Z.pos (2 ^ 52))%Z; rewrite mult_IZR; ring).
    apply Rle_trans with (/ 2 * bpow e1); [exact Hr|]. lra.
  - assert (Hb2 : (2 ^ 52 <= m2 < 2 ^ 53)%Z) by lia.
    unfold shr_fexp. rewrite (Zdigits2_53 m2 Hb2).
    rewrite fexp_normal by lia.
    replace (53 + e1 - 53 - e1)%Z with 0%Z by lia.
    cbn [shr shr_record_of_loc shr_m].
    destruct m2 as [|p|p] eqn:Em2; [lia| |lia].
    replace (e1 <=? emax - prec)%Z with true
      by (symmetry; apply Z.leb_le; unfold emax, prec; lia).
    exists p, e1. split; [reflexivity|]. split; [exact Hb2|]. split; [lia|].
    exact Hr.
Qed.

End binary_round.

Section conversions.
Local Open Scope R_scope.

(** A mantissa of [53] digits with an exponent in range is returned as it
    is. *)
Lemma binary_round_aux_exact s (p : positive) e :
  (2 ^ 52 <= Zpos p < 2 ^ 53)%Z → (-1074 <= e <= 971)%Z →
  binary_round_aux prec emax s (Zpos p) e loc_Exact = S754_finite s p e.
Proof.
  intros Hp He. unfold binary_round_aux, shr_fexp.
  rewrite (Zdigits2_53 _ Hp). rewrite fexp_normal by lia.
  replace (53 + e - 53 - e)%Z with 0%Z by lia.
  cbn [shr shr_record_of_loc shr_m loc_of_shr_record round_nearest_even].
  rewrite (Zdigits2_53 _ Hp). rewrite fexp_normal by lia.
  replace (53 + e - 53 - e)%Z with 0%Z by lia.
  cbn [shr shr_record_of_loc shr_m].
  replace (e <=? emax - prec)%Z with true
    by (symmetry; apply Z.leb_le; unfold emax, prec; lia).
  reflexivity.
Qed.

Lemma iter_xO_value (p k : positive) : Zpos (Pos.iter xO p k) = (Zpos p * 2 ^ Zpos k)%Z.
Proof.
  change (Pos.iter xO p k) with (shift_pos k p).
  rewrite shift_pos_correct, Zpower_pos_nat, Zpower_nat_Z, positive_nat_Z. lia.
Qed.

(** The binary64 value of a positive integer below [2^53] is that integer. *)
Lemma Z2SF_exact (n : Z) :
  (0 < n < 2 ^ 53)%Z →
  ∃ m e, Z2SF n = S754_finite false m e
         ∧ (2 ^ 52 <= Zpos m < 2 ^ 53)%Z
         ∧ e = (Zdigits2 n - 53)%Z
         ∧ (Zpos m = n * 2 ^ (- e))%Z.
Proof.
  intros Hn. destruct n as [|p|p]; [lia| |lia].
  pose proof (digits2_pos_bounds p) as Hd. cbn [Zdigits2].
  set (d := Zpos (digits2_pos p)) in *.
  assert (Hd53 : (0 < d <= 53)%Z).
  { split; [unfold d; lia|].
    destruct (Z.le_gt_cases d 53) as [?|Hgt]; [assumption|exfalso].
    assert (2 ^ 53 <= 2 ^ (d - 1))%Z by (apply Z.pow_le_mono_r; lia). lia. }
  unfold Z2SF, binary_normalize, binary_round.
  rewrite Z.add_0_r. fold d. rewrite fexp_normal by lia.
  unfold shl_align. replace (d - 53 - 0)%Z with (d - 53)%Z by lia.
  destruct (d - 53)%Z as [|k|k] eqn:Ek; [| lia |].
  - assert (d = 53%Z) by lia.
    rewrite binary_round_aux_exact; [|rewrite H in Hd; exact Hd|lia].
    exists p, 0%Z. split; [reflexivity|]. split; [rewrite H in Hd; exact Hd|].
    split; [lia|]. simpl. lia.
  - assert (Hk : Zpos k = (53 - d)%Z) by lia.
    assert (Hv : Zpos (Pos.iter xO p k) = (Zpos p * 2 ^ (53 - d))%Z)
      by (rewrite iter_xO_value, Hk; reflexivity).
    assert (Hb : (2 ^ 52 <= Zpos (Pos.iter xO p k) < 2 ^ 53)%Z).
    { rewrite Hv.
      replace (2 ^ 52)%Z with (2 ^ (d - 1) * 2 ^ (53 - d))%Z
        by (rewrite <- Z.pow_add_r by lia; f_equal; lia).
      replace (2 ^ 53)%Z with (2 ^ d * 2 ^ (53 - d))%Z
        by (rewrite <- Z.pow_add_r by lia; f_equal; lia).
      assert (0 < 2 ^ (53 - d))%Z by (apply Z.pow_pos_nonneg; lia).
      split; [apply Z.mul_le_mono_nonneg_r; lia|apply Z.mul_lt_mono_pos_r; lia]. }
    rewrite binary_round_aux_exact; [|exact Hb|lia].
    exists (Pos.iter xO p k), (Z.neg k). split; [reflexivity|]. split; [exact Hb|].
    split; [reflexivity|]. rewrite Hv. f_equal. f_equal. lia.
Qed.

End conversions.

Section division.
Local Open Scope R_scope.

Lemma inb_fraction (q : Z) (rho u : R) (l : location) :
  0 < u →
  match l with
  | loc_Exact => rho = 0
  | loc_Inexact Lt => 0 < rho < / 2
  | loc_Inexact Eq => rho = / 2
  | loc_Inexact Gt => / 2 < rho < 1
  end →
  inb ((IZR q + rho) * u) u q l.
Proof.
  intros Hu. destruct l as [|[| |]]; cbn [inb]; intros Hr.
  - rewrite Hr. ring.
  - rewrite Hr. ring.
  - destruct Hr as [H0 H1].
    pose proof (Rmult_lt_compat_r u _ _ Hu H0). pose proof (Rmult_lt_compat_r u _ _ Hu H1). lra.
  - destruct Hr as [H0 H1].
    pose proof (Rmult_lt_compat_r u _ _ Hu H0). pose proof (Rmult_lt_compat_r u _ _ Hu H1). lra.
Qed.

Lemma ratio_lt (a b : Z) (c : R) : (0 < b)%Z → IZR a < c * IZR b → IZR a / IZR b < c.
Proof.
  intros Hb H. assert (0 < IZR b) by (apply IZR_lt; exact Hb).
  apply Rmult_lt_reg_r with (IZR b); [assumption|].
  unfold Rdiv. rewrite Rmult_assoc, Rinv_l by lra. lra.
Qed.

Lemma ratio_gt (a b : Z) (c : R) : (0 < b)%Z → c * IZR b < IZR a → c < IZR a / IZR b.
Proof.
  intros Hb H. assert (0 < IZR b) by (apply IZR_lt; exact Hb).
  apply Rmult_lt_reg_r with (IZR b); [assumption|].
  unfold Rdiv. rewrite Rmult_assoc, Rinv_l by lra. lra.
Qed.

Lemma ratio_eq (a b : Z) (c : R) : (0 < b)%Z → IZR a = c * IZR b → IZR a / IZR b = c.
Proof.
  intros Hb H. assert (0 < IZR b) by (apply IZR_lt; exact Hb).
  rewrite H. field. lra.
Qed.

(** The location computed from a remainder describes the fraction
    [r / b]. *)
Lemma new_location_fraction (b r : Z) :
  (0 <= r < b)%Z →
  match new_location b r with
  | loc_Exact => IZR r / IZR b = 0
  | loc_Inexact Lt => 0 < IZR r / IZR b < / 2
  | loc_Inexact Eq => IZR r / IZR b = / 2
  | loc_Inexact Gt => / 2 < IZR r / IZR b < 1
  end.
Proof.
  intros Hr. assert (Hb : (0 < b)%Z) by lia.
  assert (Hlt1 : IZR r / IZR b < 1) by (apply ratio_lt; [lia|]; rewrite Rmult_1_l; apply IZR_lt; lia).
  assert (Hgt0 : (0 < r)%Z → 0 < IZR r / IZR b)
    by (intros; apply ratio_gt; [lia|]; rewrite Rmult_0_l; apply IZR_lt; lia).
  unfold new_location.
  destruct (Z.even b) eqn:Ev; [unfold new_location_even|unfold new_location_odd];
    (destruct (Z.eqb_spec r 0) as [->|E0]; [unfold Rdiv; ring|]).
  - destruct (Z.compare_spec (2 * r) b) as [Heq|Hlt|Hgt].
    + apply ratio_eq; [lia|]. apply (f_equal IZR) in Heq. rewrite mult_IZR in Heq. lra.
    + split; [apply Hgt0; lia|]. apply ratio_lt; [lia|].
      apply IZR_lt in Hlt. rewrite mult_IZR in Hlt. lra.
    + split; [|exact Hlt1]. apply ratio_gt; [lia|].
      apply IZR_lt in Hgt. rewrite mult_IZR in Hgt. lra.
  - assert (Hodd : (2 * r <> b)%Z).
    { intros <-. rewrite Z.even_mul in Ev. discriminate. }
    destruct (Z.compare_spec (2 * r + 1) b) as [Heq|Hlt|Hgt].
    + split; [apply Hgt0; lia|]. apply ratio_lt; [lia|].
      assert (Hlt' : (2 * r < b)%Z) by lia.
      apply IZR_lt in Hlt'. rewrite mult_IZR in Hlt'. lra.
    + split; [apply Hgt0; lia|]. apply ratio_lt; [lia|].
      assert (Hlt' : (2 * r < b)%Z) by lia.
      apply IZR_lt in Hlt'. rewrite mult_IZR in Hlt'. lra.
    + split; [|exact Hlt1]. apply ratio_gt; [lia|].
      assert (Hgt' : (b < 2 * r)%Z) by lia.
      apply IZR_lt in Hgt'. rewrite mult_IZR in Hgt'. lra.
Qed.

Lemma digits2_pos_53 (p : positive) :
  (2 ^ 52 <= Zpos p < 2 ^ 53)%Z → Zpos (digits2_pos p) = 53%Z.
Proof. intros Hp. apply (digits2_pos_unique p 53). exact Hp. Qed.

Lemma SFdiv_core_binary_eq (ma : positive) ea (mb : positive) eb :
  (2 ^ 52 <= Zpos ma < 2 ^ 53)%Z → (2 ^ 52 <= Zpos mb < 2 ^ 53)%Z →
  (-1074 <= ea - eb - 53)%Z →
  SFdiv_core_binary prec emax (Zpos ma) ea (Zpos mb) eb =
    ((Zpos ma * 2 ^ 53) `div` Zpos mb, ea - eb - 53,
     new_location (Zpos mb) ((Zpos ma * 2 ^ 53) `mod` Zpos mb))%Z.
Proof.
  intros Ha Hb He. unfold SFdiv_core_binary. cbn [Zdigits2].
  rewrite (digits2_pos_53 _ Ha), (digits2_pos_53 _ Hb).
  replace (53 + ea - (53 + eb))%Z with (ea - eb)%Z by lia.
  rewrite fexp_normal by lia. rewrite Z.min_l by lia.
  replace (ea - eb - (ea - eb - 53))%Z with 53%Z by lia.
  cbv iota beta. rewrite Z.shiftl_mul_pow2 by lia.
  unfold Z.div, Z.modulo.
  destruct (Z.div_eucl (Z.pos ma * 2 ^ 53) (Z.pos mb)) as [q r]. reflexivity.
Qed.

End division.

Section operations.
Local Open Scope R_scope.

Lemma Zdigits2_lower m (k : Z) : (0 <= k)%Z → (2 ^ k <= m)%Z → (k < Zdigits2 m)%Z.
Proof.
  intros Hk Hm. assert (Hpos : (0 < m)%Z) by (pose proof (Z.pow_pos_nonneg 2 k); lia).
  pose proof (Zdigits2_bounds m Hpos) as [_ Hu].
  apply (Z.pow_lt_mono_r_iff 2); [lia|destruct m; simpl; lia|lia].
Qed.

Lemma Zdigits2_upper m (k : Z) : (0 < m < 2 ^ k)%Z → (Zdigits2 m <= k)%Z.
Proof.
  intros [Hpos Hm]. pose proof (Zdigits2_bounds m Hpos) as [Hl _].
  assert (0 <= k)%Z.
  { destruct k as [|k|k]; [lia|lia|]. rewrite Z.pow_neg_r in Hm by lia. lia. }
  assert (Zdigits2 m - 1 < k)%Z; [|lia].
  apply (Z.pow_lt_mono_r_iff 2); [lia|lia|lia].
Qed.

Lemma div_correct (ma : positive) ea (mb : positive) eb :
  (2 ^ 52 <= Zpos ma < 2 ^ 53)%Z → (2 ^ 52 <= Zpos mb < 2 ^ 53)%Z →
  (-900 <= ea - eb <= 900)%Z →
  ∃ m' e',
    div (S754_finite false ma ea) (S754_finite false mb eb) = S754_finite false m' e'
    ∧ (2 ^ 52 <= Zpos m' < 2 ^ 53)%Z
    ∧ (ea - eb - 53 <= e' <= ea - eb - 51)%Z
    ∧ Rabs (F2R (Zpos m') e' - F2R (Zpos ma) ea / F2R (Zpos mb) eb) <= / 2 * bpow e'.
Proof.
  intros Ha Hb He. unfold div, SFdiv.
  rewrite SFdiv_core_binary_eq by (assumption || lia). cbn [xorb].
  set (q := ((Z.pos ma * 2 ^ 53) `div` Z.pos mb)%Z).
  set (r := ((Z.pos ma * 2 ^ 53) `mod` Z.pos mb)%Z).
  assert (Hqr : (Z.pos ma * 2 ^ 53 = Z.pos mb * q + r)%Z) by (apply Z.div_mod; lia).
  assert (Hr : (0 <= r < Z.pos mb)%Z) by (apply Z.mod_pos_bound; lia).
  assert (Hq1 : (2 ^ 52 <= q)%Z) by (apply Z.div_le_lower_bound; lia).
  assert (Hq2 : (q < 2 ^ 54)%Z) by (apply Z.div_lt_upper_bound; lia).
  assert (Hd1 : (52 < Zdigits2 q)%Z) by (apply Zdigits2_lower; lia).
  assert (Hd2 : (Zdigits2 q <= 54)%Z) by (apply Zdigits2_upper; lia).
  destruct (binary_round_aux_correct false
              (F2R (Zpos ma) ea / F2R (Zpos mb) eb) q (ea - eb - 53)
              (new_location (Z.pos mb) r)) as (m' & e' & E & Hm' & He' & Hn);
    try lia.
  - replace (F2R (Z.pos ma) ea / F2R (Z.pos mb) eb)
      with ((IZR q + IZR r / IZR (Z.pos mb)) * bpow (ea - eb - 53)).
    + apply inb_fraction; [apply bpow_pos|]. apply new_location_fraction. exact Hr.
    + unfold F2R. replace ea with ((ea - eb - 53) + 53 + eb)%Z at 2 by lia.
      rewrite !bpow_plus, bpow_53.
      apply (f_equal IZR) in Hqr. rewrite plus_IZR, !mult_IZR in Hqr.
      pose proof (bpow_pos eb). pose proof (bpow_pos (ea - eb - 53)).
      assert (0 < IZR (Z.pos mb)) by (apply IZR_lt; lia).
      transitivity (IZR (Z.pos ma) * IZR (2 ^ 53) / IZR (Z.pos mb) * bpow (ea - eb - 53)).
      * rewrite Hqr. field. lra.
      * field. split; lra.
  - exists m', e'. split; [exact E|]. split; [exact Hm'|]. split; [lia|exact Hn].
Qed.

Lemma mul_correct (ma : positive) ea (mb : positive) eb :
  (2 ^ 52 <= Zpos ma < 2 ^ 53)%Z → (2 ^ 52 <= Zpos mb < 2 ^ 53)%Z →
  (-900 <= ea + eb <= 800)%Z →
  ∃ m' e',
    mul (S754_finite false ma ea) (S754_finite false mb eb) = S754_finite false m' e'
    ∧ (2 ^ 52 <= Zpos m' < 2 ^ 53)%Z
    ∧ (ea + eb + 52 <= e' <= ea + eb + 54)%Z
    ∧ Rabs (F2R (Zpos m') e' - F2R (Zpos ma) ea * F2R (Zpos mb) eb) <= / 2 * bpow e'.
Proof.
  intros Ha Hb He. unfold mul, SFmul. cbn [xorb].
  assert (Hp1 : (2 ^ 104 <= Z.pos (ma * mb))%Z).
  { rewrite Pos2Z.inj_mul. change (2 ^ 104)%Z with (2 ^ 52 * 2 ^ 52)%Z.
    apply Z.mul_le_mono_nonneg; lia. }
  assert (Hp2 : (Z.pos (ma * mb) < 2 ^ 106)%Z).
  { rewrite Pos2Z.inj_mul. change (2 ^ 106)%Z with (2 ^ 53 * 2 ^ 53)%Z.
    apply Z.mul_lt_mono_nonneg; lia. }
  assert (Hd1 : (104 < Zdigits2 (Z.pos (ma * mb)))%Z) by (apply Zdigits2_lower; lia).
  assert (Hd2 : (Zdigits2 (Z.pos (ma * mb)) <= 106)%Z) by (apply Zdigits2_upper; lia).
  destruct (binary_round_aux_correct false
              (F2R (Zpos ma) ea * F2R (Zpos mb) eb) (Z.pos (ma * mb)) (ea + eb)
              loc_Exact) as (m' & e' & E & Hm' & He' & Hn);
    try lia.
  - cbn [inb]. unfold F2R. rewrite Pos2Z.inj_mul, mult_IZR, bpow_plus. ring.
  - exists m', e'. split; [exact E|]. split; [exact Hm'|]. split; [lia|exact Hn].
Qed.

End operations.

Section percentages.
Local Open Scope R_scope.

Lemma F2R_scaled (n : Z) (m : positive) (e : Z) :
  (e <= 0)%Z → (Zpos m = n * 2 ^ (- e))%Z → F2R (Zpos m) e = IZR n.
Proof.
  intros He Hm. unfold F2R. rewrite Hm, mult_IZR, IZR_pow2 by lia.
  rewrite Rmult_assoc, <- bpow_plus. replace (- e + e)%Z with 0%Z by lia.
  unfold bpow. simpl. ring.
Qed.

Lemma half_ulp_relative (m : positive) (e : Z) :
  (2 ^ 52 <= Zpos m)%Z → / 2 * bpow e <= / IZR (2 ^ 53) * F2R (Zpos m) e.
Proof.
  intros Hm. unfold F2R. pose proof (bpow_pos e) as He.
  apply IZR_le in Hm.
  assert (H : IZR (2 ^ 52) * bpow e <= IZR (Z.pos m) * bpow e)
    by (apply Rmult_le_compat_r; lra).
  change (2 ^ 53)%Z with 9007199254740992%Z.
  change (2 ^ 52)%Z with 4503599627370496%Z in H. lra.
Qed.

Lemma round_half_up_spec (m : positive) (e : Z) :
  (e < 0)%Z →
  IZR (round_half_up false m e) - / 2 <= F2R (Zpos m) e < IZR (round_half_up false m e) + / 2.
Proof.
  intros He. unfold round_half_up. cbn [cond_Zopp].
  replace (0 <=? e)%Z with false by (symmetry; apply Z.leb_gt; exact He).
  set (K := (2 ^ (- e))%Z). set (h := (2 ^ (- e - 1))%Z).
  assert (HK : (K = 2 * h)%Z).
  { unfold K, h. replace (- e)%Z with (Z.succ (- e - 1)) by lia.
    rewrite Z.pow_succ_r by lia. f_equal. f_equal. lia. }
  assert (Hh : (0 < h)%Z) by (apply Z.pow_pos_nonneg; lia).
  pose proof (Z.div_mod (Z.pos m + h) K ltac:(lia)) as Hdm.
  pose proof (Z.mod_pos_bound (Z.pos m + h) K ltac:(lia)) as Hmod.
  set (z := ((Z.pos m + h) `div` K)%Z) in *.
  set (r := ((Z.pos m + h) `mod` K)%Z) in *.
  assert (Hv : F2R (Z.pos m) e * IZR K = IZR (Z.pos m)).
  { unfold F2R, K. rewrite IZR_pow2 by lia. rewrite Rmult_assoc, <- bpow_plus.
    replace (e + - e)%Z with 0%Z by lia. unfold bpow. simpl. ring. }
  assert (HKr : 0 < IZR K) by (apply IZR_lt; lia).
  assert (E : IZR (Z.pos m) + IZR h = IZR K * IZR z + IZR r)
    by (rewrite <- plus_IZR, <- mult_IZR, <- plus_IZR; f_equal; exact Hdm).
  assert (Eh : IZR K = 2 * IZR h) by (rewrite HK, mult_IZR; reflexivity).
  destruct Hmod as [Hr0 Hr1]. apply IZR_le in Hr0. apply IZR_lt in Hr1.
  split.
  - apply Rmult_le_reg_r with (IZR K); [exact HKr|]. rewrite Hv. lra.
  - apply Rmult_lt_reg_r with (IZR K); [exact HKr|]. rewrite Hv. lra.
Qed.

Lemma Math_round_finite (m : positive) (e : Z) :
  Math_round (S754_finite false m e) = Z2SF (round_half_up false m e).
Proof.
  unfold Math_round. destruct (Z.eqb_spec (round_half_up false m e) 0) as [->|]; reflexivity.
Qed.

Lemma Rabs_le_both (a b : R) : Rabs a <= b → - b <= a <= b.
Proof.
  intros H. pose proof (Rle_abs a). pose proof (Rle_abs (- a)) as H'.
  rewrite Rabs_Ropp in H'. lra.
Qed.

(** Two roundings of relative error at most [2^-53] stay closer than
    [2^-45] to a product that is at most [100]. *)
Lemma two_roundings (f p x : R) :
  0 < x <= 1 → 0 < f → 0 < p →
  Rabs (f - x) <= / IZR (2 ^ 53) * f →
  Rabs (p - f * 100) <= / IZR (2 ^ 53) * p →
  Rabs (p - 100 * x) < / IZR (2 ^ 45).
Proof.
  intros Hx Hf Hp H1 H2.
  change (2 ^ 53)%Z with 9007199254740992%Z in *.
  change (2 ^ 45)%Z with 35184372088832%Z.
  apply Rabs_le_both in H1, H2. apply Rabs_def1; lra.
Qed.

(** An integer within a half of a value that is closer than [1/(2T)] to
    [100 v / T] is within a half of [100 v / T]. *)
Lemma nearest_from_close (z v T : Z) (p : R) :
  (0 < T < 2 ^ 44)%Z →
  Rabs (p - 100 * (IZR v / IZR T)) < / IZR (2 ^ 45) →
  IZR z - / 2 <= p < IZR z + / 2 →
  ((2 * z - 1) * T <= 200 * v <= (2 * z + 1) * T)%Z.
Proof.
  intros HT Hclose Hz.
  assert (HTr : 0 < IZR T) by (apply IZR_lt; lia).
  assert (HT45 : / IZR (2 ^ 45) < / (2 * IZR T)).
  { apply Rinv_lt_contravar.
    - apply Rmult_lt_0_compat; [|apply IZR_lt; lia]. lra.
    - replace (2 * IZR T) with (IZR (2 * T)) by (rewrite mult_IZR; reflexivity).
      apply IZR_lt. lia. }
  apply Rabs_def2 in Hclose. destruct Hclose as [Hc1 Hc2].
  set (iT := / (2 * IZR T)) in *.
  assert (HiT : 0 < iT) by (apply Rinv_0_lt_compat; lra).
  assert (Hx : 100 * (IZR v / IZR T) = 200 * IZR v * iT) by (unfold iT; field; lra).
  assert (HTi : IZR T * iT = / 2) by (unfold iT; field; lra).
  split.
  - destruct (Z.le_gt_cases ((2 * z - 1) * T) (200 * v)) as [?|Hgt]; [assumption|exfalso].
    assert (Hgt' : (200 * v + 1 <= (2 * z - 1) * T)%Z) by lia.
    apply IZR_le in Hgt'. rewrite plus_IZR, !mult_IZR, minus_IZR, mult_IZR in Hgt'.
    apply (Rmult_le_compat_r iT) in Hgt'; [|lra].
    replace ((2 * IZR z - 1) * IZR T * iT) with ((2 * IZR z - 1) * (IZR T * iT)) in Hgt' by ring.
    rewrite HTi in Hgt'. lra.
  - destruct (Z.le_gt_cases (200 * v) ((2 * z + 1) * T)) as [?|Hgt]; [assumption|exfalso].
    assert (Hgt' : ((2 * z + 1) * T + 1 <= 200 * v)%Z) by lia.
    apply IZR_le in Hgt'. rewrite plus_IZR, !mult_IZR, plus_IZR, mult_IZR in Hgt'.
    apply (Rmult_le_compat_r iT) in Hgt'; [|lra].
    replace (((2 * IZR z + 1) * IZR T + 1) * iT)
      with ((2 * IZR z + 1) * (IZR T * iT) + iT) in Hgt' by ring.
    rewrite HTi in Hgt'. lra.
Qed.

End percentages.

Section percentage_correct.
Local Open Scope R_scope.

Lemma Z2SF_100 : Z2SF 100 = S754_finite false 7036874417766400 (-46).
Proof. reflexivity. Qed.

Lemma F2R_pos (m : positive) e : 0 < F2R (Zpos m) e.
Proof.
  unfold F2R. apply Rmult_lt_0_compat; [apply IZR_lt; lia|apply bpow_pos].
Qed.

(** The percentage computed in binary64 for a byte count [v] out of a total
    [T] below [2^44] is an integer [z] within a half of [100 v / T]. *)
Lemma percentage_nearest (v T : N) :
  (0 < T)%N → (v <= T)%N → (T < 2 ^ 44)%N →
  ∃ z : Z,
    rounded_share v T = Z2SF z
    ∧ ((2 * z - 1) * Z.of_N T <= 200 * Z.of_N v <= (2 * z + 1) * Z.of_N T)%Z.
Proof.
  intros HT0 HvT HT.
  assert (HTz : (0 < Z.of_N T < 2 ^ 44)%Z).
  { split; [lia|]. change (2 ^ 44)%Z with (Z.of_N (2 ^ 44)). lia. }
  unfold rounded_share, N2SF.
  destruct (Z2SF_exact (Z.of_N T)) as (mb & eb & Eb & Hmb & Heb & Hvb); [lia|].
  assert (Hdb : (0 < Zdigits2 (Z.of_N T) <= 53)%Z).
  { split; [apply (Zdigits2_lower _ 0); lia|apply Zdigits2_upper; lia]. }
  destruct (N.eq_dec v 0%N) as [->|Hv0].
  - exists 0%Z. rewrite Eb. split; [reflexivity|lia].
  - assert (Hvz : (0 < Z.of_N v <= Z.of_N T)%Z) by lia.
    destruct (Z2SF_exact (Z.of_N v)) as (ma & ea & Ea & Hma & Hea & Hva); [lia|].
    assert (Hda : (0 < Zdigits2 (Z.of_N v) <= Zdigits2 (Z.of_N T))%Z).
    { split; [apply (Zdigits2_lower _ 0); lia|]. apply Zdigits2_upper.
      pose proof (Zdigits2_bounds (Z.of_N T) ltac:(lia)). lia. }
    rewrite Ea, Eb, Z2SF_100.
    destruct (div_correct ma ea mb eb Hma Hmb) as (mq & eq & Eq & Hmq & Heq & Hq); [lia|].
    rewrite Eq.
    destruct (mul_correct mq eq 7036874417766400 (-46) Hmq) as (mp & ep & Ep & Hmp & Hep & Hp);
      [lia|lia|].
    rewrite Ep, Math_round_finite.
    exists (round_half_up false mp ep). split; [reflexivity|].
    rewrite (F2R_scaled (Z.of_N v) ma ea) in Hq by (lia || assumption).
    rewrite (F2R_scaled (Z.of_N T) mb eb) in Hq by (lia || assumption).
    rewrite (F2R_scaled 100 7036874417766400 (-46)) in Hp by (lia || reflexivity).
    apply (nearest_from_close _ _ _ (F2R (Z.pos mp) ep) HTz);
      [|apply round_half_up_spec; lia].
    apply two_roundings with (f := F2R (Z.pos mq) eq).
    + assert (0 < IZR (Z.of_N T)) by (apply IZR_lt; lia).
      assert (0 < IZR (Z.of_N v)) by (apply IZR_lt; lia).
      assert (IZR (Z.of_N v) <= IZR (Z.of_N T)) by (apply IZR_le; lia).
      split.
      * apply Rdiv_lt_0_compat; assumption.
      * apply Rmult_le_reg_r with (IZR (Z.of_N T)); [assumption|].
        unfold Rdiv. rewrite Rmult_assoc, Rinv_l by lra. lra.
    + apply F2R_pos.
    + apply F2R_pos.
    + eapply Rle_trans; [exact Hq|]. apply half_ulp_relative. lia.
    + eapply Rle_trans; [exact Hp|]. apply half_ulp_relative. lia.
Qed.

End percentage_correct.

(** ** Sums of byte counts in binary64 *)

Section addition.
Local Open Scope R_scope.

(** A real that is an integer multiple of the unit sits exactly on that
    multiple. *)
Lemma inb_integer (M m : Z) (u : R) (l : location) :
  0 < u → inb (IZR M * u) u m l → m = M ∧ l = loc_Exact.
Proof.
  intros Hu Hx. destruct l as [|[| |]]; cbn [inb] in Hx.
  - split; [|reflexivity]. apply Rmult_eq_reg_r in Hx; [|lra].
    apply eq_IZR in Hx. lia.
  - exfalso. apply Rmult_eq_reg_r in Hx; [|lra].
    assert (H : IZR (2 * M) = IZR (2 * m + 1)) by (rewrite plus_IZR, !mult_IZR; lra).
    apply eq_IZR in H. lia.
  - exfalso. destruct Hx as [H1 H2].
    apply Rmult_lt_reg_r in H1; [|exact Hu]. apply Rmult_lt_reg_r in H2; [|exact Hu].
    apply lt_IZR in H1. assert (H3 : (m + 1 <= M)%Z) by lia.
    apply IZR_le in H3. rewrite plus_IZR in H3. lra.
  - exfalso. destruct Hx as [H1 H2].
    apply Rmult_lt_reg_r in H1; [|exact Hu]. apply Rmult_lt_reg_r in H2; [|exact Hu].
    assert (H3 : IZR m < IZR M) by lra. apply lt_IZR in H3.
    assert (H4 : (m + 1 <= M)%Z) by lia.
    apply IZR_le in H4. rewrite plus_IZR in H4. lra.
Qed.

(** Rounding a mantissa of at least [53] digits whose value has a
    representation with [53] digits returns that representation. *)
Lemma binary_round_aux_representable s (m : Z) (e : Z) (M : positive) :
  (0 < m)%Z → (53 <= Zdigits2 m)%Z →
  (-1074 <= Zdigits2 m + e - 53 <= 971)%Z →
  (2 ^ 52 <= Zpos M < 2 ^ 53)%Z →
  IZR m * bpow e = IZR (Zpos M) * bpow (Zdigits2 m + e - 53) →
  binary_round_aux prec emax s m e loc_Exact = S754_finite s M (Zdigits2 m + e - 53).
Proof.
  intros Hm Hd He HM Hv.
  destruct (shr_fexp_inb (IZR m * bpow e) m e loc_Exact) as (mrs & E1 & Hm1 & Hx1);
    [lia|assumption|lia|reflexivity|].
  set (e1 := (Zdigits2 m + e - 53)%Z) in *.
  rewrite Hv in Hx1. apply inb_integer in Hx1 as [Hm2 Hl]; [|apply bpow_pos].
  unfold binary_round_aux. rewrite E1, Hm2, Hl. cbn [round_nearest_even].
  unfold shr_fexp. rewrite (Zdigits2_53 _ HM). rewrite fexp_normal by lia.
  replace (53 + e1 - 53 - e1)%Z with 0%Z by lia.
  cbn [shr shr_record_of_loc shr_m].
  replace (e1 <=? emax - prec)%Z with true
    by (symmetry; apply Z.leb_le; unfold emax, prec; lia).
  reflexivity.
Qed.

Lemma Zdigits2_scaled (n k : Z) :
  (0 < n)%Z → (0 <= k)%Z → Zdigits2 (n * 2 ^ k) = (Zdigits2 n + k)%Z.
Proof.
  intros Hn Hk. pose proof (Zdigits2_bounds n Hn) as [Hl Hu].
  assert (Hd : (0 < Zdigits2 n)%Z) by (destruct n; simpl; lia).
  assert (Hp : (0 < 2 ^ k)%Z) by (apply Z.pow_pos_nonneg; lia).
  destruct (n * 2 ^ k)%Z as [|p|p] eqn:Ep; [nia| |nia].
  cbn [Zdigits2]. apply digits2_pos_unique. rewrite <- Ep.
  replace (Zdigits2 n + k - 1)%Z with ((Zdigits2 n - 1) + k)%Z by lia.
  rewrite !Z.pow_add_r by lia. split; [apply Z.mul_le_mono_nonneg_r; lia|].
  apply Z.mul_lt_mono_pos_r; lia.
Qed.

(** The binary64 value of [n * 2^k * 2^-k] is that of [n]. *)
Lemma binary_normalize_scaled (n k : Z) :
  (0 < n < 2 ^ 53)%Z → (0 <= k)%Z → (53 <= Zdigits2 n + k)%Z →
  binary_normalize prec emax (n * 2 ^ k) (- k) false = Z2SF n.
Proof.
  intros Hn Hk Hd.
  destruct (Z2SF_exact n Hn) as (M & e & EM & HM & He & Hv). rewrite EM.
  assert (Hdn : (0 < Zdigits2 n <= 53)%Z).
  { split; [destruct n; simpl; lia|]. apply Zdigits2_upper. lia. }
  pose proof (Zdigits2_scaled n k ltac:(lia) Hk) as Hds.
  assert (Hp : (0 < 2 ^ k)%Z) by (apply Z.pow_pos_nonneg; lia).
  destruct (n * 2 ^ k)%Z as [|p|p] eqn:Ep; [nia| |nia].
  unfold binary_normalize, binary_round.
  change (Z.pos (digits2_pos p)) with (Zdigits2 (Zpos p)). rewrite Hds.
  rewrite fexp_normal by lia. unfold shl_align.
  destruct (Zdigits2 n + k + - k - 53 - - k)%Z as [|q|q] eqn:Eq; [| |lia].
  - rewrite (binary_round_aux_representable false (Zpos p) (- k) M); rewrite ?Hds;
      try lia; try assumption.
    + f_equal. lia.
    + rewrite <- Ep, mult_IZR, IZR_pow2 by lia.
      rewrite Rmult_assoc, <- bpow_plus. replace (k + - k)%Z with 0%Z by lia.
      replace (Zdigits2 n + k + - k - 53)%Z with e by lia.
      change (IZR (Z.pos M) * bpow e) with (F2R (Zpos M) e).
      rewrite (F2R_scaled n M e) by (lia || assumption). unfold bpow. simpl. ring.
  - rewrite (binary_round_aux_representable false (Zpos p) (- k) M); rewrite ?Hds;
      try lia; try assumption.
    + f_equal. lia.
    + rewrite <- Ep, mult_IZR, IZR_pow2 by lia.
      rewrite Rmult_assoc, <- bpow_plus. replace (k + - k)%Z with 0%Z by lia.
      replace (Zdigits2 n + k + - k - 53)%Z with e by lia.
      change (IZR (Z.pos M) * bpow e) with (F2R (Zpos M) e).
      rewrite (F2R_scaled n M e) by (lia || assumption). unfold bpow. simpl. ring.
Qed.

End addition.

Lemma shl_align_value (mx : positive) (ex ez : Z) :
  (ez <= ex)%Z → Zpos (fst (shl_align mx ex ez)) = (Zpos mx * 2 ^ (ex - ez))%Z.
Proof.
  intros Hle. unfold shl_align. destruct (ez - ex)%Z as [|d|d] eqn:Ed; [|lia|].
  - replace (ex - ez)%Z with 0%Z by lia. cbn [fst]. lia.
  - cbn [fst]. rewrite iter_xO_value. f_equal. f_equal. lia.
Qed.

Lemma Zdigits2_mono (a b : Z) : (0 < a <= b)%Z → (Zdigits2 a <= Zdigits2 b)%Z.
Proof.
  intros Hab. apply Zdigits2_upper. split; [lia|].
  pose proof (Zdigits2_bounds b ltac:(lia)). lia.
Qed.

(** The sum of two integers is computed exactly as long as it stays below
    [2^53]. *)
Lemma add_exact (a b : Z) :
  0 <= a → 0 <= b → a + b < 2 ^ 53 →
  add (Z2SF a) (Z2SF b) = Z2SF (a + b).
Proof.
  intros Ha Hb Hab.
  destruct (Z.eq_dec a 0) as [->|Ha0].
  - change (Z2SF 0) with (S754_zero false). rewrite Z.add_0_l.
    destruct (Z.eq_dec b 0) as [->|Hb0]; [reflexivity|].
    destruct (Z2SF_exact b) as (mb & eb & Eb & _); [lia|]. rewrite Eb. reflexivity.
  - destruct (Z2SF_exact a) as (ma & ea & Ea & Hma & Hea & Hva); [lia|].
    destruct (Z.eq_dec b 0) as [->|Hb0].
    + change (Z2SF 0) with (S754_zero false). rewrite Z.add_0_r, Ea. reflexivity.
    + destruct (Z2SF_exact b) as (mb & eb & Eb & Hmb & Heb & Hvb); [lia|].
      rewrite Ea, Eb. unfold add, SFadd. cbv zeta.
      change (IntDef.Z.min ea eb) with (Z.min ea eb).
      set (ez := Z.min ea eb).
      assert (Hda : (0 < Zdigits2 a <= Zdigits2 (a + b))%Z).
      { split; [destruct a; simpl; lia|apply Zdigits2_mono; lia]. }
      assert (Hdb : (0 < Zdigits2 b <= Zdigits2 (a + b))%Z).
      { split; [destruct b; simpl; lia|apply Zdigits2_mono; lia]. }
      assert (Hd53 : (Zdigits2 (a + b) <= 53)%Z) by (apply Zdigits2_upper; lia).
      rewrite !shl_align_value by lia. cbn [cond_Zopp].
      rewrite Hva, Hvb.
      replace (a * 2 ^ (- ea) * 2 ^ (ea - ez) + b * 2 ^ (- eb) * 2 ^ (eb - ez))%Z
        with ((a + b) * 2 ^ (- ez))%Z.
      * replace ez with (- - ez)%Z at 2 by lia.
        apply binary_normalize_scaled; lia.
      * rewrite <- !Z.mul_assoc, <- !Z.pow_add_r by lia.
        replace (- ea + (ea - ez))%Z with (- ez)%Z by lia.
        replace (- eb + (eb - ez))%Z with (- ez)%Z by lia. ring.
Qed.

(** ** The accumulation in binary64 *)

Section accumulate_facts.
Implicit Types (o : jsobj N) (stats : jsobj slot) (lang : string) (repos : list Repository).

Lemma N2SF_add (a b : N) : (a + b < 2 ^ 53)%N → add (N2SF a) (N2SF b) = N2SF (a + b).
Proof.
  intros Hab. unfold N2SF. rewrite N2Z.inj_add. apply add_exact; [lia..|].
  change (2 ^ 53) with (Z.of_N (2 ^ 53)). lia.
Qed.

Lemma or_zero_N2SF (a : N) : (a < 2 ^ 53)%N → or_zero (N2SF a) = N2SF a.
Proof.
  intros Ha. destruct (N.eq_dec a 0%N) as [->|Hne]; [reflexivity|].
  destruct (Z2SF_exact (Z.of_N a)) as (m & e & E & _).
  { split; [lia|]. change (2 ^ 53) with (Z.of_N (2 ^ 53)). lia. }
  unfold N2SF. rewrite E. reflexivity.
Qed.

Lemma obj_get_as_numbers lang o :
  obj_get lang (as_numbers o) = (λ v, Num (N2SF v)) <$> obj_get lang o.
Proof.
  induction o as [|[k v] o IH]; [reflexivity|]. cbn [as_numbers map obj_get].
  destruct (decide (lang = k)); [reflexivity|exact IH].
Qed.

Lemma obj_update_as_numbers lang (v : N) o :
  obj_update lang (Num (N2SF v)) (as_numbers o) = as_numbers (obj_update lang v o).
Proof.
  induction o as [|[k x] o IH]; [reflexivity|]. cbn [as_numbers map obj_update].
  destruct (decide (lang = k)); cbn [map]; [reflexivity|].
  f_equal. exact IH.
Qed.

Lemma obj_create_as_numbers lang (v : N) o :
  obj_create lang (Num (N2SF v)) (as_numbers o) = as_numbers (obj_create lang v o).
Proof.
  induction o as [|[k x] o IH]; [reflexivity|]. cbn [as_numbers map obj_create].
  destruct (stays_before lang k); cbn [map]; [|reflexivity].
  f_equal. exact IH.
Qed.

Lemma obj_set_as_numbers lang (v : N) o :
  obj_set lang (Num (N2SF v)) (as_numbers o) = as_numbers (obj_set lang v o).
Proof.
  unfold obj_set. rewrite obj_get_as_numbers.
  destruct (obj_get lang o); cbn [fmap option_fmap option_map].
  - apply obj_update_as_numbers.
  - apply obj_create_as_numbers.
Qed.

Lemma inherited_proto lang : inherited lang = false → lang ≠ "__proto__".
Proof.
  unfold inherited. intros H ->. apply bool_decide_eq_false in H. apply H.
  unfold Object_prototype. set_solver.
Qed.

Lemma amount_le_sumN lang o : (amount lang o <= sumN o.*2)%N.
Proof.
  unfold amount. induction o as [|[k v] o IH]; [cbn; lia|].
  rewrite fmap_cons, sumN_cons. cbn [obj_get snd].
  destruct (decide (lang = k)); [simpl; lia|]. etransitivity; [exact IH|lia].
Qed.

(** One step of the accumulation is the exact step as long as the name is
    an own property and the sum stays below [2^53]. *)
Lemma add_language_as_numbers lang (v : N) o :
  inherited lang = false → (amount lang o + v < 2 ^ 53)%N →
  add_language (as_numbers o) (lang, v) = as_numbers (tally_language o (lang, v)).
Proof.
  intros Hown Hlt. unfold add_language, tally_language, stats_get, stats_set.
  rewrite decide_False by (apply inherited_proto, Hown).
  rewrite obj_get_as_numbers, Hown. unfold amount in Hlt.
  destruct (obj_get lang o) as [x|]; simpl in Hlt;
    cbn [fmap option_fmap option_map default from_option increment]; unfold id.
  - rewrite or_zero_N2SF by lia. rewrite N2SF_add by exact Hlt.
    apply obj_set_as_numbers.
  - change (Z2SF 0) with (N2SF 0%N). rewrite N2SF_add by exact Hlt.
    apply obj_set_as_numbers.
Qed.

Lemma add_repo_as_numbers (entries : jsobj N) o :
  Forall (λ lang, inherited lang = false) entries.*1 →
  (sumN o.*2 + sumN entries.*2 < 2 ^ 53)%N →
  fold_left add_language entries (as_numbers o)
  = as_numbers (fold_left tally_language entries o).
Proof.
  revert o. induction entries as [|[k v] entries IH]; intros o Hown Hlt; [reflexivity|].
  rewrite fmap_cons in Hown. apply Forall_cons in Hown as [Hk Hown].
  rewrite fmap_cons, sumN_cons in Hlt. cbn [snd] in Hlt.
  cbn [fold_left]. pose proof (amount_le_sumN k o).
  rewrite add_language_as_numbers by (assumption || lia).
  apply IH; [exact Hown|].
  rewrite (sumN_tally_language o (k, v)). cbn [snd]. lia.
Qed.

Lemma accumulate_from_as_numbers repos o :
  Forall (λ lang, inherited lang = false) (language_names repos) →
  (sumN o.*2 + all_bytes repos < 2 ^ 53)%N →
  fold_left add_repo repos (as_numbers o) = as_numbers (fold_left tally_repo repos o).
Proof.
  revert o. induction repos as [|repo repos IH]; intros o Hown Hlt; [reflexivity|].
  unfold language_names in Hown. cbn [map concat] in Hown.
  apply Forall_app in Hown as [Hrepo Hown].
  cbn [all_bytes foldr] in Hlt. fold (all_bytes repos) in Hlt.
  cbn [fold_left]. unfold add_repo at 2, tally_repo at 2, Object_entries.
  rewrite add_repo_as_numbers by (assumption || lia).
  apply IH; [exact Hown|].
  destruct (tally_repo_spec repo o) as (_ & Hs & _). unfold tally_repo in Hs.
  rewrite Hs. lia.
Qed.

(** Over own names and below [2^53] the accumulator holds the binary64
    values of the exact sums. *)
Lemma accumulate_as_numbers repos :
  own_names repos → (all_bytes repos < 2 ^ 53)%N →
  accumulate repos = as_numbers (tally repos).
Proof.
  intros Hown Hlt. apply (accumulate_from_as_numbers repos []); [exact Hown|].
  cbn. lia.
Qed.

Lemma values_as_numbers o : (as_numbers o).*2 = (λ v, Num (N2SF v)) <$> o.*2.
Proof.
  induction o as [|[k v] o IH]; [reflexivity|]. cbn [as_numbers map].
  rewrite !fmap_cons. cbn [snd]. f_equal. exact IH.
Qed.

Lemma keys_as_numbers o : (as_numbers o).*1 = o.*1.
Proof.
  induction o as [|[k v] o IH]; [reflexivity|]. cbn [as_numbers map].
  rewrite !fmap_cons. cbn [fst]. f_equal. exact IH.
Qed.

Lemma fold_plus_numbers (l : list N) (acc : N) :
  (acc + sumN l < 2 ^ 53)%N →
  fold_left plus ((λ v, Num (N2SF v)) <$> l) (Num (N2SF acc)) = Num (N2SF (acc + sumN l)).
Proof.
  revert acc. induction l as [|x l IH]; intros acc Hlt.
  - cbn. rewrite N.add_0_r. reflexivity.
  - rewrite fmap_cons, sumN_cons in *. cbn [fold_left plus].
    rewrite N2SF_add by lia. rewrite IH by lia. f_equal. f_equal. lia.
Qed.

Lemma grand_total_as_numbers o :
  (sumN o.*2 < 2 ^ 53)%N → grand_total (as_numbers o) = Num (N2SF (sumN o.*2)).
Proof.
  intros Hlt. unfold grand_total, Object_values. rewrite values_as_numbers.
  change (Z2SF 0) with (N2SF 0%N). rewrite fold_plus_numbers by lia. reflexivity.
Qed.

(** The aggregation over own names and below [2^53], in exact terms. *)
Lemma languageStats_exact repos :
  own_names repos → (all_bytes repos < 2 ^ 53)%N →
  languageStats repos
  = map (λ '(lang, v),
          {| name := lang; value := rounded_share v (all_bytes repos);
             color := color_of lang |})
      (tally repos).
Proof.
  intros Hown Hlt. destruct (tally_spec repos) as (_ & _ & _ & Ht).
  unfold languageStats, Object_entries.
  rewrite accumulate_as_numbers by assumption.
  rewrite grand_total_as_numbers by (rewrite Ht; exact Hlt). rewrite Ht. clear Ht.
  generalize (all_bytes repos) as T. intros T.
  induction (tally repos) as [|[k v] o IH]; [reflexivity|].
  cbn [as_numbers map]. f_equal. exact IH.
Qed.

End accumulate_facts.

(** ** The percentages of the aggregator *)

Section aggregator_correct.
Local Open Scope R_scope.

Lemma elem_of_le_sumN (k : string) (v : N) (o : jsobj N) :
  (k, v) ∈ o → (v <= sumN o.*2)%N.
Proof.
  unfold sumN. induction o as [|[k1 v1] o IH]; intros Hin; [inversion Hin|].
  rewrite fmap_cons. cbn [foldr snd]. apply elem_of_cons in Hin as [E|Hin].
  - inversion E; subst. lia.
  - specialize (IH Hin). lia.
Qed.

Lemma nearest_real (z s T : Z) :
  (0 < T)%Z →
  ((2 * z - 1) * T <= 200 * s <= (2 * z + 1) * T)%Z →
  Rabs (IZR z - 100 * IZR s / IZR T) <= / 2.
Proof.
  intros HT [H1 H2]. assert (HTr : 0 < IZR T) by (apply IZR_lt; exact HT).
  apply IZR_le in H1, H2.
  rewrite !mult_IZR, minus_IZR, mult_IZR in H1. rewrite !mult_IZR, plus_IZR, mult_IZR in H2.
  apply Rabs_le. split.
  - apply Rmult_le_reg_r with (2 * IZR T); [lra|].
    replace ((IZR z - 100 * IZR s / IZR T) * (2 * IZR T))
      with (2 * IZR z * IZR T - 200 * IZR s) by (field; lra).
    lra.
  - apply Rmult_le_reg_r with (2 * IZR T); [lra|].
    replace ((IZR z - 100 * IZR s / IZR T) * (2 * IZR T))
      with (2 * IZR z * IZR T - 200 * IZR s) by (field; lra).
    lra.
Qed.

Lemma nearest_not_tie (tie : tie_rule) (z : Z) (s T : N) :
  (0 < T)%N →
  ((2 * z - 1) * Z.of_N T <= 200 * Z.of_N s <= (2 * z + 1) * Z.of_N T)%Z →
  ¬ is_tie s T → z = round_exact tie s T.
Proof.
  intros HT [H1 H2] Hn. unfold is_tie, round_exact in *.
  pose proof (Z.div_mod (100 * Z.of_N s) (Z.of_N T) ltac:(lia)) as Hdm.
  pose proof (Z.mod_pos_bound (100 * Z.of_N s) (Z.of_N T) ltac:(lia)) as Hmod.
  set (q := ((100 * Z.of_N s) `div` Z.of_N T)%Z) in *.
  set (r := ((100 * Z.of_N s) `mod` Z.of_N T)%Z) in *.
  destruct (Z.compare_spec (2 * r) (Z.of_N T)) as [E|Hlt|Hgt]; [contradiction| |]; nia.
Qed.

End aggregator_correct.

Lemma languageStats_names repos : name <$> languageStats repos = (accumulate repos).*1.
Proof.
  unfold languageStats, Object_entries.
  generalize (grand_total (accumulate repos)) as total. intros total.
  induction (accumulate repos) as [|[k v] o IH]; [reflexivity|].
  cbn [map]. rewrite !fmap_cons. cbn [name fst]. f_equal. exact IH.
Qed.

Lemma languageStats_own_names repos :
  own_names repos → (all_bytes repos < 2 ^ 53)%N →
  name <$> languageStats repos = (tally repos).*1.
Proof.
  intros Hown Hlt. rewrite languageStats_names, accumulate_as_numbers by assumption.
  apply keys_as_numbers.
Qed.

Lemma elem_of_languageStats repos st :
  own_names repos → (all_bytes repos < 2 ^ 53)%N →
  st ∈ languageStats repos →
  ∃ v, (name st, v) ∈ tally repos
       ∧ value st = rounded_share v (all_bytes repos)
       ∧ color st = color_of (name st).
Proof.
  intros Hown Hlt. rewrite languageStats_exact by assumption. intros Hin.
  apply list_elem_of_In, in_map_iff in Hin as ([k v] & <- & Hin).
  apply list_elem_of_In in Hin. exists v. cbn [name value color]. auto.
Qed.

(** An entry of the aggregation over own names and a total below [2^44]:
    its colour and its percentage, an integer within a half of the exact
    share. *)
Lemma languageStats_entry repos st :
  own_names repos →
  (0 < all_bytes repos < 2 ^ 44)%N →
  st ∈ languageStats repos →
  let s := language_total (name st) repos in
  color st = color_of (name st)
  ∧ value st = rounded_share s (all_bytes repos)
  ∧ (s <= all_bytes repos)%N
  ∧ ∃ z : Z,
      value st = Z2SF z
      ∧ (2 * z - 1) * Z.of_N (all_bytes repos) <= 200 * Z.of_N s
        <= (2 * z + 1) * Z.of_N (all_bytes repos).
Proof.
  intros Hown HT Hin s. destruct (tally_spec repos) as (Hnd & Hk & Hv & Ht).
  assert (H53 : (all_bytes repos < 2 ^ 53)%N).
  { eapply N.lt_trans; [apply HT|]. reflexivity. }
  destruct (elem_of_languageStats repos st Hown H53 Hin) as (v & Hin' & Hval & Hcol).
  pose proof (Hv _ _ Hin') as ->. fold s in Hval.
  split; [exact Hcol|]. split; [exact Hval|].
  assert (Hle : (s <= all_bytes repos)%N).
  { rewrite <- Ht. apply (elem_of_le_sumN (name st)). exact Hin'. }
  split; [exact Hle|].
  destruct (percentage_nearest s (all_bytes repos)) as (z & Hz & Hnear); [lia..|].
  exists z. split; [rewrite Hval; exact Hz|exact Hnear].
Qed.

(** In binary64 the product of [29 / 200] by [100] is
    [(29 * 2^48 - 1) * 2^-49], that is [14.5 - 2^-49] (JavaScript prints
    [29 / 200 * 100] as [14.499999999999998]), which [Math.round] takes to
    [14]; the product of [1 / 200] by [100] is [2^52 * 2^-53], that is
    [0.5], which it takes to [1]. *)
Lemma tie_products :
  mul (div (Z2SF 29) (Z2SF 200)) (Z2SF 100) = S754_finite false 8162774324609023 (-49)
  ∧ (8162774324609023 = 29 * 2 ^ 48 - 1)%Z
  ∧ Math_round (S754_finite false 8162774324609023 (-49)) = Z2SF 14
  ∧ mul (div (Z2SF 1) (Z2SF 200)) (Z2SF 100) = S754_finite false 4503599627370496 (-53)
  ∧ (4503599627370496 = 2 ^ 52)%Z
  ∧ Math_round (S754_finite false 4503599627370496 (-53)) = Z2SF 1.
Proof. repeat split; reflexivity. Qed.

(** C3 fails as stated: the shares of [A], [B] and [C] in [tie_repos] are
    14.5, 0.5 and 85; the aggregation returns 14, 1 and 85, so that, however
    a tie of the exact rounding is resolved, some entry differs from the
    exact rounding: the tie of [A] is rounded down, that of [B] up. *)
Lemma tie_percentages_follow_no_rule :
  let out := languageStats tie_repos in
  all_bytes tie_repos = 200%N
  ∧ name <$> out = ["A"; "B"; "C"]
  ∧ value <$> out = [Z2SF 14; Z2SF 1; Z2SF 85]
  ∧ ∀ tie, ∃ st, st ∈ out
                 ∧ value st ≠ Z2SF (round_exact tie (language_total (name st) tie_repos)
                                      (all_bytes tie_repos)).
Proof.
  intros out. split; [reflexivity|]. split; [reflexivity|]. split; [reflexivity|].
  intros tie.
  assert (HA : {| name := "A"; value := Z2SF 14; color := "#6e7681" |} ∈ out)
    by (vm_compute; left).
  assert (HB : {| name := "B"; value := Z2SF 1; color := "#6e7681" |} ∈ out)
    by (vm_compute; right; left).
  destruct tie; [eexists; split; [exact HA|]|eexists; split; [exact HB|]
                |eexists; split; [exact HB|]|eexists; split; [exact HA|]];
    vm_compute; discriminate.
Qed.

(** C3, amended: for every repository sequence in which no language is
    named like a member of [Object.prototype] and whose byte counts have a
    positive grand total below [2^44], the aggregation returns exactly one
    entry per distinct language name; the colour of an entry is the one the
    fixed table gives for its name, the neutral gray [#6e7681] when the
    table has none; its percentage is [Math.round((sum / total) * 100)]
    evaluated in binary64, an integer from 0 to 100 within one half of the
    exact share
    [100 * sum / total], hence the exact rounding of that share unless the
    share lies halfway between two integers, where either neighbour may be
    returned. *)
Theorem languageStats_one_entry_per_language repos :
  own_names repos →
  (0 < all_bytes repos < 2 ^ 44)%N →
  let out := languageStats repos in
  NoDup (name <$> out)
  ∧ (∀ lang, lang ∈ name <$> out ↔
             ∃ repo, repo ∈ repos ∧ lang ∈ Object_keys (languages repo))
  ∧ (∀ st, st ∈ out →
       let s := language_total (name st) repos in
       color st = default "#6e7681" (obj_get (name st) stats_colors)
       ∧ value st = Math_round (mul (div (N2SF s) (N2SF (all_bytes repos))) (Z2SF 100))
       ∧ ∃ z : Z,
           value st = Z2SF z
           ∧ 0 <= z <= 100
           ∧ (Rabs (IZR z - exact_share s (all_bytes repos)) <= / 2)%R
           ∧ (∀ tie, ¬ is_tie s (all_bytes repos) →
                     z = round_exact tie s (all_bytes repos))).
Proof.
  intros Hown HT out. destruct (tally_spec repos) as (Hnd & Hk & Hv & Ht).
  assert (H53 : (all_bytes repos < 2 ^ 53)%N).
  { eapply N.lt_trans; [apply HT|]. reflexivity. }
  split; [|split].
  - subst out. rewrite languageStats_own_names by assumption. exact Hnd.
  - intros lang. subst out. rewrite languageStats_own_names by assumption. apply Hk.
  - intros st Hin s.
    destruct (languageStats_entry repos st Hown HT Hin)
      as (Hcol & Hval & Hle & z & Hz & Hnear).
    fold s in Hval, Hnear, Hle.
    split; [rewrite Hcol; apply color_of_table|]. split; [exact Hval|].
    exists z. split; [exact Hz|]. split; [nia|]. split.
    + unfold exact_share. apply nearest_real; [lia|exact Hnear].
    + intros tie. apply nearest_not_tie; [lia|exact Hnear].
Qed.

Lemma languageStats_one_entry_per_language_witness :
  NoDup (name <$> languageStats tie_repos).
Proof.
  destruct (languageStats_one_entry_per_language tie_repos) as (Hnd & _).
  - repeat constructor.
  - split; reflexivity.
  - exact Hnd.
Defined.

(** ** Properties of the aggregator *)

(** C5: the aggregation of the empty repository sequence is the empty
    sequence, its grand total being zero: no entry is mapped, so that the
    division by the total is never evaluated. *)
Theorem languageStats_nil :
  languageStats [] = [] ∧ grand_total (accumulate []) = Num (Z2SF 0).
Proof. split; reflexivity. Qed.

(** C9: for the single repository [{A: 0}] the aggregation returns one entry,
    for [A], whose percentage is NaN (the quotient 0/0, which nothing
    guards); the per-card computation does the same for the language map
    [{A: 0}].  The result is empty only when no language name occurs, as for
    a repository without languages. *)
Theorem languageStats_zero_bytes_nan :
  (∃ st, languageStats [mkRepo "r" [("A", 0%N)]] = [st]
         ∧ name st = "A" ∧ is_nan (value st) = true)
  ∧ (∃ st, languageData [("A", 0%N)] = [st]
           ∧ name st = "A" ∧ is_nan (value st) = true)
  ∧ div (N2SF 0) (N2SF 0) = S754_nan
  ∧ languageStats [mkRepo "r" []] = []
  ∧ languageData [] = [].
Proof.
  split; [|split; [|split; [|split]]]; try reflexivity;
    eexists; (split; [vm_compute; reflexivity | split; reflexivity]).
Qed.

(** ** The sum of the percentages *)

Section percentage_sum.
Local Open Scope R_scope.

Lemma sumR_shares (o : jsobj N) (T : N) :
  (0 < T)%N →
  sumR (map (λ entry, exact_share entry.2 T) o) = exact_share (sumN o.*2) T.
Proof.
  intros HT. assert (0 < IZR (Z.of_N T)) by (apply IZR_lt; lia).
  induction o as [|[k v] o IH].
  - unfold exact_share. cbn. unfold Rdiv. ring.
  - rewrite (fmap_cons snd), sumN_cons. cbn [map snd].
    change (sumR (?x :: ?l)) with (x + sumR l). rewrite IH.
    unfold exact_share. rewrite N2Z.inj_add, plus_IZR. field. lra.
Qed.

Lemma exact_share_total (T : N) : (0 < T)%N → exact_share T T = 100.
Proof.
  intros HT. assert (0 < IZR (Z.of_N T)) by (apply IZR_lt; lia).
  unfold exact_share. field. lra.
Qed.

Lemma sum_of_nearest (zs : list Z) (shares : list R) :
  Forall2 (λ z share, Rabs (IZR z - share) <= / 2) zs shares →
  Rabs (IZR (sumZ zs) - sumR shares) <= INR (length shares) / 2.
Proof.
  induction 1 as [|z share zs shares Hz Hall IH].
  - cbn. rewrite Rminus_diag, Rabs_R0. lra.
  - cbn [sumZ sumR foldr length]. fold (sumZ zs). fold (sumR shares).
    rewrite plus_IZR, S_INR.
    replace (IZR z + IZR (sumZ zs) - (share + sumR shares))
      with ((IZR z - share) + (IZR (sumZ zs) - sumR shares)) by ring.
    eapply Rle_trans; [apply Rabs_triang|]. lra.
Qed.

Lemma Forall2_of_pointwise {A B} (P : A → B → Prop) (l : list A) :
  (∀ x, x ∈ l → ∃ y, P x y) → ∃ k, Forall2 P l k.
Proof.
  induction l as [|x l IH]; intros H.
  - exists []. constructor.
  - destruct (H x) as [y Hy]; [left|].
    destruct IH as [k Hk]; [intros x' Hx'; apply H; right; exact Hx'|].
    exists (y :: k). constructor; assumption.
Qed.

End percentage_sum.

(** C4 fails as stated: in [huge_repos] the share of [A] is below 81.5 by
    less than [10^-14]; the aggregation returns 82 for it, farther than one
    half from the share. *)
Lemma huge_total_percentage_off_by_more_than_half :
  let out := languageStats huge_repos in
  (0 < all_bytes huge_repos < 2 ^ 53)%N
  ∧ name <$> out = ["A"; "B"]
  ∧ value <$> out = [Z2SF 82; Z2SF 19]
  ∧ Z2SF 82 ≠ Z2SF 81
  ∧ language_total "A" huge_repos = 53488779720986%N
  ∧ (/ 2 < Rabs (IZR 82 - exact_share (language_total "A" huge_repos) (all_bytes huge_repos)))%R.
Proof.
  intros out. split; [split; reflexivity|]. split; [reflexivity|].
  split; [vm_compute; reflexivity|]. split; [vm_compute; discriminate|].
  split; [reflexivity|].
  change (language_total "A" huge_repos) with 53488779720986%N.
  change (all_bytes huge_repos) with 65630404565627%N.
  unfold exact_share. cbn [Z.of_N].
  rewrite Rabs_pos_eq; lra.
Qed.

(** C4, amended: for every aggregation input in which no language is named
    like a member of [Object.prototype], with a positive grand total below
    [2^44] and [k] entries, the exact shares sum to exactly 100, every
    returned percentage is an integer within one half of its exact share,
    and the sum of the returned percentages is within [k / 2] of 100.  No
    correction makes that sum equal to 100: three languages of equal size
    get 33 each, 99 in all. *)
Theorem percentages_sum_near_100 :
  (∀ repos,
     own_names repos →
     (0 < all_bytes repos < 2 ^ 44)%N →
     let out := languageStats repos in
     let shares :=
       map (λ st, exact_share (language_total (name st) repos) (all_bytes repos)) out in
     sumR shares = 100%R
     ∧ ∃ zs : list Z,
         value <$> out = Z2SF <$> zs
         ∧ Forall2 (λ z share, Rabs (IZR z - share) <= / 2)%R zs shares
         ∧ (Rabs (IZR (sumZ zs) - 100) <= INR (length out) / 2)%R)
  ∧ (∃ repos zs,
       own_names repos
       ∧ (0 < all_bytes repos < 2 ^ 44)%N
       ∧ value <$> languageStats repos = Z2SF <$> zs
       ∧ sumZ zs = 99).
Proof.
  split.
  - intros repos Hown HT out shares.
    destruct (tally_spec repos) as (Hnd & Hk & Hv & Ht).
    assert (H53 : (all_bytes repos < 2 ^ 53)%N).
    { eapply N.lt_trans; [apply HT|]. reflexivity. }
    assert (Hshares : shares = map (λ entry, exact_share entry.2 (all_bytes repos))
                                   (tally repos)).
    { subst shares out. rewrite languageStats_exact by assumption. rewrite map_map.
      apply map_ext_in. intros [k v] Hin. cbn [name snd].
      apply list_elem_of_In in Hin. rewrite <- (Hv _ _ Hin). reflexivity. }
    assert (Hsum : sumR shares = 100%R).
    { rewrite Hshares, sumR_shares by lia.
      rewrite Ht. apply exact_share_total. lia. }
    split; [exact Hsum|].
    destruct (Forall2_of_pointwise
                (λ st z, value st = Z2SF z
                         ∧ (Rabs (IZR z - exact_share (language_total (name st) repos)
                                             (all_bytes repos)) <= / 2)%R) out)
      as [zs Hzs].
    { intros st Hin.
      destruct (languageStats_entry repos st Hown HT Hin) as (_ & _ & _ & z & Hz & Hnear).
      exists z. split; [exact Hz|].
      unfold exact_share. apply nearest_real; [lia|exact Hnear]. }
    exists zs.
    assert (Hvals : value <$> out = Z2SF <$> zs).
    { clear -Hzs. induction Hzs as [|st z out zs [Hz _] _ IH]; [reflexivity|].
      rewrite !fmap_cons. f_equal; assumption. }
    assert (Hnear : Forall2 (λ z share, Rabs (IZR z - share) <= / 2)%R zs shares).
    { subst shares. clear -Hzs. induction Hzs as [|st z out zs [_ Hz] _ IH]; cbn [map].
      - constructor.
      - constructor; assumption. }
    split; [exact Hvals|]. split; [exact Hnear|].
    rewrite <- Hsum.
    replace (length out) with (length shares) by (subst shares; apply length_map).
    apply sum_of_nearest. exact Hnear.
  - exists thirds_repos, [33; 33; 33].
    split; [repeat constructor|]. split; [split; reflexivity|]. split; reflexivity.
Qed.

Lemma percentages_sum_near_100_witness :
  sumR (map (λ st, exact_share (language_total (name st) thirds_repos)
                     (all_bytes thirds_repos))
            (languageStats thirds_repos)) = 100%R.
Proof.
  destruct percentages_sum_near_100 as (Hall & _).
  destruct (Hall thirds_repos) as (Hsum & _).
  - repeat constructor.
  - split; reflexivity.
  - exact Hsum.
Defined.

(** ** Reasoning about handlers *)

Ltac unfold_M :=
  unfold run, finally, try_catch, throw, await, send, show_toast, getItem, setItem,
    modify_ui, read_ui, mbind, M_bind, mret, M_ret in *.

(** ** Auxiliary requests of the provider client *)

Lemma fetchRepoLanguages_failed net full :
  failed (get_languages net full) → fetchRepoLanguages net full = [].
Proof.
  unfold fetchRepoLanguages.
  destruct (get_languages net full) as [[[langs|e]|st b]|e]; simpl; tauto.
Qed.

Lemma fetchLastCommit_failed net full :
  failed (get_commits net full) → fetchLastCommit net full = None.
Proof.
  unfold fetchLastCommit.
  destruct (get_commits net full) as [[[cs|e]|st b]|e]; simpl; tauto.
Qed.

Lemma fetchReadmeContent_failed net full :
  failed (get_readme net full) → fetchReadmeContent net full = None.
Proof.
  unfold fetchReadmeContent.
  destruct (get_readme net full) as [[[text|e]|st b]|e]; simpl; tauto.
Qed.

(** C6: when the listing of the repositories succeeds, the client returns
    one record per listed repository, in order, whatever the auxiliary
    requests do; a failed request for the languages gives the empty language
    map, a failed request for the latest commit an absent commit, and a
    failed request for the README an absent excerpt, while an answered
    request for the languages gives the map of the answer. *)
Theorem auxiliary_failures_degrade (net : Network) (org : string) (raws : list RawRepo) :
  get_org_repos net org = Returns (Ok (Returns raws)) →
  ∃ repos,
    fetchOrganizationRepos net org = Returns repos
    ∧ Forall2 (λ raw repo,
                 repo_name repo = raw_name raw
                 ∧ repo_url repo = raw_html_url raw
                 ∧ (failed (get_languages net (raw_full_name raw)) → languages repo = [])
                 ∧ (failed (get_commits net (raw_full_name raw)) → lastCommit repo = None)
                 ∧ (failed (get_readme net (raw_full_name raw)) → readmeContent repo = None)
                 ∧ (∀ langs, get_languages net (raw_full_name raw) = Returns (Ok (Returns langs)) →
                             languages repo = langs))
              raws repos.
Proof.
  intros Hl. exists (map (build_repo net) raws). split.
  - unfold fetchOrganizationRepos. rewrite Hl. reflexivity.
  - clear Hl. induction raws as [|raw raws IH]; simpl; constructor; [|exact IH].
    simpl. repeat split.
    + apply fetchRepoLanguages_failed.
    + apply fetchLastCommit_failed.
    + apply fetchReadmeContent_failed.
    + intros langs E. unfold fetchRepoLanguages. rewrite E. reflexivity.
Qed.

Lemma auxiliary_failures_degrade_witness :
  ∃ repo,
    fetchOrganizationRepos degraded_net "G2HackFest" = Returns [repo]
    ∧ languages repo = [] ∧ lastCommit repo = None.
Proof.
  destruct (auxiliary_failures_degrade degraded_net "G2HackFest" [web_raw] eq_refl)
    as (repos & Hr & Hall).
  inversion Hall as [|raw repo raws' repos' (_ & _ & Hlang & Hcommit & _) Htail]; subst.
  inversion Htail; subst.
  exists repo. split; [exact Hr|]. split; [apply Hlang|apply Hcommit]; exact I.
Defined.

(** ** The freshness contract *)

Lemma isFresh_spec capturedAt now ttl :
  isFresh capturedAt now ttl = true ↔ now - capturedAt < ttl.
Proof. unfold isFresh. apply Z.ltb_lt. Qed.

Lemma truthy_true s : s ≠ EmptyString → truthy s = true.
Proof. intros Hs. unfold truthy. rewrite bool_decide_eq_false_2; [reflexivity|exact Hs]. Qed.

Lemma cache_usable_payload `{TS : Timestamps} {S} pk tk ttl now (w : World S) :
  cache_usable pk tk ttl now w = true → ∃ data, localStorage w !! pk = Some data.
Proof.
  unfold cache_usable. destruct (localStorage w !! pk) as [data|]; [eauto|discriminate].
Qed.

Lemma cache_usable_spec `{TS : Timestamps} {S} pk tk ttl now (w : World S) payload time capturedAt :
  localStorage w !! pk = Some payload → payload ≠ EmptyString →
  localStorage w !! tk = Some time → time ≠ EmptyString →
  Number_ time = Some capturedAt →
  cache_usable pk tk ttl now w = true ↔ now - capturedAt < ttl.
Proof.
  intros Hp Hpn Ht Htn Hn. unfold cache_usable, timeSinceLastFetch_below.
  rewrite Hp, Ht, Hn, !truthy_true by assumption. simpl. apply isFresh_spec.
Qed.



(** ** Properties of the public dashboard *)

Section fetchData_facts.
Context `{JR : JSON (list Repository)} `{TS : Timestamps} `{ST : Storage}.
Variable net : Network.
Variables now now' : Z.

Local Abbreviation usable w := (cache_usable "repoData" "lastFetchTime" CACHE_DURATION now w).

(** The cached branch: the payload is read and shown, or the failure of
    reading it is reported; the provider is not asked and the store is not
    written.  The call returns. *)
Lemma fetchData_call_cached (w : World AppState) data :
  usable w = true →
  localStorage w !! "repoData" = Some data →
  fetchData_call net now now' w =
    (Returns tt,
     match JSON_parse data with
     | Returns repos =>
         mkWorld {| repositories := repos; error := None; loading := false |}
                 (localStorage w) (requests w) (toasts w)
     | Throws e =>
         mkWorld {| repositories := repositories (ui w);
                    error := Some (message_or "Failed to fetch repositories" e);
                    loading := false |}
                 (localStorage w) (requests w) (toasts w)
     end).
Proof.
  unfold cache_usable. intros Hu Hd. rewrite Hd in Hu.
  destruct (localStorage w !! "lastFetchTime") as [time|] eqn:Ht; [|discriminate].
  apply andb_prop in Hu as [Htr Hf].
  unfold fetchData_call, fetchData_body, setRepositories, setError, setLoading. unfold_M.
  simpl. rewrite Hd, Ht. simpl. rewrite Htr, Hf.
  destruct (JSON_parse data); reflexivity.
Qed.

(** The part of the handler after the cache test, as a function. *)
Lemma refresh_spec (w : World AppState) :
  refresh net now' w =
    match fetchOrganizationRepos net ORGANIZATION_NAME with
    | Returns repos =>
        let written := write2 "repoData" (JSON_stringify repos)
                         "lastFetchTime" (toString now') (localStorage w) in
        (written.1,
         mkWorld {| repositories := repos; error := error (ui w); loading := loading (ui w) |}
                 written.2 (requests w ++ [ReqOrgRepos ORGANIZATION_NAME]) (toasts w))
    | Throws e =>
        (Throws e,
         mkWorld (ui w) (localStorage w) (requests w ++ [ReqOrgRepos ORGANIZATION_NAME])
                 (toasts w))
    end.
Proof.
  unfold refresh, setRepositories, setItem, write2. unfold_M. simpl.
  destruct (fetchOrganizationRepos net ORGANIZATION_NAME) as [repos|e]; simpl; [|reflexivity].
  destruct (refusal (localStorage w) "repoData" (JSON_stringify repos)); simpl; [reflexivity|].
  destruct (refusal _ "lastFetchTime" (toString now')); reflexivity.
Qed.

(** The refreshing branch: the provider is asked; its answer is shown and
    stored, a refused write being reported; or its failure is reported and
    nothing else changes.  The call returns. *)
Lemma fetchData_call_refreshing (w : World AppState) :
  usable w = false →
  fetchData_call net now now' w =
    (Returns tt,
     match fetchOrganizationRepos net ORGANIZATION_NAME with
     | Returns repos =>
         let written := write2 "repoData" (JSON_stringify repos)
                          "lastFetchTime" (toString now') (localStorage w) in
         mkWorld {| repositories := repos;
                    error := failure_message "Failed to fetch repositories" written.1;
                    loading := false |}
                 written.2 (requests w ++ [ReqOrgRepos ORGANIZATION_NAME]) (toasts w)
     | Throws e =>
         mkWorld {| repositories := repositories (ui w);
                    error := Some (message_or "Failed to fetch repositories" e);
                    loading := false |}
                 (localStorage w) (requests w ++ [ReqOrgRepos ORGANIZATION_NAME]) (toasts w)
     end).
Proof.
  unfold cache_usable. intros Hu.
  assert (R : ∀ w0 : World AppState,
            error (ui w0) = None →
            finally (try_catch (refresh net now')
                       (λ err, setError (Some (message_or "Failed to fetch repositories" err))))
                    (setLoading false) w0 =
            (Returns tt,
             match fetchOrganizationRepos net ORGANIZATION_NAME with
             | Returns repos =>
                 let written := write2 "repoData" (JSON_stringify repos)
                                  "lastFetchTime" (toString now') (localStorage w0) in
                 mkWorld {| repositories := repos;
                            error := failure_message "Failed to fetch repositories" written.1;
                            loading := false |}
                         written.2 (requests w0 ++ [ReqOrgRepos ORGANIZATION_NAME]) (toasts w0)
             | Throws e =>
                 mkWorld {| repositories := repositories (ui w0);
                            error := Some (message_or "Failed to fetch repositories" e);
                            loading := false |}
                         (localStorage w0) (requests w0 ++ [ReqOrgRepos ORGANIZATION_NAME])
                         (toasts w0)
             end)).
  { intros w0 He. unfold finally, try_catch. rewrite refresh_spec.
    destruct (fetchOrganizationRepos net ORGANIZATION_NAME) as [repos|e]; simpl; [|reflexivity].
    destruct (write2 _ _ _ _ _) as [[[]|e] store]; simpl; [rewrite He|]; reflexivity. }
  specialize (R (mkWorld {| repositories := repositories (ui w); error := None;
                           loading := loading (ui w) |}
                         (localStorage w) (requests w) (toasts w)) eq_refl).
  simpl in R. rewrite <- R. clear R.
  unfold fetchData_call, fetchData_body, finally, try_catch, setError.
  unfold_M. simpl.
  destruct (localStorage w !! "repoData") as [data|] eqn:Hd;
    destruct (localStorage w !! "lastFetchTime") as [time|] eqn:Ht; simpl;
    try reflexivity.
  destruct (truthy data), (truthy time),
    (timeSinceLastFetch_below now time CACHE_DURATION); try discriminate; reflexivity.
Qed.

Lemma fetchData_cached (w : World AppState) data :
  usable w = true →
  localStorage w !! "repoData" = Some data →
  fetchData net now now' w =
    match JSON_parse data with
    | Returns repos =>
        mkWorld {| repositories := repos; error := None; loading := false |}
                (localStorage w) (requests w) (toasts w)
    | Throws e =>
        mkWorld {| repositories := repositories (ui w);
                   error := Some (message_or "Failed to fetch repositories" e);
                   loading := false |}
                (localStorage w) (requests w) (toasts w)
    end.
Proof.
  intros Hu Hd. unfold fetchData, run. rewrite (fetchData_call_cached w data Hu Hd). reflexivity.
Qed.

Lemma fetchData_refreshing (w : World AppState) :
  usable w = false →
  fetchData net now now' w =
    match fetchOrganizationRepos net ORGANIZATION_NAME with
    | Returns repos =>
        let written := write2 "repoData" (JSON_stringify repos)
                         "lastFetchTime" (toString now') (localStorage w) in
        mkWorld {| repositories := repos;
                   error := failure_message "Failed to fetch repositories" written.1;
                   loading := false |}
                written.2 (requests w ++ [ReqOrgRepos ORGANIZATION_NAME]) (toasts w)
    | Throws e =>
        mkWorld {| repositories := repositories (ui w);
                   error := Some (message_or "Failed to fetch repositories" e);
                   loading := false |}
                (localStorage w) (requests w ++ [ReqOrgRepos ORGANIZATION_NAME]) (toasts w)
    end.
Proof.
  intros Hu. unfold fetchData, run. rewrite (fetchData_call_refreshing w Hu). reflexivity.
Qed.

(** Whatever happens inside, the call of the handler returns: no failure
    escapes it. *)
Lemma fetchData_call_returns (w : World AppState) :
  (fetchData_call net now now' w).1 = Returns tt.
Proof.
  destruct (usable w) eqn:Hu.
  - destruct (cache_usable_payload _ _ _ _ _ Hu) as [data Hd].
    rewrite (fetchData_call_cached w data Hu Hd). reflexivity.
  - rewrite (fetchData_call_refreshing w Hu). reflexivity.
Qed.

End fetchData_facts.

(** ** Refreshing the admin view *)

Section fetchAllData_facts.
Context `{JP : JSON PrCache} `{TS : Timestamps} `{ST : Storage}.
Variable env : Env.
Variable net : AdminNetwork.
Variables now now' : Z.

Local Abbreviation usable w :=
  (cache_usable "allPullRequestsData" "prLastFetchTime" PR_CACHE_DURATION now w).

Lemma fetchPullRequestsForRepo_spec repo (w : World AdminState) :
  fetchPullRequestsForRepo net repo w =
    (pulls_of net repo,
     mkWorld (ui w) (localStorage w) (requests w ++ [ReqPulls (ar_name repo)]) (toasts w)).
Proof.
  unfold fetchPullRequestsForRepo, pulls_of. unfold_M. simpl.
  destruct (list_pulls net (ar_name repo)) as [[[prs|e]|st b]|e]; reflexivity.
Qed.

Lemma fetch_all_pulls_spec repos (w : World AdminState) :
  fetch_all_pulls net repos w =
    (all_pulls net repos,
     mkWorld (ui w) (localStorage w)
             (requests w ++ map (λ repo, ReqPulls (ar_name repo)) repos) (toasts w)).
Proof.
  revert w. induction repos as [|repo rest IH]; intros w; simpl.
  - rewrite app_nil_r. destruct w; reflexivity.
  - rewrite fetchPullRequestsForRepo_spec. rewrite IH. simpl.
    rewrite <- app_assoc. simpl.
    destruct (pulls_of net repo), (all_pulls net rest); reflexivity.
Qed.

Lemma all_pulls_rejected repos repo :
  repo ∈ repos → rejected (list_pulls net (ar_name repo)) →
  ∃ e, all_pulls net repos = Throws e.
Proof.
  intros Hin Hrej. induction repos as [|r rest IH]; [inversion Hin|].
  simpl. apply elem_of_cons in Hin as [->|Hin].
  - unfold pulls_of. destruct (list_pulls net (ar_name r)) as [[[prs|e]|st b]|e];
      simpl in Hrej; try contradiction; eauto.
  - destruct (IH Hin) as [e He]. rewrite He.
    destruct (pulls_of net r); eauto.
Qed.

Lemma fetchAllData_call_refreshing (w : World AdminState) :
  env_valid env = true → usable w = false →
  fetchAllData_call env net now now' w = (Returns tt, after_refresh net now' w).
Proof.
  unfold cache_usable, env_valid. intros Hv Hu.
  assert (R : finally
                (try_catch
                   (setAdminError None;; refresh_all net now')
                   (λ err, setAdminError (Some (message_or "Failed to fetch data" err))))
                (setAdminLoading false) w = (Returns tt, after_refresh net now' w)).
  { unfold after_refresh, refresh_all, fetchRepositories, setItem, write2.
    unfold setPullRequests, setAdminRepositories, setAdminError, setAdminLoading.
    unfold_M. simpl.
    destruct (list_repos net) as [[[repos|e]|st b]|e]; simpl; try reflexivity.
    rewrite fetch_all_pulls_spec. simpl.
    destruct (all_pulls net repos) as [allPRs|e]; simpl; [|reflexivity].
    destruct (refusal (localStorage w) "allPullRequestsData" _); simpl; [reflexivity|].
    destruct (refusal _ "prLastFetchTime" (toString now')); reflexivity. }
  rewrite <- R. clear R.
  unfold fetchAllData_call, fetchAllData_body, validateEnvironmentVariables.
  rewrite Hv.
  unfold setPullRequests, setAdminRepositories, setAdminError, setAdminLoading.
  unfold_M. simpl.
  destruct (localStorage w !! "allPullRequestsData") as [data|] eqn:Hd;
    destruct (localStorage w !! "prLastFetchTime") as [time|] eqn:Ht; simpl;
    try reflexivity.
  destruct (truthy data), (truthy time),
    (timeSinceLastFetch_below now time PR_CACHE_DURATION); try discriminate; reflexivity.
Qed.

Lemma fetchAllData_call_cached (w : World AdminState) data :
  env_valid env = true → usable w = true →
  localStorage w !! "allPullRequestsData" = Some data →
  fetchAllData_call env net now now' w =
    (Returns tt,
     match JSON_parse data with
     | Returns d =>
         mkWorld {| pullRequests := cache_pullRequests d;
                    admin_repositories := cache_repositories d;
                    admin_loading := false; admin_error := None;
                    deletingPR := deletingPR (ui w); selectedRepo := selectedRepo (ui w) |}
                 (localStorage w) (requests w) (toasts w)
     | Throws e =>
         mkWorld {| pullRequests := pullRequests (ui w);
                    admin_repositories := admin_repositories (ui w);
                    admin_loading := false;
                    admin_error := Some (message_or "Failed to fetch data" e);
                    deletingPR := deletingPR (ui w); selectedRepo := selectedRepo (ui w) |}
                 (localStorage w) (requests w) (toasts w)
     end).
Proof.
  unfold cache_usable, env_valid. intros Hv Hu Hd. rewrite Hd in Hu.
  destruct (localStorage w !! "prLastFetchTime") as [time|] eqn:Ht; [|discriminate].
  apply andb_prop in Hu as [Htr Hf].
  unfold fetchAllData_call, fetchAllData_body, validateEnvironmentVariables.
  rewrite Hv.
  unfold setPullRequests, setAdminRepositories, setAdminError, setAdminLoading.
  unfold_M. simpl. rewrite Hd, Ht. simpl. rewrite Htr, Hf.
  destruct (JSON_parse data); reflexivity.
Qed.

Lemma fetchAllData_call_invalid_env (w : World AdminState) :
  env_valid env = false →
  fetchAllData_call env net now now' w =
    (Returns tt,
     mkWorld {| pullRequests := pullRequests (ui w);
                admin_repositories := admin_repositories (ui w);
                admin_loading := false;
                admin_error :=
                  Some "Missing required environment variables. Please check your .env file.";
                deletingPR := deletingPR (ui w); selectedRepo := selectedRepo (ui w) |}
             (localStorage w) (requests w) (toasts w)).
Proof.
  unfold env_valid. intros Hv.
  unfold fetchAllData_call, fetchAllData_body, validateEnvironmentVariables.
  rewrite Hv. unfold setAdminError, setAdminLoading. unfold_M. reflexivity.
Qed.

Lemma fetchAllData_refreshing (w : World AdminState) :
  env_valid env = true → usable w = false →
  fetchAllData env net now now' w = after_refresh net now' w.
Proof.
  intros Hv Hu. unfold fetchAllData, run.
  rewrite (fetchAllData_call_refreshing w Hv Hu). reflexivity.
Qed.

Lemma fetchAllData_cached (w : World AdminState) data :
  env_valid env = true → usable w = true →
  localStorage w !! "allPullRequestsData" = Some data →
  fetchAllData env net now now' w =
    match JSON_parse data with
    | Returns d =>
        mkWorld {| pullRequests := cache_pullRequests d;
                   admin_repositories := cache_repositories d;
                   admin_loading := false; admin_error := None;
                   deletingPR := deletingPR (ui w); selectedRepo := selectedRepo (ui w) |}
                (localStorage w) (requests w) (toasts w)
    | Throws e =>
        mkWorld {| pullRequests := pullRequests (ui w);
                   admin_repositories := admin_repositories (ui w);
                   admin_loading := false;
                   admin_error := Some (message_or "Failed to fetch data" e);
                   deletingPR := deletingPR (ui w); selectedRepo := selectedRepo (ui w) |}
                (localStorage w) (requests w) (toasts w)
    end.
Proof.
  intros Hv Hu Hd. unfold fetchAllData, run.
  rewrite (fetchAllData_call_cached w data Hv Hu Hd). reflexivity.
Qed.

Lemma fetchAllData_invalid_env (w : World AdminState) :
  env_valid env = false →
  fetchAllData env net now now' w =
    mkWorld {| pullRequests := pullRequests (ui w);
               admin_repositories := admin_repositories (ui w);
               admin_loading := false;
               admin_error :=
                 Some "Missing required environment variables. Please check your .env file.";
               deletingPR := deletingPR (ui w); selectedRepo := selectedRepo (ui w) |}
            (localStorage w) (requests w) (toasts w).
Proof.
  intros Hv. unfold fetchAllData, run.
  rewrite (fetchAllData_call_invalid_env w Hv). reflexivity.
Qed.

(** Whatever happens inside, the call of the handler returns. *)
Lemma fetchAllData_call_returns (w : World AdminState) :
  (fetchAllData_call env net now now' w).1 = Returns tt.
Proof.
  destruct (env_valid env) eqn:Hv.
  - destruct (usable w) eqn:Hu.
    + destruct (cache_usable_payload _ _ _ _ _ Hu) as [data Hd].
      rewrite (fetchAllData_call_cached w data Hv Hu Hd). reflexivity.
    + rewrite (fetchAllData_call_refreshing w Hv Hu). reflexivity.
  - rewrite (fetchAllData_call_invalid_env w Hv). reflexivity.
Qed.

End fetchAllData_facts.

(** ** The freshness contract, in the two views *)




(** ** A payload that cannot be read *)

Lemma cache_usable_delete `{TS : Timestamps} {S} pk tk ttl now (w : World S) :
  cache_usable pk tk ttl now
    (mkWorld (ui w) (delete pk (localStorage w)) (requests w) (toasts w)) = false.
Proof. unfold cache_usable. simpl. rewrite lookup_delete_eq. reflexivity. Qed.

(** Two writes after the payload slot was deleted leave the store that
    they leave without the deletion, when both sequences are accepted. *)
Lemma write2_delete `{ST : Storage} key1 value1 key2 value2 store :
  (write2 key1 value1 key2 value2 store).1 = Returns tt →
  (write2 key1 value1 key2 value2 (delete key1 store)).1 = Returns tt →
  (write2 key1 value1 key2 value2 store).2
  = (write2 key1 value1 key2 value2 (delete key1 store)).2.
Proof.
  unfold write2.
  destruct (refusal store key1 value1); [discriminate|].
  destruct (refusal (<[key1:=value1]> store) key2 value2); [discriminate|].
  destruct (refusal (delete key1 store) key1 value1); [discriminate|].
  destruct (refusal (<[key1:=value1]> (delete key1 store)) key2 value2); [discriminate|].
  intros _ _. simpl. rewrite insert_delete_eq. reflexivity.
Qed.

Lemma failure_message_None fallback (o : outcome unit) :
  failure_message fallback o = None → o = Returns tt.
Proof. destruct o as [[]|e]; [reflexivity|discriminate]. Qed.

(** C2 fails as stated: at a fresh entry whose payload is not JSON,
    [fetchData] sends no request and shows the message of the parse error,
    whereas on the same store without the payload it asks the provider and
    shows no error. *)
Lemma corrupt_fresh_payload_differs_from_miss :
  let run_on := fetchData (JR := repos_json) (TS := decimal_timestamps) (ST := roomy_storage)
                  degraded_net 1060000 1060001 in
  localStorage app_world_corrupt !! "repoData" = Some "{oops"
  ∧ JSON_parse (JSON := repos_json) "{oops" = Throws (JsError "Unexpected token in JSON")
  ∧ localStorage app_world_miss = delete "repoData" (localStorage app_world_corrupt)
  ∧ requests (run_on app_world_corrupt) = []
  ∧ error (ui (run_on app_world_corrupt)) = Some "Unexpected token in JSON"
  ∧ requests (run_on app_world_miss) = [ReqOrgRepos "G2HackFest"]
  ∧ error (ui (run_on app_world_miss)) = None.
Proof.
  intros run_on. repeat split; reflexivity.
Qed.

(** C2, amended: a payload that cannot be parsed never makes a handler
    throw: the call of [fetchData] and of [fetchAllData] returns.  While the
    entry is not usable (the timestamp slot is missing, empty, not a number,
    or the entry is at least as old as the duration; in the admin view with
    both environment variables set) the payload is not parsed and the
    handler falls through to a fresh fetch, as it does on the store without
    the payload: it sends the request of the fetch, the same requests as
    without the payload, and shows the same data; when the fetch fails it
    leaves the same component state, error message included; and when both
    runs end without an error message they leave the same component state
    and the same store.  When the entry is usable the failure is caught and
    shown: no request is sent, the store and the displayed data stay as they
    were and the message of the parse error is the error message.  In the
    admin view with an environment variable missing the handler stops
    before it reads the store: no request, the store and the displayed
    lists as they were, the message of the environment check shown. *)
Theorem unparseable_payload
    `{JR : JSON (list Repository)} `{JP : JSON PrCache} `{TS : Timestamps} `{ST : Storage}
    (net : Network) (env : Env) (anet : AdminNetwork) (now now' : Z) :
  (∀ (w : World AppState) payload e,
     localStorage w !! "repoData" = Some payload →
     JSON_parse (A := list Repository) payload = Throws e →
     let w' := fetchData net now now' w in
     let miss := fetchData net now now'
                   (mkWorld (ui w) (delete "repoData" (localStorage w)) (requests w) (toasts w)) in
     (fetchData_call net now now' w).1 = Returns tt
     ∧ (cache_usable "repoData" "lastFetchTime" CACHE_DURATION now w = false →
        requests w' = requests w ++ [ReqOrgRepos ORGANIZATION_NAME]
        ∧ requests miss = requests w'
        ∧ repositories (ui w') = repositories (ui miss)
        ∧ loading (ui w') = loading (ui miss)
        ∧ (∀ repos, fetchOrganizationRepos net ORGANIZATION_NAME = Returns repos →
                    repositories (ui w') = repos)
        ∧ (∀ e', fetchOrganizationRepos net ORGANIZATION_NAME = Throws e' →
                 ui w' = ui miss
                 ∧ error (ui w') = Some (message_or "Failed to fetch repositories" e'))
        ∧ (error (ui w') = None → error (ui miss) = None →
           ui w' = ui miss ∧ localStorage w' = localStorage miss))
     ∧ (cache_usable "repoData" "lastFetchTime" CACHE_DURATION now w = true →
        requests w' = requests w
        ∧ localStorage w' = localStorage w
        ∧ repositories (ui w') = repositories (ui w)
        ∧ error (ui w') = Some (message_or "Failed to fetch repositories" e)))
  ∧ (∀ (w : World AdminState) payload e,
       localStorage w !! "allPullRequestsData" = Some payload →
       JSON_parse (A := PrCache) payload = Throws e →
       let w' := fetchAllData env anet now now' w in
       let miss := fetchAllData env anet now now'
                     (mkWorld (ui w) (delete "allPullRequestsData" (localStorage w))
                        (requests w) (toasts w)) in
       (fetchAllData_call env anet now now' w).1 = Returns tt
       ∧ (env_valid env = true →
          cache_usable "allPullRequestsData" "prLastFetchTime" PR_CACHE_DURATION now w = false →
          (∃ rs, requests w' = requests w ++ ReqAdminRepos :: rs)
          ∧ requests miss = requests w'
          ∧ pullRequests (ui w') = pullRequests (ui miss)
          ∧ admin_repositories (ui w') = admin_repositories (ui miss)
          ∧ admin_loading (ui w') = admin_loading (ui miss)
          ∧ (failed (list_repos anet) → ui w' = ui miss ∧ is_Some (admin_error (ui w')))
          ∧ (∀ repos repo,
               list_repos anet = Returns (Ok (Returns repos)) →
               repo ∈ repos → rejected (list_pulls anet (ar_name repo)) →
               ui w' = ui miss ∧ is_Some (admin_error (ui w')))
          ∧ (admin_error (ui w') = None → admin_error (ui miss) = None →
             ui w' = ui miss ∧ localStorage w' = localStorage miss))
       ∧ (env_valid env = true →
          cache_usable "allPullRequestsData" "prLastFetchTime" PR_CACHE_DURATION now w = true →
          requests w' = requests w
          ∧ localStorage w' = localStorage w
          ∧ pullRequests (ui w') = pullRequests (ui w)
          ∧ admin_repositories (ui w') = admin_repositories (ui w)
          ∧ admin_error (ui w') = Some (message_or "Failed to fetch data" e))
       ∧ (env_valid env = false →
          requests w' = requests w
          ∧ localStorage w' = localStorage w
          ∧ pullRequests (ui w') = pullRequests (ui w)
          ∧ admin_repositories (ui w') = admin_repositories (ui w)
          ∧ admin_error (ui w')
            = Some "Missing required environment variables. Please check your .env file.")).
Proof.
  split.
  - intros w payload e Hp He w' miss.
    split; [apply fetchData_call_returns|]. split.
    + intros Hu. subst w' miss.
      rewrite (fetchData_refreshing net now now' w Hu).
      rewrite (fetchData_refreshing net now now' _ (cache_usable_delete _ _ _ _ w)).
      destruct (fetchOrganizationRepos net ORGANIZATION_NAME) as [repos|e0]; simpl.
      * do 4 (split; [reflexivity|]).
        split; [intros r E; congruence|]. split; [intros e' E; discriminate|].
        intros H1 H2. apply failure_message_None in H1, H2. split.
        -- rewrite H1, H2. reflexivity.
        -- apply write2_delete; assumption.
      * do 4 (split; [reflexivity|]).
        split; [intros r E; discriminate|].
        split; [intros e' E; injection E as <-; split; reflexivity|].
        intros H1; discriminate.
    + intros Hu. subst w'. rewrite (fetchData_cached net now now' w payload Hu Hp), He.
      repeat split.
  - intros w payload e Hp He w' miss.
    split; [apply fetchAllData_call_returns|]. split; [|split].
    + intros Hv Hu. subst w' miss.
      rewrite (fetchAllData_refreshing env anet now now' w Hv Hu).
      rewrite (fetchAllData_refreshing env anet now now' _ Hv (cache_usable_delete _ _ _ _ w)).
      unfold after_refresh. simpl.
      destruct (list_repos anet) as [[[repos|e']|st b]|e'] eqn:Hl; simpl.
      * destruct (all_pulls anet repos) as [allPRs|e'] eqn:Ha; simpl.
        -- split; [rewrite <- app_assoc; eauto|]. do 4 (split; [reflexivity|]).
           split; [intros []|]. split.
           ++ intros repos' repo E Hin Hrej. injection E as <-.
              destruct (all_pulls_rejected anet repos repo Hin Hrej) as [e' He'].
              congruence.
           ++ intros H1 H2. apply failure_message_None in H1, H2. split.
              ** rewrite H1, H2. reflexivity.
              ** apply write2_delete; assumption.
        -- split; [rewrite <- app_assoc; eauto|]. do 4 (split; [reflexivity|]).
           split; [intros []|]. split; [intros; split; eauto|]. discriminate.
      * split; [exists []; reflexivity|]. do 4 (split; [reflexivity|]).
        split; [intros _; split; eauto|]. split; [intros; discriminate|]. discriminate.
      * split; [exists []; reflexivity|]. do 4 (split; [reflexivity|]).
        split; [intros _; split; eauto|]. split; [intros; discriminate|]. discriminate.
      * split; [exists []; reflexivity|]. do 4 (split; [reflexivity|]).
        split; [intros _; split; eauto|]. split; [intros; discriminate|]. discriminate.
    + intros Hv Hu. subst w'.
      rewrite (fetchAllData_cached env anet now now' w payload Hv Hu Hp), He.
      repeat split.
    + intros Hv. subst w'. rewrite (fetchAllData_invalid_env env anet now now' w Hv).
      repeat split.
Qed.

Lemma unparseable_payload_witness :
  error (ui (fetchData (JR := repos_json) (TS := decimal_timestamps) (ST := roomy_storage)
               degraded_net 1060000 1060001 app_world_corrupt))
  = Some "Unexpected token in JSON".
Proof.
  destruct (unparseable_payload (JR := repos_json) (JP := admin_json)
              (TS := decimal_timestamps) (ST := roomy_storage)
              degraded_net valid_env closing_net 1060000 1060001)
    as (Happ & _).
  destruct (Happ app_world_corrupt "{oops" (JsError "Unexpected token in JSON")
              eq_refl eq_refl) as (_ & _ & Hfresh).
  destruct (Hfresh eq_refl) as (_ & _ & _ & He). exact He.
Defined.

(** ** A refresh that fails *)

Lemma failed_listing_throws net org :
  failed (get_org_repos net org) → ∃ e, fetchOrganizationRepos net org = Throws e.
Proof.
  unfold fetchOrganizationRepos.
  destruct (get_org_repos net org) as [[[repos|e]|st b]|e]; simpl;
    [contradiction|eauto| |eauto].
  intros _. destruct (st =? 404)%N; [eauto|].
  destruct (st =? 403)%N; [eauto|]. destruct (st =? 401)%N; [eauto|].
  destruct b; eauto.
Qed.

(** A sequence of two writes that is refused: the first write is, and the
    store is as before; or the second is, and the store holds the first
    value. *)
Lemma write2_refused `{ST : Storage} key1 value1 key2 value2 store e :
  (write2 key1 value1 key2 value2 store).1 = Throws e →
  (refusal store key1 value1 = Some e
   ∧ (write2 key1 value1 key2 value2 store).2 = store)
  ∨ (refusal store key1 value1 = None
     ∧ refusal (<[key1 := value1]> store) key2 value2 = Some e
     ∧ (write2 key1 value1 key2 value2 store).2 = <[key1 := value1]> store).
Proof.
  unfold write2. destruct (refusal store key1 value1) as [e1|]; simpl.
  - intros E. injection E as <-. left. split; reflexivity.
  - destruct (refusal (<[key1:=value1]> store) key2 value2) as [e2|]; simpl; [|discriminate].
    intros E. injection E as <-. right. repeat split.
Qed.

Lemma failure_message_Some fallback (o : outcome unit) :
  is_Some (failure_message fallback o) →
  ∃ e, o = Throws e ∧ failure_message fallback o = Some (message_or fallback e).
Proof. destruct o as [[]|e]; intros [m Hm]; [discriminate|]. eauto. Qed.

(** C7 fails as stated: when the provider refuses to list the pull requests
    of a repository, [fetchAllData] reports no error, replaces the displayed
    pull requests by the empty list and rewrites both cache slots. *)
Lemma refused_pull_listing_does_not_abort :
  let w' := fetchAllData (JP := admin_json) (TS := decimal_timestamps) (ST := roomy_storage)
              valid_env refusing_net 1400000 1400001 admin_world_stored in
  failed (list_pulls refusing_net "web")
  ∧ requests w' = [ReqAdminRepos; ReqPulls "web"]
  ∧ admin_error (ui w') = None
  ∧ pullRequests (ui admin_world_stored) = Some [pr7; pr8]
  ∧ pullRequests (ui w') = Some []
  ∧ localStorage admin_world_stored !! "allPullRequestsData" = Some "<cache>"
  ∧ localStorage w' !! "allPullRequestsData" = Some "<none>"
  ∧ localStorage admin_world_stored !! "prLastFetchTime" = Some "1000000"
  ∧ localStorage w' !! "prLastFetchTime" = Some "1400001".
Proof. intros w'. repeat split; reflexivity. Qed.

(** C7, amended: a refresh that asks the provider and fails to list the
    repositories, in either view, ends with an error message and leaves the
    store and the displayed lists as they were.  In the admin view a
    rejected listing of the pull requests of some repository (the request
    rejects, or the body of its answer cannot be read) ends the refresh with
    an error message and leaves the store and the displayed pull requests
    as they were.  In general a refresh that ends with an error message
    either has written nothing to the store and has not replaced the
    displayed repositories of the public view nor the displayed pull
    requests of the admin view; or its fetch had succeeded and the browser
    refused one of the two writes of the cache: then the fetched list is
    displayed, the error message is the one of the refused write, the
    timestamp slot is as before, and the store is as before (the write of
    the payload was refused) or differs by the new payload (the write of
    the timestamp was). *)
Theorem failed_refresh_keeps_cache
    `{JR : JSON (list Repository)} `{JP : JSON PrCache} `{TS : Timestamps} `{ST : Storage}
    (net : Network) (env : Env) (anet : AdminNetwork) (now now' : Z) :
  (∀ w : World AppState,
     cache_usable "repoData" "lastFetchTime" CACHE_DURATION now w = false →
     failed (get_org_repos net ORGANIZATION_NAME) →
     let w' := fetchData net now now' w in
     (∃ e, fetchOrganizationRepos net ORGANIZATION_NAME = Throws e
           ∧ error (ui w') = Some (message_or "Failed to fetch repositories" e))
     ∧ localStorage w' = localStorage w
     ∧ repositories (ui w') = repositories (ui w)
     ∧ loading (ui w') = false)
  ∧ (∀ w : World AdminState,
       env_valid env = true →
       cache_usable "allPullRequestsData" "prLastFetchTime" PR_CACHE_DURATION now w = false →
       failed (list_repos anet) →
       let w' := fetchAllData env anet now now' w in
       is_Some (admin_error (ui w'))
       ∧ localStorage w' = localStorage w
       ∧ pullRequests (ui w') = pullRequests (ui w)
       ∧ admin_repositories (ui w') = admin_repositories (ui w)
       ∧ admin_loading (ui w') = false)
  ∧ (∀ (w : World AdminState) repos repo,
       env_valid env = true →
       cache_usable "allPullRequestsData" "prLastFetchTime" PR_CACHE_DURATION now w = false →
       list_repos anet = Returns (Ok (Returns repos)) →
       repo ∈ repos → rejected (list_pulls anet (ar_name repo)) →
       let w' := fetchAllData env anet now now' w in
       is_Some (admin_error (ui w'))
       ∧ localStorage w' = localStorage w
       ∧ pullRequests (ui w') = pullRequests (ui w)
       ∧ admin_loading (ui w') = false)
  ∧ (∀ w : World AppState,
       let w' := fetchData net now now' w in
       is_Some (error (ui w')) →
       (localStorage w' = localStorage w ∧ repositories (ui w') = repositories (ui w))
       ∨ (∃ repos e,
            fetchOrganizationRepos net ORGANIZATION_NAME = Returns repos
            ∧ repositories (ui w') = repos
            ∧ error (ui w') = Some (message_or "Failed to fetch repositories" e)
            ∧ localStorage w' !! "lastFetchTime" = localStorage w !! "lastFetchTime"
            ∧ ((refusal (localStorage w) "repoData" (JSON_stringify repos) = Some e
                ∧ localStorage w' = localStorage w)
               ∨ (refusal (localStorage w) "repoData" (JSON_stringify repos) = None
                  ∧ refusal (<["repoData" := JSON_stringify repos]> (localStorage w))
                      "lastFetchTime" (toString now') = Some e
                  ∧ localStorage w'
                    = <["repoData" := JSON_stringify repos]> (localStorage w)))))
  ∧ (∀ w : World AdminState,
       let w' := fetchAllData env anet now now' w in
       is_Some (admin_error (ui w')) →
       (localStorage w' = localStorage w ∧ pullRequests (ui w') = pullRequests (ui w))
       ∨ (∃ repos allPRs e,
            list_repos anet = Returns (Ok (Returns repos))
            ∧ all_pulls anet repos = Returns allPRs
            ∧ pullRequests (ui w') = Some (concat allPRs)
            ∧ admin_error (ui w') = Some (message_or "Failed to fetch data" e)
            ∧ localStorage w' !! "prLastFetchTime" = localStorage w !! "prLastFetchTime"
            ∧ let text := JSON_stringify {| cache_pullRequests := Some (concat allPRs);
                                            cache_repositories := Some repos |} in
              (refusal (localStorage w) "allPullRequestsData" text = Some e
               ∧ localStorage w' = localStorage w)
              ∨ (refusal (localStorage w) "allPullRequestsData" text = None
                 ∧ refusal (<["allPullRequestsData" := text]> (localStorage w))
                     "prLastFetchTime" (toString now') = Some e
                 ∧ localStorage w' = <["allPullRequestsData" := text]> (localStorage w)))).
Proof.
  split; [|split; [|split; [|split]]].
  - intros w Hu Hf w'. destruct (failed_listing_throws _ _ Hf) as [e He].
    subst w'. rewrite (fetchData_refreshing net now now' w Hu), He. simpl.
    repeat split. exists e. split; reflexivity.
  - intros w Hv Hu Hf w'. subst w'.
    rewrite (fetchAllData_refreshing env anet now now' w Hv Hu). unfold after_refresh.
    destruct (list_repos anet) as [[[repos|e]|st b]|e]; simpl in *;
      [contradiction| | |]; repeat split; eauto.
  - intros w repos repo Hv Hu Hl Hin Hrej w'. subst w'.
    rewrite (fetchAllData_refreshing env anet now now' w Hv Hu). unfold after_refresh.
    rewrite Hl. destruct (all_pulls_rejected anet repos repo Hin Hrej) as [e He].
    rewrite He. simpl. repeat split; eauto.
  - intros w w'. subst w'.
    destruct (cache_usable "repoData" "lastFetchTime" CACHE_DURATION now w) eqn:Hu.
    + destruct (cache_usable_payload _ _ _ _ _ Hu) as [data Hd].
      rewrite (fetchData_cached net now now' w data Hu Hd).
      destruct (JSON_parse data); simpl; intros Herr; [|left; split; reflexivity].
      destruct Herr as [? Herr]. discriminate.
    + rewrite (fetchData_refreshing net now now' w Hu).
      destruct (fetchOrganizationRepos net ORGANIZATION_NAME) as [repos|e0]; simpl;
        intros Herr; [|left; split; reflexivity].
      right. apply failure_message_Some in Herr as (e & Hw & Hm).
      exists repos, e. split; [reflexivity|]. split; [reflexivity|].
      split; [exact Hm|].
      destruct (write2_refused _ _ _ _ _ _ Hw) as [[H1 H2]|(H1 & H2 & H3)].
      * rewrite H2. split; [reflexivity|]. left. split; [exact H1|reflexivity].
      * rewrite H3. split; [apply lookup_insert_ne; discriminate|].
        right. repeat split; assumption.
  - intros w w'. subst w'. destruct (env_valid env) eqn:Hv.
    + destruct (cache_usable "allPullRequestsData" "prLastFetchTime" PR_CACHE_DURATION now w)
        eqn:Hu.
      * destruct (cache_usable_payload _ _ _ _ _ Hu) as [data Hd].
        rewrite (fetchAllData_cached env anet now now' w data Hv Hu Hd).
        destruct (JSON_parse data); simpl; intros Herr; [|left; split; reflexivity].
        destruct Herr as [? Herr]. discriminate.
      * rewrite (fetchAllData_refreshing env anet now now' w Hv Hu). unfold after_refresh.
        destruct (list_repos anet) as [[[repos|e0]|st b]|e0]; simpl;
          try (intros _; left; split; reflexivity).
        destruct (all_pulls anet repos) as [allPRs|e0] eqn:Ha; simpl; intros Herr;
          [|left; split; reflexivity].
        right. apply failure_message_Some in Herr as (e & Hw & Hm).
        exists repos, allPRs, e. split; [reflexivity|]. split; [exact Ha|].
        split; [reflexivity|]. split; [exact Hm|].
        destruct (write2_refused _ _ _ _ _ _ Hw) as [[H1 H2]|(H1 & H2 & H3)].
        -- rewrite H2. split; [reflexivity|]. left.
           split; [exact H1|reflexivity].
        -- rewrite H3. split; [apply lookup_insert_ne; discriminate|].
           right. repeat split; assumption.
    + rewrite (fetchAllData_invalid_env env anet now now' w Hv). simpl.
      intros _. left. split; reflexivity.
Qed.

Lemma failed_refresh_keeps_cache_witness :
  localStorage (fetchData (JR := repos_json) (TS := decimal_timestamps) (ST := roomy_storage)
                  unreachable_net 2600000 2600001 app_world0)
  = localStorage app_world0.
Proof.
  destruct (failed_refresh_keeps_cache (JR := repos_json) (JP := admin_json)
              (TS := decimal_timestamps) (ST := roomy_storage)
              unreachable_net valid_env closing_net 2600000 2600001)
    as (Happ & _).
  destruct (Happ app_world0 eq_refl I) as (_ & Hs & _). exact Hs.
Defined.

(** ** Properties of the admin view *)

Lemma with_state_closed_idem pr :
  with_state_closed (with_state_closed pr) = with_state_closed pr.
Proof. reflexivity. Qed.

Lemma matches_with_state_closed n r pr :
  matches n r (with_state_closed pr) = matches n r pr.
Proof. reflexivity. Qed.

Lemma with_state_closed_id pr :
  pr_state pr = "closed" → with_state_closed pr = pr.
Proof. destruct pr; simpl; intros ->; reflexivity. Qed.

Lemma close_update_idem n r prs :
  close_update n r (close_update n r prs) = close_update n r prs.
Proof.
  unfold close_update. rewrite map_map. apply map_ext. intros pr.
  destruct (matches n r pr) eqn:E.
  - rewrite matches_with_state_closed, E. apply with_state_closed_idem.
  - rewrite E. reflexivity.
Qed.

Lemma close_update_closed n r prs :
  (∀ pr, pr ∈ prs → matches n r pr = true → pr_state pr = "closed") →
  close_update n r prs = prs.
Proof.
  intros Hc. unfold close_update.
  induction prs as [|pr prs IH]; simpl; [reflexivity|].
  rewrite IH by (intros; apply Hc; [right|]; assumption).
  destruct (matches n r pr) eqn:E; [|reflexivity].
  rewrite with_state_closed_id; [reflexivity|].
  apply Hc; [left|assumption].
Qed.

Section deletePullRequest_facts.
Context `{JP : JSON PrCache} `{ST : Storage}.
Variable net : AdminNetwork.

(** Reading the stored object changes nothing. *)
Lemma load_cached_object_world (w : World AdminState) : (load_cached_object w).2 = w.
Proof.
  unfold load_cached_object. unfold_M. simpl.
  destruct (localStorage w !! "allPullRequestsData") as [text|]; [|reflexivity].
  destruct (truthy text); reflexivity.
Qed.

(** A call that the provider confirms, over a displayed list: the list is
    updated; then the stored object is read and written back, and the
    success message is shown, unless reading or writing fails. *)
Lemma deletePullRequest_call_confirmed n r (w : World AdminState) b prs :
  patch_pull net r n = Returns (Ok b) →
  pullRequests (ui w) = Some prs →
  deletePullRequest_call net n r w =
    (Returns tt,
     let asked := requests w ++ [ReqClosePull r n] in
     let report e :=
       mkWorld (updated n r prs (Some (message_or "Failed to delete pull request" e)) (ui w))
               (localStorage w) asked (toasts w) in
     match (load_cached_object w).1 with
     | Throws e => report e
     | Returns c =>
         let text := JSON_stringify {| cache_pullRequests := Some (close_update n r prs);
                                       cache_repositories := cache_repositories c |} in
         match refusal (localStorage w) "allPullRequestsData" text with
         | Some e => report e
         | None =>
             mkWorld (updated n r prs (admin_error (ui w)) (ui w))
                     (<["allPullRequestsData" := text]> (localStorage w))
                     asked (toasts w ++ ["Pull request closed successfully"])
         end
     end).
Proof.
  intros Hp Hs.
  unfold deletePullRequest_call, deletePullRequest_body, load_cached_object, setItem, updated.
  unfold setDeletingPR, setPullRequests, setAdminError. unfold_M.
  simpl. rewrite Hp. simpl. rewrite Hs. simpl.
  destruct (localStorage w !! "allPullRequestsData") as [text|] eqn:Ht; simpl.
  - destruct (truthy text); simpl.
    + destruct (JSON_parse text) as [c|e]; simpl; [|reflexivity].
      destruct (refusal (localStorage w) "allPullRequestsData" _); reflexivity.
    + destruct (refusal (localStorage w) "allPullRequestsData" _); reflexivity.
  - destruct (refusal (localStorage w) "allPullRequestsData" _); reflexivity.
Qed.

(** A call that the provider does not confirm, or that finds no displayed
    list: only the error and the pending close change. *)
Lemma deletePullRequest_call_failed n r (w : World AdminState) :
  (∀ b, patch_pull net r n = Returns (Ok b) → pullRequests (ui w) = None) →
  ∃ m, deletePullRequest_call net n r w =
         (Returns tt,
          mkWorld {| pullRequests := pullRequests (ui w);
                     admin_repositories := admin_repositories (ui w);
                     admin_loading := admin_loading (ui w);
                     admin_error := Some m;
                     deletingPR := None;
                     selectedRepo := selectedRepo (ui w) |}
                  (localStorage w) (requests w ++ [ReqClosePull r n]) (toasts w)).
Proof.
  intros Hno.
  unfold deletePullRequest_call, deletePullRequest_body.
  unfold setDeletingPR, setPullRequests, setAdminError. unfold_M. simpl.
  destruct (patch_pull net r n) as [[b|st [answer|e]]|e] eqn:Hp; simpl;
    try (eexists; reflexivity).
  rewrite (Hno b eq_refl). simpl. eexists; reflexivity.
Qed.

(** Whatever happens inside, the call of the handler returns. *)
Lemma deletePullRequest_call_returns n r (w : World AdminState) :
  (deletePullRequest_call net n r w).1 = Returns tt.
Proof.
  destruct (patch_pull net r n) as [[b|st body]|e] eqn:Hp.
  - destruct (pullRequests (ui w)) as [prs|] eqn:Hs.
    + rewrite (deletePullRequest_call_confirmed n r w b prs Hp Hs). reflexivity.
    + destruct (deletePullRequest_call_failed n r w) as [m ->]; [|reflexivity].
      intros; assumption.
  - destruct (deletePullRequest_call_failed n r w) as [m ->]; [|reflexivity].
    intros b'; rewrite Hp; discriminate.
  - destruct (deletePullRequest_call_failed n r w) as [m ->]; [|reflexivity].
    intros b'; rewrite Hp; discriminate.
Qed.

(** The world after a call of [deletePullRequest] that runs to its end. *)
Lemma deletePullRequest_success n r (w : World AdminState) b prs c :
  patch_pull net r n = Returns (Ok b) →
  pullRequests (ui w) = Some prs →
  (load_cached_object w).1 = Returns c →
  refusal (localStorage w) "allPullRequestsData"
    (JSON_stringify {| cache_pullRequests := Some (close_update n r prs);
                       cache_repositories := cache_repositories c |}) = None →
  deletePullRequest net n r w =
    mkWorld
      {| pullRequests := Some (close_update n r prs);
         admin_repositories := admin_repositories (ui w);
         admin_loading := admin_loading (ui w);
         admin_error := admin_error (ui w);
         deletingPR := None;
         selectedRepo := selectedRepo (ui w) |}
      (<["allPullRequestsData" :=
           JSON_stringify {| cache_pullRequests := Some (close_update n r prs);
                             cache_repositories := cache_repositories c |}]>
         (localStorage w))
      (requests w ++ [ReqClosePull r n])
      (toasts w ++ ["Pull request closed successfully"]).
Proof.
  intros Hp Hs Hc Hw. unfold deletePullRequest, run.
  rewrite (deletePullRequest_call_confirmed n r w b prs Hp Hs). simpl.
  rewrite Hc, Hw. reflexivity.
Qed.

Lemma toasts_not_extended {S} (w : World S) (t : string) : toasts w ≠ toasts w ++ [t].
Proof.
  intros E. apply (f_equal length) in E. rewrite length_app in E. simpl in E. lia.
Qed.

(** A call that shows the success message ran to its end. *)
Lemma deletePullRequest_toast_inv n r (w : World AdminState) :
  toasts (deletePullRequest net n r w) = toasts w ++ ["Pull request closed successfully"] →
  ∃ b prs c, patch_pull net r n = Returns (Ok b)
             ∧ pullRequests (ui w) = Some prs
             ∧ (load_cached_object w).1 = Returns c
             ∧ refusal (localStorage w) "allPullRequestsData"
                 (JSON_stringify {| cache_pullRequests := Some (close_update n r prs);
                                    cache_repositories := cache_repositories c |}) = None.
Proof.
  unfold deletePullRequest, run.
  destruct (patch_pull net r n) as [[b|st body]|e] eqn:Hp.
  - destruct (pullRequests (ui w)) as [prs|] eqn:Hs.
    + rewrite (deletePullRequest_call_confirmed n r w b prs Hp Hs). simpl.
      destruct (load_cached_object w).1 as [c|e] eqn:Hc; simpl.
      * destruct (refusal (localStorage w) "allPullRequestsData" _) eqn:Hw; simpl.
        -- intros E. destruct (toasts_not_extended _ _ E).
        -- intros _. exists b, prs, c. auto.
      * intros E. destruct (toasts_not_extended _ _ E).
    + destruct (deletePullRequest_call_failed n r w) as [m ->]; [intros; assumption|].
      simpl. intros E. destruct (toasts_not_extended _ _ E).
  - destruct (deletePullRequest_call_failed n r w) as [m ->];
      [intros b'; rewrite Hp; discriminate|].
    simpl. intros E. destruct (toasts_not_extended _ _ E).
  - destruct (deletePullRequest_call_failed n r w) as [m ->];
      [intros b'; rewrite Hp; discriminate|].
    simpl. intros E. destruct (toasts_not_extended _ _ E).
Qed.

End deletePullRequest_facts.

Lemma close_update_pointwise n r prs :
  Forall2 (λ old new,
             if decide (pr_number old = n ∧ ref_name (pr_repository old) = r)
             then pr_state new = "closed" ∧ same_but_state old new
             else new = old)
          prs (close_update n r prs).
Proof.
  induction prs as [|pr prs IH]; simpl; constructor; [|exact IH].
  unfold matches. destruct (decide _) as [[Hn Hr]|Hno].
  - rewrite Hn, N.eqb_refl, bool_decide_eq_true_2 by exact Hr. simpl. repeat split.
  - destruct (N.eqb_spec (pr_number pr) n) as [Hn|Hn]; simpl; [|reflexivity].
    rewrite bool_decide_eq_false_2; [reflexivity|]. intros Hr. apply Hno. split; assumption.
Qed.

(** When the provider closes the pull request but the stored object cannot
    be parsed, the call does not succeed: the displayed list is updated, the
    store is left as it was, no success message is shown and the message of
    the parse error is reported. *)
Lemma deletePullRequest_unreadable_cache `{JP : JSON PrCache} `{ST : Storage} net n r
    (w : World AdminState) b prs text e :
  patch_pull net r n = Returns (Ok b) →
  pullRequests (ui w) = Some prs →
  localStorage w !! "allPullRequestsData" = Some text → text ≠ EmptyString →
  JSON_parse text = Throws e →
  let w' := deletePullRequest net n r w in
  pullRequests (ui w') = Some (close_update n r prs)
  ∧ localStorage w' = localStorage w
  ∧ toasts w' = toasts w
  ∧ admin_error (ui w') = Some (message_or "Failed to delete pull request" e).
Proof.
  intros Hp Hs Ht Hne He w'. subst w'. unfold deletePullRequest, run.
  rewrite (deletePullRequest_call_confirmed net n r w b prs Hp Hs).
  assert (Hc : (load_cached_object w).1 = Throws e).
  { unfold load_cached_object. unfold_M. simpl. rewrite Ht.
    rewrite (truthy_true _ Hne). simpl. rewrite He. reflexivity. }
  simpl. rewrite Hc. repeat split.
Qed.

(** C10 fails as stated: the provider closes the pull request 7 of [web],
    but the stored object cannot be read; the displayed list is updated and
    the cached payload is not rewritten: it still holds the old text, the
    call shows no success message and reports the parse error.  The same
    happens when the browser refuses the write. *)
Lemma confirmed_close_may_leave_cache_stale :
  let w := mkWorld admin_state0 (<["allPullRequestsData" := "{oops"]> ∅) [] [] in
  let w' := deletePullRequest (JP := admin_json) (ST := roomy_storage) closing_net 7 "web" w in
  let w'' := deletePullRequest (JP := admin_json) (ST := full_storage) closing_net 7 "web"
               admin_world_stored in
  patch_pull closing_net "web" 7 = Returns (Ok (Returns tt))
  ∧ requests w' = [ReqClosePull "web" 7]
  ∧ (map pr_state <$> pullRequests (ui w)) = Some ["open"; "open"]
  ∧ (map pr_state <$> pullRequests (ui w')) = Some ["closed"; "open"]
  ∧ localStorage w' = localStorage w
  ∧ localStorage w' !! "allPullRequestsData" = Some "{oops"
  ∧ toasts w' = []
  ∧ admin_error (ui w') = Some "Unexpected token in JSON"
  ∧ (map pr_state <$> pullRequests (ui w'')) = Some ["closed"; "open"]
  ∧ localStorage w'' = localStorage admin_world_stored
  ∧ toasts w'' = []
  ∧ admin_error (ui w'') = Some "The quota has been exceeded.".
Proof. intros w w' w''. repeat split; reflexivity. Qed.

(** C10, amended: when the provider confirms the close (the response to
    the PATCH request is ok) and a list is displayed, the displayed list
    becomes the old one in which exactly the pull requests whose number and
    repository name both equal the arguments have their state set to closed,
    every other field and every other pull request being as before; the
    repositories, the loading flag and the selection are as before, and no
    slot of the store other than [allPullRequestsData] is touched.  That
    slot is rewritten, to the stored object with its [pullRequests] field
    replaced by the updated list, only when the stored object can be read
    and the browser accepts the write: then the success message is shown
    and the error message is as before.  Otherwise the store and the
    messages of the page are left as they were and the message of the
    failure is reported. *)
Theorem deletePullRequest_frame `{JP : JSON PrCache} `{ST : Storage} net n r
    (w : World AdminState) b prs :
  patch_pull net r n = Returns (Ok b) →
  pullRequests (ui w) = Some prs →
  let w' := deletePullRequest net n r w in
  ∃ new,
    pullRequests (ui w') = Some new
    ∧ Forall2 (λ old new,
                 if decide (pr_number old = n ∧ ref_name (pr_repository old) = r)
                 then pr_state new = "closed" ∧ same_but_state old new
                 else new = old)
              prs new
    ∧ admin_repositories (ui w') = admin_repositories (ui w)
    ∧ admin_loading (ui w') = admin_loading (ui w)
    ∧ selectedRepo (ui w') = selectedRepo (ui w)
    ∧ requests w' = requests w ++ [ReqClosePull r n]
    ∧ (∀ key, key ≠ "allPullRequestsData" → localStorage w' !! key = localStorage w !! key)
    ∧ match (load_cached_object w).1 with
      | Returns c =>
          let text := JSON_stringify {| cache_pullRequests := Some new;
                                        cache_repositories := cache_repositories c |} in
          match refusal (localStorage w) "allPullRequestsData" text with
          | None =>
              localStorage w' = <["allPullRequestsData" := text]> (localStorage w)
              ∧ toasts w' = toasts w ++ ["Pull request closed successfully"]
              ∧ admin_error (ui w') = admin_error (ui w)
          | Some e =>
              localStorage w' = localStorage w
              ∧ toasts w' = toasts w
              ∧ admin_error (ui w') = Some (message_or "Failed to delete pull request" e)
          end
      | Throws e =>
          localStorage w' = localStorage w
          ∧ toasts w' = toasts w
          ∧ admin_error (ui w') = Some (message_or "Failed to delete pull request" e)
      end.
Proof.
  intros Hp Hs w'. exists (close_update n r prs). subst w'. unfold deletePullRequest, run.
  rewrite (deletePullRequest_call_confirmed net n r w b prs Hp Hs). simpl.
  destruct (load_cached_object w).1 as [c|e]; simpl.
  - destruct (refusal (localStorage w) "allPullRequestsData" _); simpl.
    + repeat split. apply close_update_pointwise.
    + repeat split; [apply close_update_pointwise|].
      intros key Hk. apply lookup_insert_ne. congruence.
  - repeat split. apply close_update_pointwise.
Qed.

Lemma deletePullRequest_frame_witness :
  let w' := deletePullRequest (JP := admin_json) (ST := roomy_storage)
              closing_net 7 "web" admin_world0 in
  ∃ new,
    pullRequests (ui w') = Some new
    ∧ map pr_state new = ["closed"; "open"]
    ∧ map pr_title new = ["Fix header"; "Add footer"]
    ∧ localStorage w' !! "allPullRequestsData" = Some "<cache>"
    ∧ toasts w' = ["Pull request closed successfully"].
Proof.
  intros w'.
  destruct (deletePullRequest_frame (JP := admin_json) (ST := roomy_storage)
              closing_net 7 "web" admin_world0 (Returns tt) [pr7; pr8] eq_refl eq_refl)
    as (new & Hs & Hall & _ & _ & _ & _ & _ & Hstore & Ht & _).
  exists new. split; [exact Hs|].
  inversion Hall as [|old7 new7 olds news H7 Hrest]; subst.
  inversion Hrest as [|old8 new8 olds' news' H8 Hnil]; subst.
  inversion Hnil; subst.
  destruct H7 as (Hclosed & _ & _ & Htitle & _). simpl in H8. subst new8.
  split; [simpl; rewrite Hclosed; reflexivity|].
  split; [simpl; rewrite Htitle; reflexivity|].
  split; [|exact Ht].
  fold w' in Hstore. rewrite Hstore. apply lookup_insert_eq.
Defined.

(** C8: the local close update is idempotent, it leaves a list unchanged in
    which the pull requests it addresses are closed already, and a second
    successful call of [deletePullRequest] for the same pull request leaves
    the component state and the store exactly as the first call left them,
    raising no error; a call is successful when the provider confirms the
    close, the stored object is read and the browser accepts the write. *)
Theorem close_is_idempotent `{JP : JSON PrCache} `{ST : Storage} net1 net2 n r
    (w : World AdminState) b1 b2 prs c :
  patch_pull net1 r n = Returns (Ok b1) →
  patch_pull net2 r n = Returns (Ok b2) →
  pullRequests (ui w) = Some prs →
  (load_cached_object w).1 = Returns c →
  let d := {| cache_pullRequests := Some (close_update n r prs);
              cache_repositories := cache_repositories c |} in
  JSON_stringify d ≠ EmptyString →
  JSON_parse (JSON_stringify d) = Returns d →
  refusal (localStorage w) "allPullRequestsData" (JSON_stringify d) = None →
  refusal (<["allPullRequestsData" := JSON_stringify d]> (localStorage w))
    "allPullRequestsData" (JSON_stringify d) = None →
  let w1 := deletePullRequest net1 n r w in
  let w2 := deletePullRequest net2 n r w1 in
  close_update n r (close_update n r prs) = close_update n r prs
  ∧ ((∀ pr, pr ∈ prs → matches n r pr = true → pr_state pr = "closed") →
     close_update n r prs = prs)
  ∧ ui w2 = ui w1
  ∧ localStorage w2 = localStorage w1
  ∧ admin_error (ui w2) = admin_error (ui w)
  ∧ (deletePullRequest_call net1 n r w).1 = Returns tt
  ∧ (deletePullRequest_call net2 n r w1).1 = Returns tt.
Proof.
  intros Hp1 Hp2 Hs Hc d Hne Hrt Ha1 Ha2 w1 w2.
  split; [apply close_update_idem|]. split; [apply close_update_closed|].
  assert (E1 : w1 = _) by exact (deletePullRequest_success _ _ _ _ _ _ _ Hp1 Hs Hc Ha1).
  assert (Hs1 : pullRequests (ui w1) = Some (close_update n r prs)) by (rewrite E1; reflexivity).
  assert (Hc1 : (load_cached_object w1).1 = Returns d).
  { rewrite E1. unfold load_cached_object. unfold_M. simpl.
    rewrite lookup_insert_eq. fold d. unfold truthy.
    rewrite bool_decide_eq_false_2 by exact Hne. simpl. rewrite Hrt. reflexivity. }
  assert (Ha2' : refusal (localStorage w1) "allPullRequestsData"
                   (JSON_stringify {| cache_pullRequests :=
                                        Some (close_update n r (close_update n r prs));
                                      cache_repositories := cache_repositories d |}) = None).
  { rewrite close_update_idem, E1. exact Ha2. }
  assert (E2 : w2 = _) by exact (deletePullRequest_success _ _ _ _ _ _ _ Hp2 Hs1 Hc1 Ha2').
  rewrite E2. rewrite close_update_idem. rewrite E1. simpl.
  repeat split; try apply deletePullRequest_call_returns.
  fold d. rewrite insert_insert_eq. reflexivity.
Qed.

Lemma close_is_idempotent_witness :
  let w1 := deletePullRequest (JP := admin_json) (ST := roomy_storage)
              closing_net 7 "web" admin_world0 in
  let w2 := deletePullRequest (JP := admin_json) (ST := roomy_storage)
              closing_net 7 "web" w1 in
  ui w2 = ui w1 ∧ localStorage w2 = localStorage w1.
Proof.
  intros w1 w2.
  destruct (close_is_idempotent (JP := admin_json) (ST := roomy_storage)
              closing_net closing_net 7 "web" admin_world0
              (Returns tt) (Returns tt) [pr7; pr8]
              {| cache_pullRequests := None; cache_repositories := None |}
              eq_refl eq_refl eq_refl eq_refl ltac:(discriminate) eq_refl eq_refl eq_refl)
    as (_ & _ & Hu & Hl & _).
  split; assumption.
Defined.

(** * Further properties *)

(** ** The provider client *)

Section readme_facts.

Lemma split_lines_cons s : ∃ l ls, split_lines s = l :: ls.
Proof.
  induction s as [|c s IH]; simpl; [eauto|].
  destruct (decide (c = newline)); [eauto|].
  destruct IH as (l & ls & ->). eauto.
Qed.

Lemma join_lines_String c l ls :
  join_lines (String c l :: ls) = String c (join_lines (l :: ls)).
Proof. destruct ls; reflexivity. Qed.

Lemma append_empty s : s +:+ EmptyString = s.
Proof.
  induction s as [|c s IH]; [reflexivity|].
  change (String c (s +:+ EmptyString) = String c s). f_equal. exact IH.
Qed.

Lemma count_newlines_app s t :
  count_newlines (s +:+ t) = (count_newlines s + count_newlines t)%nat.
Proof. induction s as [|c s IH]; simpl; [reflexivity|]. rewrite IH. lia. Qed.

(** Keeping the first [n + 1] lines cuts the text in front of its newline
    number [n + 1], if it has one. *)
Lemma take_lines_cut n s :
  ∃ rest,
    s = join_lines (take (S n) (split_lines s)) +:+ rest
    ∧ (count_newlines (join_lines (take (S n) (split_lines s))) ≤ n)%nat
    ∧ (rest = EmptyString
       ∨ (count_newlines (join_lines (take (S n) (split_lines s))) = n
          ∧ ∃ r, rest = String newline r)).
Proof.
  revert n. induction s as [|c s IH]; intros n.
  - exists EmptyString. cbn [split_lines].
    change (take (S n) [EmptyString]) with (EmptyString :: take n (@nil string)).
    rewrite take_nil. simpl. split; [reflexivity|]. split; [lia|]. left. reflexivity.
  - cbn [split_lines]. destruct (decide (c = newline)) as [->|Hc].
    + destruct n as [|n].
      * exists (String newline s). simpl. split; [reflexivity|]. split; [lia|].
        right. split; [reflexivity|]. eauto.
      * destruct (IH n) as (rest & Hs & Hle & Hrest).
        destruct (split_lines_cons s) as (l & ls & E). rewrite E in *.
        exists rest. change (take (S (S n)) (EmptyString :: l :: ls))
          with (EmptyString :: take (S n) (l :: ls)).
        change (take (S n) (l :: ls)) with (l :: take n ls) in *.
        change (join_lines (EmptyString :: l :: take n ls))
          with (String newline (join_lines (l :: take n ls))).
        cbn [count_newlines String.append]. destruct (decide (newline = newline)); [|congruence].
        split; [change (String newline s
                        = String newline (join_lines (l :: take n ls) +:+ rest));
                f_equal; exact Hs|].
        split; [lia|].
        destruct Hrest as [->|[Hn Hr]]; [left; reflexivity|right]. split; [lia|exact Hr].
    + destruct (IH n) as (rest & Hs & Hle & Hrest).
      destruct (split_lines_cons s) as (l & ls & E). rewrite E in *.
      exists rest. change (take (S n) (String c l :: ls)) with (String c l :: take n ls).
      change (take (S n) (l :: ls)) with (l :: take n ls) in *.
      rewrite join_lines_String. cbn [count_newlines String.append].
      destruct (decide (c = newline)); [contradiction|].
      split; [change (String c s = String c (join_lines (l :: take n ls) +:+ rest));
              f_equal; exact Hs|].
      split; [exact Hle|exact Hrest].
Qed.

End readme_facts.

(** X1: the excerpt [fetchReadmeContent] returns for a README it could read
    is the text cut in front of its fourth newline: a prefix of the text with
    at most three newlines, followed in the text by nothing or by a newline;
    a README of at most four lines is returned whole. *)
Theorem readme_excerpt_cut_before_fourth_newline net full content :
  get_readme net full = Returns (Ok (Returns content)) →
  ∃ excerpt rest,
    fetchReadmeContent net full = Some excerpt
    ∧ content = excerpt +:+ rest
    ∧ (count_newlines excerpt ≤ 3)%nat
    ∧ (rest = EmptyString ∨ (count_newlines excerpt = 3%nat ∧ ∃ r, rest = String newline r))
    ∧ ((count_newlines content ≤ 3)%nat → excerpt = content).
Proof.
  intros Hr. unfold fetchReadmeContent. rewrite Hr.
  destruct (take_lines_cut 3 content) as (rest & Hs & Hle & Hrest).
  exists (join_lines (take 4 (split_lines content))), rest.
  split; [reflexivity|]. split; [exact Hs|]. split; [exact Hle|]. split; [exact Hrest|].
  intros Hshort. destruct Hrest as [->|[Hn [r ->]]].
  - rewrite append_empty in Hs. symmetry. exact Hs.
  - exfalso. rewrite Hs, count_newlines_app in Hshort. simpl in Hshort.
    destruct (decide (newline = newline)); [lia|congruence].
Qed.

Lemma readme_excerpt_cut_before_fourth_newline_witness :
  ∃ excerpt rest,
    fetchReadmeContent degraded_net "G2HackFest/web" = Some excerpt
    ∧ excerpt +:+ rest
      = "one" +:+ String newline ("two" +:+ String newline ("three" +:+ String newline
           ("four" +:+ String newline "five")))
    ∧ count_newlines excerpt = 3%nat.
Proof.
  destruct (readme_excerpt_cut_before_fourth_newline degraded_net "G2HackFest/web" _ eq_refl)
    as (excerpt & rest & He & Hc & _ & Hrest & _).
  exists excerpt, rest. split; [exact He|]. split; [symmetry; exact Hc|].
  injection He as <-. reflexivity.
Defined.

(** X2: when the cache is not usable and the provider answers the listing
    of the repositories with a response that is not ok, [fetchData] shows the
    message the status selects (404, 403 and 401 have fixed messages, whatever
    the body says); for any other status it shows the message of the error
    body, a fixed text when that message is absent or empty, and the message
    of the failure when the body cannot be read.  The displayed repositories
    and the store stay as they were. *)
Theorem refused_listing_is_reported
    `{JR : JSON (list Repository)} `{TS : Timestamps} `{ST : Storage} net now now'
    (w : World AppState)
    status body :
  cache_usable "repoData" "lastFetchTime" CACHE_DURATION now w = false →
  get_org_repos net ORGANIZATION_NAME = Returns (NotOk status body) →
  let w' := fetchData net now now' w in
  let shown := error (ui w') in
  (status = 404%N → shown = Some (not_found_message "G2HackFest"))
  ∧ (status = 403%N →
     shown = Some "GitHub API rate limit exceeded. Please try again later.")
  ∧ (status = 401%N →
     shown = Some "Invalid GitHub token. Please check your authentication settings.")
  ∧ (status ≠ 404%N → status ≠ 403%N → status ≠ 401%N →
     match body with
     | Returns answer =>
         match gh_message answer with
         | Some m => if decide (m = EmptyString)
                     then shown = Some "Failed to fetch repositories"
                     else shown = Some m
         | None => shown = Some "Failed to fetch repositories"
         end
     | Throws e => shown = Some (message_or "Failed to fetch repositories" e)
     end)
  ∧ repositories (ui w') = repositories (ui w)
  ∧ localStorage w' = localStorage w
  ∧ loading (ui w') = false.
Proof.
  intros Hu Hr w' shown. subst shown w'.
  rewrite (fetchData_refreshing net now now' w Hu).
  unfold fetchOrganizationRepos. rewrite Hr.
  split; [intros ->; reflexivity|]. split; [intros ->; reflexivity|].
  split; [intros ->; reflexivity|]. split.
  - intros H404 H403 H401.
    destruct (N.eqb_spec status 404); [contradiction|].
    destruct (N.eqb_spec status 403); [contradiction|].
    destruct (N.eqb_spec status 401); [contradiction|].
    destruct body as [answer|e]; [|reflexivity].
    unfold or_else, truthy. destruct (gh_message answer) as [m|]; [|reflexivity].
    destruct (decide (m = EmptyString)) as [->|Hm]; [reflexivity|].
    rewrite bool_decide_eq_false_2 by exact Hm. reflexivity.
  - destruct (status =? 404)%N; [repeat split|].
    destruct (status =? 403)%N; [repeat split|].
    destruct (status =? 401)%N; [repeat split|].
    destruct body; repeat split.
Qed.

Lemma refused_listing_is_reported_witness :
  error (ui (fetchData (JR := repos_json) (TS := decimal_timestamps) (ST := roomy_storage)
               missing_org_net 2600000 2600001 app_world0))
  = Some (not_found_message "G2HackFest").
Proof.
  destruct (refused_listing_is_reported (JR := repos_json) (TS := decimal_timestamps)
              (ST := roomy_storage) missing_org_net 2600000 2600001 app_world0 404%N
              (Returns {| gh_message := Some "Not Found" |}) eq_refl eq_refl)
    as (H404 & _).
  apply H404. reflexivity.
Defined.

(** X3: [fetchOrganizationRepos] returns only when the listing was
    delivered, with one record per listed repository; the description of a
    record is never empty (it is the listed description, or a placeholder
    when that one is [null] or empty) and its README address is its address
    followed by [#readme]. *)
Theorem listed_repositories_are_described net org repos :
  fetchOrganizationRepos net org = Returns repos →
  ∃ raws,
    get_org_repos net org = Returns (Ok (Returns raws))
    ∧ Forall2 (λ raw repo,
                 description repo ≠ EmptyString
                 ∧ (∀ d, raw_description raw = Some d → d ≠ EmptyString →
                         description repo = d)
                 ∧ ((raw_description raw = None ∨ raw_description raw = Some EmptyString) →
                    description repo = "No description provided")
                 ∧ readmeUrl repo = repo_url repo +:+ "#readme")
              raws repos.
Proof.
  unfold fetchOrganizationRepos.
  destruct (get_org_repos net org) as [[[raws|e]|st b]|e]; try discriminate.
  - intros [= <-]. exists raws. split; [reflexivity|].
    induction raws as [|raw raws IH]; simpl; constructor; [|exact IH].
    change (description (build_repo net raw))
      with (or_else (raw_description raw) "No description provided").
    unfold or_else, truthy. destruct (raw_description raw) as [d|].
    + destruct (decide (d = EmptyString)) as [->|Hd].
      * rewrite bool_decide_eq_true_2 by reflexivity. simpl.
        split; [discriminate|]. split; [intros d [= <-] Hd; congruence|].
        split; reflexivity.
      * rewrite bool_decide_eq_false_2 by exact Hd. simpl.
        split; [exact Hd|]. split; [intros d' [= <-] _; reflexivity|].
        split; [|reflexivity].
        intros [?|[= ->]]; [discriminate|contradiction].
    + split; [discriminate|]. split; [discriminate|]. split; reflexivity.
  - destruct (st =? 404)%N; [discriminate|]. destruct (st =? 403)%N; [discriminate|].
    destruct (st =? 401)%N; [discriminate|]. destruct b; discriminate.
Qed.

Lemma listed_repositories_are_described_witness :
  ∃ repo, fetchOrganizationRepos degraded_net "G2HackFest" = Returns [repo]
          ∧ description repo = "No description provided".
Proof.
  destruct (listed_repositories_are_described degraded_net "G2HackFest" _ eq_refl)
    as (raws & Hr & Hall).
  injection Hr as <-.
  inversion Hall as [|raw repo raws' repos' (_ & _ & Hnone & _) Htail]; subst.
  eexists. split; [reflexivity|]. apply Hnone. left. reflexivity.
Defined.

(** X4: [fetchLastCommit] returns a commit exactly when the listing of the
    commits was delivered and is not empty and its first element has its
    [commit] and [author] sub-objects; the commit is then made of the fields
    of that first element, the rest of the listing being ignored. *)
Theorem last_commit_is_first_listed net full c :
  fetchLastCommit net full = Some c ↔
  ∃ raw rest info a,
    get_commits net full = Returns (Ok (Returns (Some (raw :: rest))))
    ∧ raw_commit raw = Some info
    ∧ info_author info = Some a
    ∧ c = {| commit_message := info_message info;
             commit_author := author_name a;
             commit_date := author_date a;
             commit_sha := raw_sha raw;
             commit_url := raw_commit_url raw |}.
Proof.
  unfold fetchLastCommit, commit_of_raw. split.
  - destruct (get_commits net full) as [[[[[|raw rest]|]|e]|st b]|e]; try discriminate.
    destruct (raw_commit raw) as [info|] eqn:Hi; [|discriminate].
    destruct (info_author info) as [a|] eqn:Ha; [|discriminate].
    intros [= <-]. exists raw, rest, info, a. auto.
  - intros (raw & rest & info & a & -> & -> & -> & ->). reflexivity.
Qed.


(** ** The order and the extremes of the aggregation *)

Section order_facts.
Implicit Types (stats : jsobj slot) (repos : list Repository).

Lemma obj_create_append {V} k (v : V) (o : jsobj V) :
  array_index k = None → obj_create k v o = o ++ [(k, v)].
Proof.
  intros Hk. induction o as [|[k1 v1] o IH]; simpl; [reflexivity|].
  unfold stays_before. rewrite Hk, IH. reflexivity.
Qed.

Lemma keys_set_append {V} k (v : V) (o : jsobj V) :
  array_index k = None →
  (obj_set k v o).*1 = if decide (k ∈ o.*1) then o.*1 else o.*1 ++ [k].
Proof.
  intros Hk. unfold obj_set. destruct (obj_get k o) as [x|] eqn:E.
  - rewrite keys_update. destruct (decide (k ∈ o.*1)) as [|Hn]; [reflexivity|].
    apply obj_get_None in Hn. congruence.
  - apply obj_get_None in E. rewrite obj_create_append by exact Hk.
    rewrite fmap_app. destruct (decide (k ∈ o.*1)); [contradiction|reflexivity].
Qed.

Lemma keys_add_repo_append (entries : jsobj N) stats :
  Forall (λ lang, array_index lang = None) entries.*1 →
  (fold_left add_language entries stats).*1
  = fold_left (λ seen k, if decide (k ∈ seen) then seen else seen ++ [k])
      (filter (λ lang, lang ≠ "__proto__") entries.*1) stats.*1.
Proof.
  revert stats. induction entries as [|[k v] entries IH]; intros stats Hall; [reflexivity|].
  rewrite fmap_cons in Hall. apply Forall_cons in Hall as [Hk Hall].
  rewrite fmap_cons. cbn [fold_left fst]. rewrite IH by exact Hall.
  unfold add_language, stats_set. destruct (decide (k = "__proto__")) as [->|Hne].
  - rewrite filter_cons_False by (intros H; apply H; reflexivity). reflexivity.
  - rewrite filter_cons_True by exact Hne. cbn [fold_left]. f_equal.
    apply keys_set_append, Hk.
Qed.

Lemma keys_accumulate_append repos stats :
  Forall (λ lang, array_index lang = None) (language_names repos) →
  (fold_left add_repo repos stats).*1
  = fold_left (λ seen k, if decide (k ∈ seen) then seen else seen ++ [k])
      (filter (λ lang, lang ≠ "__proto__") (language_names repos)) stats.*1.
Proof.
  revert stats. induction repos as [|repo repos IH]; intros stats Hall; [reflexivity|].
  unfold language_names in Hall. cbn [map concat] in Hall.
  apply Forall_app in Hall as [Hrepo Hall].
  cbn [fold_left]. rewrite IH by exact Hall.
  unfold language_names. cbn [map concat]. rewrite filter_app, fold_left_app. f_equal.
  apply keys_add_repo_append, Hrepo.
Qed.

Lemma map_is_fmap {A B} (f : A → B) (l : list A) : map f l = f <$> l.
Proof. induction l as [|x l IH]; [reflexivity|]. cbn [map]. rewrite fmap_cons, IH. reflexivity. Qed.

End order_facts.

(** X5: as long as no language name is an array index, the aggregation
    lists the languages other than [__proto__] in the order of their first
    occurrence over the repositories, whatever their byte counts, and never
    lists a language named [__proto__]; the summary line [Most Used]
    therefore names the first two languages met, not the two largest. *)
Theorem languageStats_in_order_of_first_occurrence repos :
  Forall (λ lang, array_index lang = None) (language_names repos) →
  let listed := filter (λ lang, lang ≠ "__proto__") (language_names repos) in
  name <$> languageStats repos = first_occurrences listed
  ∧ mostUsed (languageStats repos) = Array_join ", " (take 2 (first_occurrences listed)).
Proof.
  intros Hall listed.
  assert (Hn : name <$> languageStats repos = first_occurrences listed).
  { rewrite languageStats_names. unfold accumulate.
    rewrite keys_accumulate_append by exact Hall. reflexivity. }
  split; [exact Hn|].
  unfold mostUsed. rewrite map_is_fmap, fmap_take, Hn. reflexivity.
Qed.

Lemma languageStats_in_order_of_first_occurrence_witness :
  name <$> languageStats mixed_repos = ["Go"; "Rust"; "C"]
  ∧ mostUsed (languageStats mixed_repos) = "Go, Rust".
Proof.
  destruct (languageStats_in_order_of_first_occurrence mixed_repos) as (Hn & Hm).
  - repeat constructor.
  - split; [exact Hn|exact Hm].
Defined.

Section permutation_facts.
Implicit Types (repos : list Repository).

Lemma language_total_perm lang repos1 repos2 :
  repos1 ≡ₚ repos2 → language_total lang repos1 = language_total lang repos2.
Proof.
  unfold language_total. induction 1 as [|x l l' _ IH|x y l|l l' l'' _ IH1 _ IH2];
    cbn [foldr]; [reflexivity|rewrite IH; reflexivity|lia|congruence].
Qed.

Lemma all_bytes_perm repos1 repos2 :
  repos1 ≡ₚ repos2 → all_bytes repos1 = all_bytes repos2.
Proof.
  unfold all_bytes. induction 1 as [|x l l' _ IH|x y l|l l' l'' _ IH1 _ IH2];
    cbn [foldr]; [reflexivity|rewrite IH; reflexivity|lia|congruence].
Qed.

Lemma own_names_perm repos1 repos2 : repos1 ≡ₚ repos2 → own_names repos1 → own_names repos2.
Proof.
  unfold own_names, language_names. intros Hp. rewrite !Forall_concat, !Forall_forall.
  intros H keys Hin. apply H. apply list_elem_of_In, in_map_iff in Hin as (repo & <- & Hin).
  apply list_elem_of_In, in_map_iff. exists repo. split; [reflexivity|].
  apply list_elem_of_In. rewrite Hp. apply list_elem_of_In. exact Hin.
Qed.

(** The entries of the aggregation are those of the languages that occur. *)
Lemma elem_of_languageStats_iff repos st :
  own_names repos → (all_bytes repos < 2 ^ 53)%N →
  st ∈ languageStats repos ↔
  (∃ repo, repo ∈ repos ∧ name st ∈ Object_keys (languages repo))
  ∧ st = stats_entry repos (name st).
Proof.
  intros Hown Hlt. destruct (tally_spec repos) as (Hnd & Hk & Hv & Ht). split.
  - intros Hin.
    destruct (elem_of_languageStats repos st Hown Hlt Hin) as (v & Hin' & Hval & Hcol).
    split.
    + apply Hk. apply list_elem_of_fmap. exists (name st, v). split; [reflexivity|exact Hin'].
    + rewrite (Hv _ _ Hin') in Hval. destruct st as [n v' c]. unfold stats_entry.
      simpl in *. congruence.
  - intros [Hin ->]. apply Hk in Hin. cbn [name stats_entry] in Hin.
    apply list_elem_of_fmap in Hin as ([k v] & Ek & Hin). simpl in Ek. subst k.
    rewrite languageStats_exact by assumption.
    apply list_elem_of_In, in_map_iff. exists (name st, v).
    split; [|apply list_elem_of_In; exact Hin].
    rewrite (Hv _ _ Hin). reflexivity.
Qed.

Lemma NoDup_languageStats repos :
  own_names repos → (all_bytes repos < 2 ^ 53)%N → NoDup (languageStats repos).
Proof.
  intros Hown Hlt. apply (NoDup_fmap_1 name).
  rewrite languageStats_own_names by assumption. apply tally_spec.
Qed.

End permutation_facts.

(** X6: for repositories in which no language is named like a member of
    [Object.prototype] and whose byte counts sum to less than [2^53], the
    aggregation of a permutation of the repositories is a permutation of the
    aggregation: the percentage and the colour of a language do not depend
    on the order of the repositories. *)
Theorem languageStats_permutation repos1 repos2 :
  repos1 ≡ₚ repos2 →
  own_names repos1 →
  (all_bytes repos1 < 2 ^ 53)%N →
  languageStats repos1 ≡ₚ languageStats repos2.
Proof.
  intros Hp Hown Hlt.
  pose proof (own_names_perm _ _ Hp Hown) as Hown2.
  assert (Hlt2 : (all_bytes repos2 < 2 ^ 53)%N) by (rewrite <- (all_bytes_perm _ _ Hp); exact Hlt).
  apply NoDup_Permutation; [apply NoDup_languageStats; assumption..|].
  intros st. rewrite !elem_of_languageStats_iff by assumption. unfold stats_entry.
  rewrite (language_total_perm _ _ _ Hp), (all_bytes_perm _ _ Hp).
  split; intros [(repo & Hin & Hl) E]; (split; [|exact E]); exists repo;
    (split; [|exact Hl]); [rewrite <- Hp|rewrite Hp]; exact Hin.
Qed.

Lemma languageStats_permutation_witness :
  languageStats mixed_repos ≡ₚ languageStats (rev mixed_repos).
Proof.
  apply (languageStats_permutation mixed_repos (rev mixed_repos)).
  - apply Permutation_swap.
  - repeat constructor.
  - reflexivity.
Defined.

Section extremes.

Lemma Z2SF_inj (z1 z2 : Z) :
  0 <= z1 < 2 ^ 53 → 0 <= z2 < 2 ^ 53 → Z2SF z1 = Z2SF z2 → z1 = z2.
Proof.
  intros H1 H2 E.
  destruct (Z.eq_dec z1 0) as [->|Hz1]; destruct (Z.eq_dec z2 0) as [->|Hz2];
    [reflexivity| | |].
  - destruct (Z2SF_exact z2) as (m & e & E2 & _); [lia|].
    rewrite E2 in E. discriminate.
  - destruct (Z2SF_exact z1) as (m & e & E1 & _); [lia|].
    rewrite E1 in E. discriminate.
  - destruct (Z2SF_exact z1) as (m1 & e1 & E1 & Hm1 & He1 & Hv1); [lia|].
    destruct (Z2SF_exact z2) as (m2 & e2 & E2 & Hm2 & He2 & Hv2); [lia|].
    rewrite E1, E2 in E. injection E as <- <-.
    apply (Z.mul_cancel_r _ _ (2 ^ (- e1))); [|congruence].
    intros Hp. rewrite Hp in Hv1. lia.
Qed.

End extremes.

(** X7: for repositories in which no language is named like a member of
    [Object.prototype], over a positive total below [2^44], a language
    without bytes is shown with 0 and a language that holds every byte with
    100, exactly; conversely a shown 0 means a share of at most one half of a
    percent and a shown 100 a share of at least 99.5 percent. *)
Theorem percentage_extremes repos st :
  own_names repos →
  (0 < all_bytes repos < 2 ^ 44)%N →
  st ∈ languageStats repos →
  let s := language_total (name st) repos in
  (s = 0%N → value st = Z2SF 0)
  ∧ (s = all_bytes repos → value st = Z2SF 100)
  ∧ (value st = Z2SF 0 → (200 * s <= all_bytes repos)%N)
  ∧ (value st = Z2SF 100 → (199 * all_bytes repos <= 200 * s)%N).
Proof.
  intros Hown HT Hin s.
  destruct (languageStats_entry repos st Hown HT Hin) as (_ & _ & Hle & z & Hz & Hnear).
  fold s in Hle, Hnear.
  assert (Hz100 : 0 <= z <= 100) by nia.
  rewrite Hz. split; [|split; [|split]].
  - intros E. rewrite E in Hnear. f_equal. nia.
  - intros E. rewrite E in Hnear. f_equal. nia.
  - intros E. apply Z2SF_inj in E; [|lia..]. subst z. lia.
  - intros E. apply Z2SF_inj in E; [|lia..]. subst z. lia.
Qed.

Lemma percentage_extremes_witness :
  value (stats_entry [mkRepo "r" [("Go", 7%N); ("C", 0%N)]] "C") = Z2SF 0.
Proof.
  destruct (percentage_extremes [mkRepo "r" [("Go", 7%N); ("C", 0%N)]]
              (stats_entry [mkRepo "r" [("Go", 7%N); ("C", 0%N)]] "C")) as (H0 & _).
  - repeat constructor.
  - split; reflexivity.
  - vm_compute. right. left.
  - apply H0. reflexivity.
Defined.

(** ** The breakdown of a card *)

Section card_facts.
Local Open Scope R_scope.

Lemma card_percentages (T : N) (entries : jsobj N) :
  (0 < T < 2 ^ 44)%N →
  (∀ k v, (k, v) ∈ entries → (v <= T)%N) →
  ∃ zs,
    map (λ '(_, v), rounded_share v T) entries = Z2SF <$> zs
    ∧ Forall2 (λ z entry, (0 <= z <= 100)%Z ∧ Rabs (IZR z - exact_share entry.2 T) <= / 2)
        zs entries.
Proof.
  intros HT. induction entries as [|[k v] entries IH]; intros Hle.
  - exists []. split; [reflexivity|constructor].
  - destruct IH as (zs & Hzs & Hall); [intros k' v' Hin; apply (Hle k'); right; exact Hin|].
    destruct (percentage_nearest v T) as (z & Hz & Hnear);
      [lia|apply (Hle k); left|lia|].
    exists (z :: zs). split.
    + cbn [map]. rewrite fmap_cons, Hz, Hzs. reflexivity.
    + constructor; [|exact Hall]. split.
      * assert (Z.of_N v <= Z.of_N T)%Z by (apply N2Z.inj_le, (Hle k); left). nia.
      * unfold exact_share. apply nearest_real; [lia|exact Hnear].
Qed.

Lemma Forall2_shares (T : N) (zs : list Z) (entries : jsobj N) :
  Forall2 (λ z entry, (0 <= z <= 100)%Z ∧ Rabs (IZR z - exact_share entry.2 T) <= / 2)
    zs entries →
  Forall2 (λ z share, Rabs (IZR z - share) <= / 2) zs
    (map (λ entry, exact_share entry.2 T) entries).
Proof.
  induction 1 as [|z entry zs entries [_ Hz] _ IH]; cbn [map]; constructor; assumption.
Qed.

Lemma card_names (T : number) (l : jsobj N) :
  name <$> map (λ '(n, v), {| name := n;
                              value := Math_round (mul (div (N2SF v) T) (Z2SF 100));
                              color := card_color n |}) l
  = l.*1.
Proof.
  induction l as [|[k v] l IH]; [reflexivity|].
  cbn [map]. rewrite !fmap_cons. cbn [name fst]. f_equal. exact IH.
Qed.

Lemma card_colors (T : number) (l : jsobj N) :
  color <$> map (λ '(n, v), {| name := n;
                               value := Math_round (mul (div (N2SF v) T) (Z2SF 100));
                               color := card_color n |}) l
  = card_color <$> l.*1.
Proof.
  induction l as [|[k v] l IH]; [reflexivity|].
  cbn [map]. rewrite !fmap_cons. cbn [color fst]. f_equal. exact IH.
Qed.

Lemma card_values (T : N) (l : jsobj N) :
  value <$> map (λ '(n, v), {| name := n;
                               value := Math_round (mul (div (N2SF v) (N2SF T)) (Z2SF 100));
                               color := card_color n |}) l
  = map (λ '(_, v), rounded_share v T) l.
Proof.
  induction l as [|[k v] l IH]; [reflexivity|].
  cbn [map]. rewrite !fmap_cons. cbn [value]. f_equal. exact IH.
Qed.

End card_facts.

Section card_total.

Lemma fold_add_numbers (l : list N) (acc : N) :
  (acc + sumN l < 2 ^ 53)%N →
  fold_left add (map N2SF l) (N2SF acc) = N2SF (acc + sumN l).
Proof.
  revert acc. induction l as [|x l IH]; intros acc Hlt.
  - cbn. rewrite N.add_0_r. reflexivity.
  - rewrite sumN_cons in Hlt. cbn [map fold_left].
    rewrite N2SF_add by lia. rewrite IH by lia. f_equal. rewrite sumN_cons. lia.
Qed.

(** The table of the card has no entry for a member of [Object.prototype]. *)
Lemma card_color_spec (lang : string) :
  card_color lang =
    if inherited lang then NotAColour lang
    else Colour (default "#6e7681" (obj_get lang languageColors)).
Proof.
  unfold card_color. destruct (inherited lang) eqn:Hin.
  - unfold inherited in Hin. apply bool_decide_eq_true in Hin.
    unfold Object_prototype in Hin.
    repeat (apply elem_of_cons in Hin as [->|Hin]; [reflexivity|]).
    inversion Hin.
  - destruct (obj_get lang languageColors); reflexivity.
Qed.

End card_total.

(** X8: for a language map with a positive total below [2^44] the
    breakdown of a card has one entry per language, in the order of the map;
    the colour of a language that is not named like a member of
    [Object.prototype] is the one the table of the card gives, gray for a
    language outside of it, and the colour of a language named like such a
    member is that member, not a colour; each percentage is an integer from 0
    to 100 within one half of the exact share, and the percentages sum to
    100 up to half the number of languages. *)
Theorem languageData_breakdown (langs : jsobj N) :
  (0 < sumN langs.*2 < 2 ^ 44)%N →
  let out := languageData langs in
  name <$> out = langs.*1
  ∧ color <$> out
    = (λ lang, if inherited lang then NotAColour lang
               else Colour (default "#6e7681" (obj_get lang languageColors))) <$> langs.*1
  ∧ ∃ zs : list Z,
      value <$> out = Z2SF <$> zs
      ∧ Forall2 (λ z entry,
                   0 <= z <= 100
                   ∧ (Rabs (IZR z - exact_share entry.2 (sumN langs.*2)) <= / 2)%R)
          zs langs
      ∧ (Rabs (IZR (sumZ zs) - 100) <= INR (length langs) / 2)%R.
Proof.
  intros HT out. subst out. unfold languageData, Object_entries, Object_values.
  assert (Etot : fold_left add (map N2SF langs.*2) (Z2SF 0) = N2SF (sumN langs.*2)).
  { change (Z2SF 0) with (N2SF 0%N). rewrite fold_add_numbers; rewrite N.add_0_l;
      [reflexivity|]. eapply N.lt_trans; [apply HT|]. reflexivity. }
  rewrite Etot.
  rewrite card_names, card_colors, card_values.
  split; [reflexivity|]. split.
  { apply list_fmap_ext. intros i lang _. apply card_color_spec. }
  destruct (card_percentages (sumN langs.*2) langs HT) as (zs & Hzs & Hall).
  { intros k v Hin. apply (elem_of_le_sumN k). exact Hin. }
  exists zs. split; [exact Hzs|]. split; [exact Hall|].
  pose proof (sum_of_nearest zs _ (Forall2_shares _ zs langs Hall)) as Hsum.
  rewrite length_map, sumR_shares, exact_share_total in Hsum by lia. exact Hsum.
Qed.

Lemma languageData_breakdown_witness :
  name <$> languageData [("Rust", 5%N); ("Go", 1%N)] = ["Rust"; "Go"]
  ∧ color <$> languageData [("Rust", 5%N); ("Go", 1%N)]
    = [Colour "#dea584"; Colour "#00ADD8"].
Proof.
  destruct (languageData_breakdown [("Rust", 5%N); ("Go", 1%N)]) as (Hn & Hc & _).
  - split; reflexivity.
  - split; [exact Hn|exact Hc].
Defined.

(** X9: the two palettes agree: a language the palette of the aggregation
    knows has the same colour on the cards; every other language is gray in
    the aggregation. *)
Theorem palettes_agree (lang : string) :
  if decide (lang ∈ ["TypeScript"; "JavaScript"; "Python"; "Java"; "Ruby"; "Go"])
  then card_color lang = Colour (color_of lang)
  else color_of lang = "#6e7681".
Proof.
  unfold color_of.
  destruct (decide (lang = "TypeScript")) as [->|H1]; [reflexivity|].
  destruct (decide (lang = "JavaScript")) as [->|H2]; [reflexivity|].
  destruct (decide (lang = "Python")) as [->|H3]; [reflexivity|].
  destruct (decide (lang = "Java")) as [->|H4]; [reflexivity|].
  destruct (decide (lang = "Ruby")) as [->|H5]; [reflexivity|].
  destruct (decide (lang = "Go")) as [->|H6]; [reflexivity|].
  rewrite decide_False; [reflexivity|].
  intros Hin. repeat (apply elem_of_cons in Hin as [->|Hin]; [congruence|]).
  inversion Hin.
Qed.

(** ** The search of the public view *)

Section search_facts.

Lemma append_assoc (a b c : string) : (a +:+ b) +:+ c = a +:+ (b +:+ c).
Proof.
  induction a as [|x a IH]; [reflexivity|].
  change (String x ((a +:+ b) +:+ c) = String x (a +:+ (b +:+ c))). f_equal. exact IH.
Qed.

Lemma prefix_spec (q s : string) : String.prefix q s = true ↔ ∃ b, s = q +:+ b.
Proof.
  revert s. induction q as [|x q IH]; intros s.
  - split; [intros _; exists s; reflexivity|]. intros _. destruct s; reflexivity.
  - destruct s as [|y s]; cbn [String.prefix].
    + split; [discriminate|]. intros [b Hb]. discriminate.
    + destruct (ascii_dec x y) as [->|Hne].
      * rewrite IH. split; intros [b Hb]; exists b.
        -- change (String y s = String y (q +:+ b)). f_equal. exact Hb.
        -- change (String y s = String y (q +:+ b)) in Hb. congruence.
      * split; [discriminate|]. intros [b Hb].
        change (String y s = String x (q +:+ b)) in Hb. congruence.
Qed.

Lemma includes_spec (s q : string) : includes s q = true ↔ occurs_in q s.
Proof.
  unfold occurs_in. induction s as [|x s IH]; cbn [includes].
  - rewrite orb_false_r, prefix_spec. split.
    + intros [b Hb]. exists EmptyString, b. exact Hb.
    + intros ([|y a] & b & Hab); [exists b; exact Hab|discriminate].
  - rewrite orb_true_iff, prefix_spec, IH. split.
    + intros [[b Hb]|(a & b & Hab)].
      * exists EmptyString, b. exact Hb.
      * exists (String x a), b. change (String x s = String x (a +:+ q +:+ b)).
        f_equal. exact Hab.
    + intros ([|y a] & b & Hab).
      * left. exists b. exact Hab.
      * right. exists a, b. change (String x s = String y (a +:+ q +:+ b)) in Hab.
        congruence.
Qed.

Lemma occurs_in_trans (a b c : string) : occurs_in a b → occurs_in b c → occurs_in a c.
Proof.
  intros (a1 & a2 & ->) (b1 & b2 & ->). exists (b1 +:+ a1), (a2 +:+ b2).
  rewrite !append_assoc. reflexivity.
Qed.

Lemma filter_filter_implied {A} (p q : A → bool) (l : list A) :
  (∀ x, q x = true → p x = true) → List.filter q (List.filter p l) = List.filter q l.
Proof.
  intros Himp. induction l as [|x l IH]; [reflexivity|]. cbn [List.filter].
  destruct (p x) eqn:Ep.
  - cbn [List.filter]. rewrite IH. reflexivity.
  - rewrite IH. destruct (q x) eqn:Eq; [|reflexivity].
    apply Himp in Eq. congruence.
Qed.

End search_facts.

(** X10: when the folded text of a query occurs in the folded text of a
    second query, searching with the second one within the results of the
    first gives what the second gives alone, and every repository the second
    finds the first finds too; a repository is found exactly when the folded
    query occurs in its folded name; the empty query finds every
    repository. *)
Theorem search_narrows `{CF : CaseFolding} (q1 q2 : string) (repos : list Repository) :
  occurs_in (toLowerCase q1) (toLowerCase q2) →
  filteredRepos q2 (filteredRepos q1 repos) = filteredRepos q2 repos
  ∧ (∀ repo, repo ∈ filteredRepos q2 repos → repo ∈ filteredRepos q1 repos)
  ∧ (∀ repo, repo ∈ filteredRepos q1 repos ↔
             repo ∈ repos ∧ occurs_in (toLowerCase q1) (toLowerCase (repo_name repo)))
  ∧ (toLowerCase EmptyString = EmptyString → filteredRepos EmptyString repos = repos).
Proof.
  intros Hq.
  assert (Himp : ∀ repo,
             includes (toLowerCase (repo_name repo)) (toLowerCase q2) = true →
             includes (toLowerCase (repo_name repo)) (toLowerCase q1) = true).
  { intros repo. rewrite !includes_spec. apply occurs_in_trans, Hq. }
  assert (Hin : ∀ q repo, repo ∈ filteredRepos q repos ↔
                  repo ∈ repos ∧ occurs_in (toLowerCase q) (toLowerCase (repo_name repo))).
  { intros q repo. unfold filteredRepos.
    rewrite list_elem_of_In, filter_In, <- list_elem_of_In, includes_spec. reflexivity. }
  split; [|split; [|split]].
  - unfold filteredRepos. apply filter_filter_implied. exact Himp.
  - intros repo. rewrite !Hin, <- !includes_spec. intros [? ?]. auto.
  - apply Hin.
  - intros E. unfold filteredRepos. rewrite E. clear.
    induction repos as [|repo repos IH]; [reflexivity|]. cbn [List.filter].
    replace (includes (toLowerCase (repo_name repo)) EmptyString) with true
      by (destruct (toLowerCase (repo_name repo)); reflexivity).
    f_equal. exact IH.
Qed.

Lemma search_narrows_witness :
  filteredRepos (CF := ascii_folding) "RuSt" (filteredRepos (CF := ascii_folding) "us" mixed_repos)
  = filteredRepos (CF := ascii_folding) "RuSt" mixed_repos.
Proof.
  destruct (search_narrows (CF := ascii_folding) "us" "RuSt" mixed_repos) as (H & _).
  - exists "r", "t". reflexivity.
  - exact H.
Defined.

(** ** The selection of the admin view *)

Section selection_facts.

Lemma filter_close_update (p : PullRequest → bool) n r prs :
  (∀ pr, p (with_state_closed pr) = p pr) →
  List.filter p (close_update n r prs) = close_update n r (List.filter p prs).
Proof.
  intros Hp. unfold close_update. induction prs as [|pr prs IH]; [reflexivity|].
  cbn [map List.filter].
  assert (E : p (if matches n r pr then with_state_closed pr else pr) = p pr)
    by (destruct (matches n r pr); [apply Hp|reflexivity]).
  rewrite E. destruct (p pr); [cbn [map]|]; rewrite IH; reflexivity.
Qed.

Lemma length_filter_close_update (p : PullRequest → bool) n r prs :
  (∀ pr, p (with_state_closed pr) = p pr) →
  length (List.filter p (close_update n r prs)) = length (List.filter p prs).
Proof.
  intros Hp. rewrite filter_close_update by exact Hp. unfold close_update.
  apply length_map.
Qed.

End selection_facts.

(** X11: the selection [all] shows every pull request; any other selection
    shows exactly the pull requests whose repository has the selected name (so
    that a repository named [all] cannot be singled out); the selection
    commutes with the local close update, which never changes the number of
    pull requests shown. *)
Theorem selection_commutes_with_closing (selected : string) n r (prs : list PullRequest) :
  filteredPRs "all" prs = prs
  ∧ (∀ pr, pr ∈ filteredPRs selected prs ↔
           pr ∈ prs ∧ (selected = "all" ∨ ref_name (pr_repository pr) = selected))
  ∧ filteredPRs selected (close_update n r prs) = close_update n r (filteredPRs selected prs)
  ∧ length (filteredPRs selected (close_update n r prs)) = length (filteredPRs selected prs).
Proof.
  split; [reflexivity|]. split; [|split].
  - intros pr. unfold filteredPRs. destruct (decide (selected = "all")) as [->|Hne].
    + tauto.
    + rewrite list_elem_of_In, filter_In, <- list_elem_of_In, bool_decide_eq_true. tauto.
  - unfold filteredPRs. destruct (decide (selected = "all")); [reflexivity|].
    apply filter_close_update. reflexivity.
  - unfold filteredPRs. destruct (decide (selected = "all")).
    + unfold close_update. apply length_map.
    + apply length_filter_close_update. reflexivity.
Qed.

(** X12: after a call of [deletePullRequest] that shows its success
    message, the displayed list has the length it had, no pull request with
    the given number and repository offers the close button any more, and
    every pull request that still offers it was displayed before and is not
    the one addressed. *)
Theorem closed_pull_request_offers_no_close `{JP : JSON PrCache} `{ST : Storage} net n r
    (w : World AdminState) :
  let w' := deletePullRequest net n r w in
  toasts w' = toasts w ++ ["Pull request closed successfully"] →
  ∃ prs prs',
    pullRequests (ui w) = Some prs
    ∧ pullRequests (ui w') = Some prs'
    ∧ length prs' = length prs
    ∧ (∀ pr, pr ∈ prs' → matches n r pr = true → close_offered pr = false)
    ∧ (∀ pr, pr ∈ prs' → close_offered pr = true → pr ∈ prs ∧ matches n r pr = false).
Proof.
  intros w' Ht.
  destruct (deletePullRequest_toast_inv _ _ _ _ Ht) as (b & prs & c & Hp & Hs & Hc & Hw).
  exists prs, (close_update n r prs). subst w'.
  rewrite (deletePullRequest_success _ _ _ _ _ _ _ Hp Hs Hc Hw). cbn [ui pullRequests].
  split; [exact Hs|]. split; [reflexivity|]. split; [apply length_map|].
  assert (Hin : ∀ pr, pr ∈ close_update n r prs →
                  ∃ old, old ∈ prs
                         ∧ pr = if matches n r old then with_state_closed old else old).
  { intros pr Hin. unfold close_update in Hin.
    apply list_elem_of_In, in_map_iff in Hin as (old & <- & Hin).
    exists old. split; [apply list_elem_of_In; exact Hin|reflexivity]. }
  split.
  - intros pr Hpr Hm. destruct (Hin pr Hpr) as (old & _ & ->).
    destruct (matches n r old) eqn:E; [reflexivity|congruence].
  - intros pr Hpr Ho. destruct (Hin pr Hpr) as (old & Hold & ->).
    destruct (matches n r old) eqn:E; [discriminate|]. split; assumption.
Qed.

Lemma closed_pull_request_offers_no_close_witness :
  ∃ prs', pullRequests (ui (deletePullRequest (JP := admin_json) (ST := roomy_storage)
                                closing_net 7 "web" admin_world0))
          = Some prs'
          ∧ ∀ pr, pr ∈ prs' → matches 7 "web" pr = true → close_offered pr = false.
Proof.
  destruct (closed_pull_request_offers_no_close (JP := admin_json) (ST := roomy_storage)
              closing_net 7 "web" admin_world0 eq_refl)
    as (prs & prs' & _ & Hs & _ & Hc & _).
  exists prs'. split; [exact Hs|exact Hc].
Defined.

(** ** A close that the provider refuses *)

(** X13: when the provider does not confirm the close (the request rejects
    or the response is not ok), [deletePullRequest] leaves the displayed pull
    requests, the repositories, the selection, the store and the messages of
    the page as they were and reports an error: the message of the error
    body, a fixed text when that message is absent or empty, the message of
    the failure when the request rejects. *)
Theorem refused_close_changes_nothing `{JP : JSON PrCache} `{ST : Storage} net n r
    (w : World AdminState) :
  (∀ b, patch_pull net r n ≠ Returns (Ok b)) →
  let w' := deletePullRequest net n r w in
  pullRequests (ui w') = pullRequests (ui w)
  ∧ admin_repositories (ui w') = admin_repositories (ui w)
  ∧ selectedRepo (ui w') = selectedRepo (ui w)
  ∧ localStorage w' = localStorage w
  ∧ toasts w' = toasts w
  ∧ is_Some (admin_error (ui w'))
  ∧ (∀ status answer m,
       patch_pull net r n = Returns (NotOk status (Returns answer)) →
       gh_message answer = Some m → m ≠ EmptyString →
       admin_error (ui w') = Some m)
  ∧ (∀ status answer,
       patch_pull net r n = Returns (NotOk status (Returns answer)) →
       gh_message answer = None ∨ gh_message answer = Some EmptyString →
       admin_error (ui w') = Some "Failed to delete pull request")
  ∧ (∀ e, patch_pull net r n = Throws e →
          admin_error (ui w') = Some (message_or "Failed to delete pull request" e)).
Proof.
  intros Hno w'. subst w'.
  unfold deletePullRequest, deletePullRequest_call, deletePullRequest_body.
  unfold setDeletingPR, setPullRequests, setAdminError. unfold_M. simpl.
  destruct (patch_pull net r n) as [[b|st [answer|e]]|e] eqn:Hp; simpl.
  - destruct (Hno b). reflexivity.
  - repeat split; try (eexists; reflexivity); try discriminate.
    + intros status answer' m [= _ <-] Hm Hne. unfold or_else, truthy. rewrite Hm.
      rewrite bool_decide_eq_false_2 by exact Hne. reflexivity.
    + intros status answer' [= _ <-] [Hm|Hm]; unfold or_else; rewrite Hm; reflexivity.
  - repeat split; try (eexists; reflexivity); discriminate.
  - repeat split; try (eexists; reflexivity); try discriminate.
    intros e' [= <-]. reflexivity.
Qed.

Lemma refused_close_changes_nothing_witness :
  let w' := deletePullRequest (JP := admin_json) (ST := roomy_storage)
              forbidding_net 7 "web" admin_world0 in
  pullRequests (ui w') = Some [pr7; pr8] ∧ admin_error (ui w') = Some "Forbidden".
Proof.
  intros w'.
  destruct (refused_close_changes_nothing (JP := admin_json) (ST := roomy_storage)
              forbidding_net 7 "web" admin_world0)
    as (Hp & _ & _ & _ & _ & _ & Hm & _).
  - intros b. discriminate.
  - split; [exact Hp|]. apply (Hm 403%N {| gh_message := Some "Forbidden" |} "Forbidden");
      [reflexivity|reflexivity|discriminate].
Defined.

(** ** What every run of a handler does *)

(** X14: whatever the store, the provider and the parsers do, a run of
    [fetchData] or of [fetchAllData] ends with the loading flag cleared and
    shows no message on the page; [fetchData] sends at most its one listing
    request; [fetchAllData] leaves the pending close and the selection alone;
    a run of [deletePullRequest] sends exactly one request, ends with no
    close pending and leaves the loading flag, the repositories and the
    selection alone. *)
Theorem handlers_clear_their_busy_flags
    `{JR : JSON (list Repository)} `{JP : JSON PrCache} `{TS : Timestamps} `{ST : Storage}
    (net : Network) (env : Env) (anet : AdminNetwork) (now now' : Z) :
  (∀ w : World AppState,
     let w' := fetchData net now now' w in
     loading (ui w') = false ∧ toasts w' = toasts w
     ∧ (requests w' = requests w ∨ requests w' = requests w ++ [ReqOrgRepos ORGANIZATION_NAME]))
  ∧ (∀ w : World AdminState,
       let w' := fetchAllData env anet now now' w in
       admin_loading (ui w') = false ∧ toasts w' = toasts w
       ∧ deletingPR (ui w') = deletingPR (ui w) ∧ selectedRepo (ui w') = selectedRepo (ui w))
  ∧ (∀ (w : World AdminState) n r,
       let w' := deletePullRequest anet n r w in
       deletingPR (ui w') = None
       ∧ requests w' = requests w ++ [ReqClosePull r n]
       ∧ admin_loading (ui w') = admin_loading (ui w)
       ∧ admin_repositories (ui w') = admin_repositories (ui w)
       ∧ selectedRepo (ui w') = selectedRepo (ui w)).
Proof.
  split; [|split].
  - intros w w'. subst w'.
    destruct (cache_usable "repoData" "lastFetchTime" CACHE_DURATION now w) eqn:Hu.
    + destruct (cache_usable_payload _ _ _ _ _ Hu) as [data Hd].
      rewrite (fetchData_cached net now now' w data Hu Hd).
      destruct (JSON_parse data); simpl; auto.
    + rewrite (fetchData_refreshing net now now' w Hu).
      destruct (fetchOrganizationRepos net ORGANIZATION_NAME); simpl; auto.
  - intros w w'. subst w'. destruct (env_valid env) eqn:Hv.
    + destruct (cache_usable "allPullRequestsData" "prLastFetchTime" PR_CACHE_DURATION now w)
        eqn:Hu.
      * destruct (cache_usable_payload _ _ _ _ _ Hu) as [data Hd].
        rewrite (fetchAllData_cached env anet now now' w data Hv Hu Hd).
        destruct (JSON_parse data); simpl; auto.
      * rewrite (fetchAllData_refreshing env anet now now' w Hv Hu). unfold after_refresh.
        destruct (list_repos anet) as [[[repos|e]|st b]|e]; simpl; auto.
        destruct (all_pulls anet repos); simpl; auto.
    + rewrite (fetchAllData_invalid_env env anet now now' w Hv). simpl. auto.
  - intros w n r w'. subst w'. unfold deletePullRequest, run.
    destruct (patch_pull anet r n) as [[b|st body]|e] eqn:Hp.
    + destruct (pullRequests (ui w)) as [prs|] eqn:Hs.
      * rewrite (deletePullRequest_call_confirmed anet n r w b prs Hp Hs). simpl.
        destruct (load_cached_object w).1 as [c|e]; simpl; auto.
        destruct (refusal (localStorage w) "allPullRequestsData" _); simpl; auto.
      * destruct (deletePullRequest_call_failed anet n r w) as [m ->];
          [intros; assumption|]. simpl. auto.
    + destruct (deletePullRequest_call_failed anet n r w) as [m ->];
        [intros b'; rewrite Hp; discriminate|]. simpl. auto.
    + destruct (deletePullRequest_call_failed anet n r w) as [m ->];
        [intros b'; rewrite Hp; discriminate|]. simpl. auto.
Qed.

Lemma cache_usable_store `{TS : Timestamps} {S S'} pk tk ttl now (w : World S) (w' : World S') :
  localStorage w' = localStorage w →
  cache_usable pk tk ttl now w' = cache_usable pk tk ttl now w.
Proof. unfold cache_usable. intros ->. reflexivity. Qed.

(** X15: the error message and the loading flag a handler starts from have
    no influence on what [fetchData] and [fetchAllData] leave: the message of
    an earlier failure never survives a later run.  When [fetchData] ends
    without an error, the repositories it shows are those it has just read,
    from the stored payload without a request or from the provider with
    one. *)
Theorem previous_error_is_forgotten
    `{JR : JSON (list Repository)} `{JP : JSON PrCache} `{TS : Timestamps} `{ST : Storage}
    (net : Network) (env : Env) (anet : AdminNetwork) (now now' : Z) :
  (∀ (w : World AppState) e b,
     fetchData net now now'
       (mkWorld {| repositories := repositories (ui w); error := e; loading := b |}
          (localStorage w) (requests w) (toasts w))
     = fetchData net now now' w)
  ∧ (∀ (w : World AdminState) e b,
       fetchAllData env anet now now'
         (mkWorld {| pullRequests := pullRequests (ui w);
                     admin_repositories := admin_repositories (ui w);
                     admin_loading := b; admin_error := e;
                     deletingPR := deletingPR (ui w); selectedRepo := selectedRepo (ui w) |}
            (localStorage w) (requests w) (toasts w))
       = fetchAllData env anet now now' w)
  ∧ (∀ w : World AppState,
       let w' := fetchData net now now' w in
       error (ui w') = None →
       (∃ data, localStorage w !! "repoData" = Some data
                ∧ JSON_parse data = Returns (repositories (ui w'))
                ∧ requests w' = requests w)
       ∨ (fetchOrganizationRepos net ORGANIZATION_NAME = Returns (repositories (ui w'))
          ∧ requests w' = requests w ++ [ReqOrgRepos ORGANIZATION_NAME])).
Proof.
  split; [|split].
  - intros w e b.
    set (w0 := mkWorld _ _ _ _).
    assert (Hs : localStorage w0 = localStorage w) by reflexivity.
    pose proof (cache_usable_store "repoData" "lastFetchTime" CACHE_DURATION now w w0 Hs) as Hu0.
    destruct (cache_usable "repoData" "lastFetchTime" CACHE_DURATION now w) eqn:Hu.
    + destruct (cache_usable_payload _ _ _ _ _ Hu) as [data Hd].
      rewrite (fetchData_cached net now now' w data Hu Hd).
      rewrite (fetchData_cached net now now' w0 data Hu0 Hd). reflexivity.
    + rewrite (fetchData_refreshing net now now' w Hu).
      rewrite (fetchData_refreshing net now now' w0 Hu0). reflexivity.
  - intros w e b.
    set (w0 := mkWorld _ _ _ _).
    assert (Hs : localStorage w0 = localStorage w) by reflexivity.
    pose proof (cache_usable_store "allPullRequestsData" "prLastFetchTime" PR_CACHE_DURATION
                  now w w0 Hs) as Hu0.
    destruct (env_valid env) eqn:Hv.
    + destruct (cache_usable "allPullRequestsData" "prLastFetchTime" PR_CACHE_DURATION now w)
        eqn:Hu.
      * destruct (cache_usable_payload _ _ _ _ _ Hu) as [data Hd].
        rewrite (fetchAllData_cached env anet now now' w data Hv Hu Hd).
        rewrite (fetchAllData_cached env anet now now' w0 data Hv Hu0 Hd). reflexivity.
      * rewrite (fetchAllData_refreshing env anet now now' w Hv Hu).
        rewrite (fetchAllData_refreshing env anet now now' w0 Hv Hu0). reflexivity.
    + rewrite (fetchAllData_invalid_env env anet now now' w Hv).
      rewrite (fetchAllData_invalid_env env anet now now' w0 Hv). reflexivity.
  - intros w w'. subst w'.
    destruct (cache_usable "repoData" "lastFetchTime" CACHE_DURATION now w) eqn:Hu.
    + destruct (cache_usable_payload _ _ _ _ _ Hu) as [data Hd].
      rewrite (fetchData_cached net now now' w data Hu Hd).
      destruct (JSON_parse data) as [repos|e] eqn:Hj; simpl; [|discriminate].
      intros _. left. exists data. rewrite Hj. auto.
    + rewrite (fetchData_refreshing net now now' w Hu).
      destruct (fetchOrganizationRepos net ORGANIZATION_NAME); simpl; [|discriminate].
      intros _. right. auto.
Qed.

(** X16: when the organisation or the token is undefined or empty,
    [fetchAllData] sends no request and reads no cache, even a fresh one: the
    store and the displayed lists stay as they were and the configuration
    error is shown. *)
Theorem missing_configuration_blocks_refresh `{JP : JSON PrCache} `{TS : Timestamps}
    `{ST : Storage} (env : Env) (net : AdminNetwork) (now now' : Z) (w : World AdminState) :
  VITE_GITHUB_ORG env = None ∨ VITE_GITHUB_ORG env = Some EmptyString
  ∨ VITE_GITHUB_TOKEN env = None ∨ VITE_GITHUB_TOKEN env = Some EmptyString →
  let w' := fetchAllData env net now now' w in
  requests w' = requests w
  ∧ localStorage w' = localStorage w
  ∧ pullRequests (ui w') = pullRequests (ui w)
  ∧ admin_repositories (ui w') = admin_repositories (ui w)
  ∧ admin_error (ui w')
    = Some "Missing required environment variables. Please check your .env file."
  ∧ admin_loading (ui w') = false.
Proof.
  intros Henv w'. subst w'.
  assert (Hv : env_valid env = false).
  { unfold env_valid, truthy_opt, truthy.
    destruct Henv as [-> | [-> | [-> | ->]]]; try reflexivity; apply andb_false_r. }
  rewrite (fetchAllData_invalid_env env net now now' w Hv). repeat split.
Qed.

Lemma missing_configuration_blocks_refresh_witness :
  let w' := fetchAllData (JP := admin_json) (TS := decimal_timestamps) (ST := roomy_storage)
              tokenless_env closing_net 1060000 1060001 admin_world_stored in
  cache_usable (TS := decimal_timestamps) "allPullRequestsData" "prLastFetchTime"
    PR_CACHE_DURATION 1060000 admin_world_stored = true
  ∧ requests w' = []
  ∧ pullRequests (ui w') = Some [pr7; pr8].
Proof.
  intros w'.
  destruct (missing_configuration_blocks_refresh (JP := admin_json) (TS := decimal_timestamps)
              (ST := roomy_storage) tokenless_env closing_net 1060000 1060001 admin_world_stored)
    as (Hr & _ & Hp & _).
  - right. right. left. reflexivity.
  - split; [reflexivity|]. split; [exact Hr|exact Hp].
Defined.

(** ** Writing the cache and reading it back *)

Section round_trip.
Context `{TS : Timestamps}.

(** Two writes that are accepted leave both values in the store. *)
Lemma write2_accepted `{ST : Storage} key1 value1 key2 value2 store :
  (write2 key1 value1 key2 value2 store).1 = Returns tt →
  (write2 key1 value1 key2 value2 store).2 = <[key2 := value2]> (<[key1 := value1]> store).
Proof.
  unfold write2. destruct (refusal store key1 value1); [discriminate|].
  destruct (refusal (<[key1:=value1]> store) key2 value2); [discriminate|]. reflexivity.
Qed.

(** The entry a refresh writes at [t] is usable exactly while its age is
    below the duration. *)
Lemma cache_usable_written {S} pk tk ttl now (w : World S) store payload t :
  pk ≠ tk → payload ≠ EmptyString → toString t ≠ EmptyString →
  Number_ (toString t) = Some t →
  localStorage w = <[tk := toString t]> (<[pk := payload]> store) →
  cache_usable pk tk ttl now w = true ↔ now - t < ttl.
Proof.
  intros Hne Hp Ht Hn Hs.
  apply (cache_usable_spec pk tk ttl now w payload (toString t) t); try assumption.
  - rewrite Hs, lookup_insert_ne by congruence. apply lookup_insert_eq.
  - rewrite Hs. apply lookup_insert_eq.
Qed.

End round_trip.

(** X17: what a successful refresh of the public view (the provider
    delivers the list and the run ends without an error message, so that the
    browser accepted both writes) writes it reads back: a later run sends no
    request exactly while the entry is younger than 25 minutes, and then leaves the view as the refresh left it, provided
    the parser inverts the writer on the stored list; from 25 minutes on it
    asks the provider again.  In particular the run the 30 minute timer
    starts asks the provider whenever the refresh before it took no more than
    5 minutes. *)
Theorem refresh_then_reload `{JR : JSON (list Repository)} `{TS : Timestamps} `{ST : Storage}
    (net net2 : Network) (now1 now1' now2 now2' : Z) (w : World AppState) repos :
  cache_usable "repoData" "lastFetchTime" CACHE_DURATION now1 w = false →
  fetchOrganizationRepos net ORGANIZATION_NAME = Returns repos →
  JSON_stringify repos ≠ EmptyString →
  toString now1' ≠ EmptyString →
  Number_ (toString now1') = Some now1' →
  let w1 := fetchData net now1 now1' w in
  error (ui w1) = None →
  let w2 := fetchData net2 now2 now2' w1 in
  (now2 - now1' < CACHE_DURATION →
   requests w2 = requests w1 ∧ localStorage w2 = localStorage w1
   ∧ (JSON_parse (JSON_stringify repos) = Returns repos → w2 = w1))
  ∧ (CACHE_DURATION ≤ now2 - now1' →
     requests w2 = requests w1 ++ [ReqOrgRepos ORGANIZATION_NAME])
  ∧ (now2 = now1 + REFRESH_INTERVAL → now1 ≤ now1' ≤ now1 + 5 * 60 * 1000 →
     requests w2 = requests w1 ++ [ReqOrgRepos ORGANIZATION_NAME]).
Proof.
  intros Hu Hf Hp Ht Hn w1 Hok w2.
  assert (E1 : w1 = _) by exact (fetchData_refreshing net now1 now1' w Hu).
  rewrite Hf in E1. cbv zeta in E1.
  assert (Hw : (write2 "repoData" (JSON_stringify repos) "lastFetchTime" (toString now1')
                  (localStorage w)).1 = Returns tt).
  { apply (failure_message_None "Failed to fetch repositories").
    rewrite E1 in Hok. exact Hok. }
  rewrite (write2_accepted _ _ _ _ _ Hw), Hw in E1. simpl in E1.
  assert (Hd : localStorage w1 !! "repoData" = Some (JSON_stringify repos)).
  { rewrite E1. cbn [localStorage]. rewrite lookup_insert_ne by discriminate.
    apply lookup_insert_eq. }
  assert (Hu1 : cache_usable "repoData" "lastFetchTime" CACHE_DURATION now2 w1 = true
                ↔ now2 - now1' < CACHE_DURATION).
  { apply (cache_usable_written _ _ _ _ w1 (localStorage w) (JSON_stringify repos));
      try assumption; [discriminate|]. rewrite E1. reflexivity. }
  assert (Hstale : CACHE_DURATION ≤ now2 - now1' →
                   requests w2 = requests w1 ++ [ReqOrgRepos ORGANIZATION_NAME]).
  { intros Hold.
    assert (Hu2 : cache_usable "repoData" "lastFetchTime" CACHE_DURATION now2 w1 = false).
    { destruct (cache_usable _ _ _ now2 w1); [|reflexivity].
      assert (now2 - now1' < CACHE_DURATION) by (apply Hu1; reflexivity). lia. }
    subst w2. rewrite (fetchData_refreshing net2 now2 now2' w1 Hu2).
    destruct (fetchOrganizationRepos net2 ORGANIZATION_NAME); reflexivity. }
  split; [|split; [exact Hstale|]].
  - intros Hfresh. apply Hu1 in Hfresh. subst w2.
    rewrite (fetchData_cached net2 now2 now2' w1 _ Hfresh Hd).
    split; [destruct (JSON_parse _); reflexivity|].
    split; [destruct (JSON_parse _); reflexivity|].
    intros ->. rewrite E1. reflexivity.
  - intros -> Hlat. apply Hstale. unfold CACHE_DURATION, REFRESH_INTERVAL. lia.
Qed.

Lemma refresh_then_reload_witness :
  let w1 := fetchData (JR := repos_json) (TS := decimal_timestamps) (ST := roomy_storage)
              empty_net 2600000 2600001 app_world_miss in
  let w2 := fetchData (JR := repos_json) (TS := decimal_timestamps) (ST := roomy_storage)
              unreachable_net 2700000 2700001 w1 in
  w2 = w1.
Proof.
  intros w1 w2.
  destruct (refresh_then_reload (JR := repos_json) (TS := decimal_timestamps)
              (ST := roomy_storage)
              empty_net unreachable_net 2600000 2600001 2700000 2700001 app_world_miss []
              eq_refl eq_refl ltac:(discriminate) ltac:(discriminate) eq_refl eq_refl)
    as (Hfresh & _).
  destruct Hfresh as (_ & _ & Hrt); [reflexivity|].
  apply Hrt. reflexivity.
Defined.



(** ** The repository of a pull request *)

Section selector_facts.
Context `{JP : JSON PrCache} `{ST : Storage}.

Lemma all_pulls_attached net repos allPRs pr :
  all_pulls net repos = Returns allPRs → pr ∈ concat allPRs →
  ∃ repo, repo ∈ repos
          ∧ pr_repository pr = {| ref_name := ar_name repo; ref_html_url := ar_html_url repo |}.
Proof.
  revert allPRs. induction repos as [|repo repos IH]; intros allPRs; simpl.
  - intros [= <-] Hin. inversion Hin.
  - unfold pulls_of.
    destruct (list_pulls net (ar_name repo)) as [[[raws|e]|st b]|e]; try discriminate;
      destruct (all_pulls net repos) as [others|e']; try discriminate;
      intros [= <-]; cbn [concat]; rewrite elem_of_app; intros [Hin|Hin].
    + apply list_elem_of_In, in_map_iff in Hin as (raw & <- & _).
      exists repo. split; [left|reflexivity].
    + destruct (IH others eq_refl Hin) as (repo' & Hin' & E).
      exists repo'. split; [right; exact Hin'|exact E].
    + inversion Hin.
    + destruct (IH others eq_refl Hin) as (repo' & Hin' & E).
      exists repo'. split; [right; exact Hin'|exact E].
Qed.

(** The displayed list after any call of [deletePullRequest]. *)
Lemma deletePullRequest_pulls net n r (w : World AdminState) :
  let w' := deletePullRequest net n r w in
  admin_repositories (ui w') = admin_repositories (ui w)
  ∧ (pullRequests (ui w') = pullRequests (ui w)
     ∨ ∃ prs, pullRequests (ui w) = Some prs
              ∧ pullRequests (ui w') = Some (close_update n r prs)).
Proof.
  intros w'. subst w'. unfold deletePullRequest, run.
  destruct (patch_pull net r n) as [[b|st body]|e] eqn:Hp.
  - destruct (pullRequests (ui w)) as [prs|] eqn:Hs.
    + rewrite (deletePullRequest_call_confirmed net n r w b prs Hp Hs). simpl.
      destruct (load_cached_object w).1 as [c|e]; simpl; eauto.
      destruct (refusal (localStorage w) "allPullRequestsData" _); simpl; eauto.
    + destruct (deletePullRequest_call_failed net n r w) as [m ->];
        [intros; assumption|]. simpl. rewrite Hs. auto.
  - destruct (deletePullRequest_call_failed net n r w) as [m ->];
      [intros b'; rewrite Hp; discriminate|]. simpl. auto.
  - destruct (deletePullRequest_call_failed net n r w) as [m ->];
      [intros b'; rewrite Hp; discriminate|]. simpl. auto.
Qed.

Lemma elem_of_close_update n r prs pr :
  pr ∈ close_update n r prs →
  ∃ old, old ∈ prs ∧ pr = if matches n r old then with_state_closed old else old.
Proof.
  intros Hin. unfold close_update in Hin.
  apply list_elem_of_In, in_map_iff in Hin as (old & <- & Hin).
  exists old. split; [apply list_elem_of_In; exact Hin|reflexivity].
Qed.

End selector_facts.

(** X19: after a refresh of the admin view that ends without an error,
    every displayed pull request carries the name and the address of one of
    the displayed repositories, and selecting that repository shows it;
    [deletePullRequest] preserves this correspondence, whatever its
    outcome. *)
Theorem every_pull_request_is_selectable `{JP : JSON PrCache} `{TS : Timestamps}
    `{ST : Storage} (env : Env) (net : AdminNetwork) (now now' : Z) :
  (∀ w : World AdminState,
     env_valid env = true →
     cache_usable "allPullRequestsData" "prLastFetchTime" PR_CACHE_DURATION now w = false →
     let w' := fetchAllData env net now now' w in
     admin_error (ui w') = None →
     selector_complete (ui w')
     ∧ ∀ prs pr, pullRequests (ui w') = Some prs → pr ∈ prs →
                 ∃ repos repo, admin_repositories (ui w') = Some repos ∧ repo ∈ repos
                               ∧ pr ∈ filteredPRs (ar_name repo) prs)
  ∧ (∀ (w : World AdminState) n r,
       selector_complete (ui w) → selector_complete (ui (deletePullRequest net n r w))).
Proof.
  split.
  - intros w Hv Hu w' He. subst w'.
    rewrite (fetchAllData_refreshing env net now now' w Hv Hu) in He |- *.
    unfold after_refresh in *.
    destruct (list_repos net) as [[[repos|e]|st b]|e]; simpl in *; try discriminate.
    destruct (all_pulls net repos) as [allPRs|e] eqn:Ha; simpl in *; [|discriminate].
    split.
    + intros prs pr [= <-] Hin. exists repos.
      destruct (all_pulls_attached net repos allPRs pr Ha Hin) as (repo & Hr & E). eauto.
    + intros prs pr [= <-] Hin.
      destruct (all_pulls_attached net repos allPRs pr Ha Hin) as (repo & Hr & E).
      exists repos, repo. split; [reflexivity|]. split; [exact Hr|].
      unfold filteredPRs. destruct (decide (ar_name repo = "all")); [exact Hin|].
      apply list_elem_of_In, filter_In. split; [apply list_elem_of_In; exact Hin|].
      apply bool_decide_eq_true. rewrite E. reflexivity.
  - intros w n r Hsel prs' pr Hs' Hin.
    destruct (deletePullRequest_pulls net n r w) as (Hrepos & Hprs).
    rewrite Hrepos. destruct Hprs as [E|(prs & Hs & E)].
    + rewrite E in Hs'. exact (Hsel prs' pr Hs' Hin).
    + rewrite E in Hs'. injection Hs' as <-.
      destruct (elem_of_close_update n r prs pr Hin) as (old & Hold & ->).
      destruct (Hsel prs old Hs Hold) as (repos & repo & Hr & Hin' & Eq).
      exists repos, repo. split; [exact Hr|]. split; [exact Hin'|].
      destruct (matches n r old); exact Eq.
Qed.

Lemma every_pull_request_is_selectable_witness :
  selector_complete
    (ui (fetchAllData (JP := admin_json) (TS := decimal_timestamps) (ST := roomy_storage)
           valid_env listing_net 2600000 2600001 admin_world_empty)).
Proof.
  destruct (every_pull_request_is_selectable (JP := admin_json) (TS := decimal_timestamps)
              (ST := roomy_storage) valid_env listing_net 2600000 2600001) as (Hfetch & _).
  apply (Hfetch admin_world_empty eq_refl eq_refl eq_refl).
Defined.



(** ** The admin login *)

Section login_facts.

Lemma session_after_snoc actions a :
  session_after (actions ++ [a]) = act (session_after actions) a.
Proof. unfold session_after. rewrite fold_left_app. reflexivity. Qed.

Lemma act_keeps_admin s a : isAdmin s = true → isAdmin (act s a) = true.
Proof.
  intros Hs. unfold act. destruct (enabled s a); [|exact Hs].
  destruct a; try exact Hs. unfold handleLogin.
  destruct (_ && _); [reflexivity|exact Hs].
Qed.

Lemma fold_act_keeps_admin actions s :
  isAdmin s = true → isAdmin (fold_left act actions s) = true.
Proof.
  revert s. induction actions as [|a actions IH]; intros s Hs; [exact Hs|].
  cbn [fold_left]. apply IH, act_keeps_admin, Hs.
Qed.

(** The only way in: a click on [Login] in the open dialog while both
    fields hold the expected texts. *)
Lemma act_grants_admin s a :
  isAdmin (act s a) = true → isAdmin s = false →
  a = ClickLogin ∧ isOpen (form s) = true
  ∧ username (form s) = "RDMadmin" ∧ password (form s) = "Admin@12345".
Proof.
  unfold act. destruct (enabled s a) eqn:Hen; [|congruence].
  destruct a; cbn [set_form isAdmin]; try congruence.
  unfold handleLogin.
  destruct (bool_decide (username (form s) = "RDMadmin")) eqn:Hu;
    destruct (bool_decide (password (form s) = "Admin@12345")) eqn:Hp;
    cbn [andb isAdmin]; try congruence.
  intros _ _. apply bool_decide_eq_true in Hu, Hp. auto.
Qed.

End login_facts.

(** X21: starting from the initial state, the admin view is reached by a
    sequence of actions exactly when it contains a click on [Login] made
    while the dialog was open and the two fields held [RDMadmin] and
    [Admin@12345]; no action leaves the admin view. *)
Theorem admin_only_with_the_credentials (actions : list action) :
  isAdmin (session_after actions) = true ↔
  ∃ before after,
    actions = before ++ ClickLogin :: after
    ∧ isOpen (form (session_after before)) = true
    ∧ username (form (session_after before)) = "RDMadmin"
    ∧ password (form (session_after before)) = "Admin@12345".
Proof.
  split.
  - induction actions as [|a actions IH] using rev_ind; [discriminate|].
    rewrite session_after_snoc. intros Ha.
    destruct (isAdmin (session_after actions)) eqn:Hprev.
    + destruct (IH eq_refl) as (before & after & -> & Ho & Hu & Hp).
      exists before, (after ++ [a]). rewrite <- app_assoc. auto.
    + destruct (act_grants_admin _ _ Ha Hprev) as (-> & Ho & Hu & Hp).
      exists actions, []. auto.
  - intros (before & after & -> & Ho & Hu & Hp).
    unfold session_after in *. rewrite fold_left_app. cbn [fold_left].
    apply fold_act_keeps_admin.
    set (s := fold_left act before initial_session) in *.
    change (act s ClickLogin) with (if isOpen (form s) then handleLogin s else s).
    rewrite Ho. unfold handleLogin. rewrite Hu, Hp. reflexivity.
Qed.

(** ** The requests of a refresh *)

Section refresh_facts.

Lemma all_pulls_flat net repos allPRs :
  all_pulls net repos = Returns allPRs → concat allPRs = flat_map (listed_pulls net) repos.
Proof.
  revert allPRs. induction repos as [|repo repos IH]; intros allPRs; simpl.
  - intros [= <-]. reflexivity.
  - unfold pulls_of, listed_pulls.
    destruct (list_pulls net (ar_name repo)) as [[[raws|e]|st b]|e]; try discriminate;
      destruct (all_pulls net repos) as [others|e']; try discriminate;
      intros [= <-]; cbn [concat]; rewrite (IH others eq_refl); reflexivity.
Qed.

Lemma all_pulls_returns net repos :
  (∀ repo, repo ∈ repos → ¬ rejected (list_pulls net (ar_name repo))) →
  ∃ allPRs, all_pulls net repos = Returns allPRs.
Proof.
  induction repos as [|repo repos IH]; intros Hno; simpl; [eauto|].
  destruct IH as [others ->]; [intros r Hr; apply Hno; right; exact Hr|].
  specialize (Hno repo ltac:(left)). unfold pulls_of.
  destruct (list_pulls net (ar_name repo)) as [[[raws|e]|st b]|e]; simpl in Hno;
    try contradiction; eauto.
Qed.

(** Two writes are accepted exactly when the browser refuses neither. *)
Lemma write2_returns `{ST : Storage} key1 value1 key2 value2 store :
  (write2 key1 value1 key2 value2 store).1 = Returns tt ↔
  refusal store key1 value1 = None ∧ refusal (<[key1 := value1]> store) key2 value2 = None.
Proof.
  unfold write2. destruct (refusal store key1 value1); simpl.
  - split; [discriminate|]. intros [? _]. discriminate.
  - destruct (refusal (<[key1:=value1]> store) key2 value2); simpl.
    + split; [discriminate|]. intros [_ ?]. discriminate.
    + split; auto.
Qed.

Lemma cache_unusable_without `{TS : Timestamps} {S} pk tk ttl now (w : World S) :
  slot_empty pk w ∨ slot_empty tk w
  ∨ (∃ time, localStorage w !! tk = Some time ∧ Number_ time = None) →
  cache_usable pk tk ttl now w = false.
Proof.
  unfold cache_usable, slot_empty, timeSinceLastFetch_below.
  intros [[->| ->]|[[->| ->]|(time & -> & ->)]]; try reflexivity.
  - destruct (localStorage w !! tk); reflexivity.
  - destruct (localStorage w !! pk); reflexivity.
  - destruct (localStorage w !! pk) as [data|]; [|reflexivity].
    unfold truthy. simpl. rewrite andb_false_r. reflexivity.
  - destruct (localStorage w !! pk) as [data|]; [|reflexivity]. apply andb_false_r.
Qed.

End refresh_facts.

(** X22: a refresh of the admin view that obtains the listing of the
    repositories sends one request for that listing and then one request per
    repository, in order, and replaces the displayed repositories, whether it
    succeeds or not.  When no listing of pull requests is rejected it shows,
    repository after repository, the pull requests of the delivered
    listings, each with the name and the address of its repository, a
    repository whose listing the provider refused contributing none; when a
    listing is rejected it leaves the displayed pull requests and the store
    as they were.  It ends without an error message exactly when no listing
    is rejected and the browser accepts the two writes of the cache. *)
Theorem refresh_lists_every_repository `{JP : JSON PrCache} `{TS : Timestamps} `{ST : Storage}
    (env : Env) (net : AdminNetwork) (now now' : Z) (w : World AdminState) repos :
  env_valid env = true →
  cache_usable "allPullRequestsData" "prLastFetchTime" PR_CACHE_DURATION now w = false →
  list_repos net = Returns (Ok (Returns repos)) →
  let w' := fetchAllData env net now now' w in
  let text := JSON_stringify {| cache_pullRequests := Some (flat_map (listed_pulls net) repos);
                                cache_repositories := Some repos |} in
  requests w' = requests w ++ ReqAdminRepos :: map (λ repo, ReqPulls (ar_name repo)) repos
  ∧ admin_repositories (ui w') = Some repos
  ∧ ((∀ repo, repo ∈ repos → ¬ rejected (list_pulls net (ar_name repo))) →
     pullRequests (ui w') = Some (flat_map (listed_pulls net) repos))
  ∧ (∀ repo, repo ∈ repos → rejected (list_pulls net (ar_name repo)) →
             pullRequests (ui w') = pullRequests (ui w)
             ∧ localStorage w' = localStorage w)
  ∧ (admin_error (ui w') = None ↔
     (∀ repo, repo ∈ repos → ¬ rejected (list_pulls net (ar_name repo)))
     ∧ refusal (localStorage w) "allPullRequestsData" text = None
     ∧ refusal (<["allPullRequestsData" := text]> (localStorage w))
         "prLastFetchTime" (toString now') = None).
Proof.
  intros Hv Hu Hl w' text. subst w'.
  rewrite (fetchAllData_refreshing env net now now' w Hv Hu). unfold after_refresh.
  rewrite Hl. destruct (all_pulls net repos) as [allPRs|e] eqn:Ha; simpl.
  - assert (Hno : ∀ repo, repo ∈ repos → ¬ rejected (list_pulls net (ar_name repo))).
    { intros repo Hin Hrej.
      destruct (all_pulls_rejected net repos repo Hin Hrej) as [e He]. congruence. }
    rewrite <- app_assoc, (all_pulls_flat net repos allPRs Ha). fold text.
    split; [reflexivity|]. split; [reflexivity|]. split; [reflexivity|].
    split; [intros repo Hin Hrej; destruct (Hno repo Hin Hrej)|].
    rewrite <- write2_returns. split.
    + intros Hnone. split; [exact Hno|]. apply failure_message_None in Hnone. exact Hnone.
    + intros [_ ->]. reflexivity.
  - rewrite <- app_assoc. split; [reflexivity|]. split; [reflexivity|]. split.
    + intros Hno. destruct (all_pulls_returns net repos Hno) as [allPRs Hr]. congruence.
    + split; [intros; split; reflexivity|].
      split; [discriminate|]. intros [Hno _].
      destruct (all_pulls_returns net repos Hno) as [allPRs Hr]. congruence.
Qed.

Lemma refresh_lists_every_repository_witness :
  let w' := fetchAllData (JP := admin_json) (TS := decimal_timestamps) (ST := roomy_storage)
              valid_env listing_net 2600000 2600001 admin_world_empty in
  requests w' = [ReqAdminRepos; ReqPulls "web"]
  ∧ pullRequests (ui w')
    = Some [ {| pr_id := 1009; pr_number := 9; pr_title := "Update README";
                pr_user := {| login := "eve" |}; pr_created_at := "2024-01-03T00:00:00Z";
                pr_html_url := "https://example.org/web/pull/9"; pr_state := "open";
                pr_body := "text";
                pr_repository := {| ref_name := "web";
                                    ref_html_url := "https://example.org/web" |} |} ]
  ∧ admin_error (ui w') = None.
Proof.
  intros w'.
  destruct (refresh_lists_every_repository (JP := admin_json) (TS := decimal_timestamps)
              (ST := roomy_storage)
              valid_env listing_net 2600000 2600001 admin_world_empty [web_repo]
              eq_refl eq_refl eq_refl)
    as (Hr & _ & Hp & _ & He).
  split; [exact Hr|]. split.
  - apply Hp. intros repo _ [].
  - apply He. split; [intros repo _ []|]. split; reflexivity.
Defined.

(** X23: when a slot of the cache is missing or empty, or the timestamp
    slot does not hold a number, [fetchData] asks the provider, and so does
    [fetchAllData] once its environment is valid. *)
Theorem missing_entry_asks_provider
    `{JR : JSON (list Repository)} `{JP : JSON PrCache} `{TS : Timestamps} `{ST : Storage}
    (net : Network) (env : Env) (anet : AdminNetwork) (now now' : Z) :
  (∀ w : World AppState,
     slot_empty "repoData" w ∨ slot_empty "lastFetchTime" w
     ∨ (∃ time, localStorage w !! "lastFetchTime" = Some time ∧ Number_ time = None) →
     requests (fetchData net now now' w) = requests w ++ [ReqOrgRepos ORGANIZATION_NAME])
  ∧ (∀ w : World AdminState,
       env_valid env = true →
       slot_empty "allPullRequestsData" w ∨ slot_empty "prLastFetchTime" w
       ∨ (∃ time, localStorage w !! "prLastFetchTime" = Some time ∧ Number_ time = None) →
       ∃ rs, requests (fetchAllData env anet now now' w) = requests w ++ ReqAdminRepos :: rs).
Proof.
  split.
  - intros w Hmiss.
    rewrite (fetchData_refreshing net now now' w (cache_unusable_without _ _ _ _ w Hmiss)).
    destruct (fetchOrganizationRepos net ORGANIZATION_NAME); reflexivity.
  - intros w Hv Hmiss.
    rewrite (fetchAllData_refreshing env anet now now' w Hv
               (cache_unusable_without _ _ _ _ w Hmiss)).
    unfold after_refresh.
    destruct (list_repos anet) as [[[repos|e]|st b]|e]; simpl; try (exists []; reflexivity).
    destruct (all_pulls anet repos); simpl; rewrite <- app_assoc; eauto.
Qed.

Lemma missing_entry_asks_provider_witness :
  requests (fetchData (JR := repos_json) (TS := decimal_timestamps) (ST := roomy_storage)
              unreachable_net 1060000 1060001 app_world_miss)
  = [ReqOrgRepos "G2HackFest"].
Proof.
  destruct (missing_entry_asks_provider (JR := repos_json) (JP := admin_json)
              (TS := decimal_timestamps) (ST := roomy_storage) unreachable_net valid_env closing_net
              1060000 1060001) as (Happ & _).
  apply (Happ app_world_miss). left. left. reflexivity.
Defined.
